(** * NanoClaw: channel adapters, mail intake and the voice endpoint

    A shallow embedding of the parts of the gateway that the specification
    makes checkable statements about:

    - [src/voice-api.ts]: result stripping, the per-turn deadline and the
      HTTP routing of the voice endpoint;
    - [src/channels/slack.ts] and the Signal adapter: ownership of chat
      ids, inbound filtering and the outbound path;
    - [src/email-intake.ts]: URL extraction and the mail-to-bookmark poll.

    Further facts about the same files follow the ones the specification
    asks for: what [extractUrls] returns and finds and what a poll asks
    for; whose chat an inbound message is and where a reply goes; the
    Signal queue when a send of the drain fails, the ids of its requests
    and the caches of the Slack adapter; how a run of the voice endpoint
    is answered, what the endpoint does for a request and how much of a
    body it reads; mentions of the bot; and the batches of the
    meeting-prep script.

    JavaScript strings are sequences of UTF-16 code units; they are
    modelled as lists of code units so that statements quantify over every
    string the program can receive. *)

From Stdlib Require Import Ascii String.
From Stdlib Require Import List NArith ZArith Bool Lia Arith.
Import ListNotations.

Set Implicit Arguments.

(* ================================================================== *)
(** * JavaScript strings and regular expressions *)
(* ================================================================== *)

Module JS.

(** A UTF-16 code unit. *)
Abbreviation unit16 := N.

(** A JavaScript string. *)
Abbreviation jsstring := (list N).

(** A literal of the source, written as a Rocq string of ASCII characters. *)
Definition lit (s : string) : jsstring :=
  map N_of_ascii (list_ascii_of_string s).

Definition eqb (a b : jsstring) : bool :=
  if list_eq_dec N.eq_dec a b then true else false.

(** [s.startsWith(p)] *)
Fixpoint startsWith (p s : jsstring) : bool :=
  match p, s with
  | [], _ => true
  | _ :: _, [] => false
  | a :: p', b :: s' => N.eqb a b && startsWith p' s'
  end.

(** [s.slice(n)] for a non-negative [n]. *)
Definition slice (n : nat) (s : jsstring) : jsstring := skipn n s.

(** WhiteSpace and LineTerminator code units of ECMAScript: what [trim]
    removes and what the class [\s] matches. *)
Definition is_ws (c : unit16) : bool :=
  ((9 <=? c) && (c <=? 13) || (c =? 32) || (c =? 160) || (c =? 5760)
   || (8192 <=? c) && (c <=? 8202) || (c =? 8232) || (c =? 8233)
   || (c =? 8239) || (c =? 8287) || (c =? 12288) || (c =? 65279))%N.

(** LineTerminator code units: what [.] does not match. *)
Definition is_line_terminator (c : unit16) : bool :=
  ((c =? 10) || (c =? 13) || (c =? 8232) || (c =? 8233))%N.

Fixpoint trimStart (s : jsstring) : jsstring :=
  match s with
  | c :: s' => if is_ws c then trimStart s' else s
  | [] => []
  end.

Definition trimEnd (s : jsstring) : jsstring := rev (trimStart (rev s)).

(** [s.trim()] *)
Definition trim (s : jsstring) : jsstring := trimEnd (trimStart s).

(** ** Regular expressions

    The fragment of ECMAScript patterns that the sources use: literals and
    classes (one code unit each), concatenation, alternation, greedy and
    lazy repetition of a one-unit atom, and the assertions [^] and [$]
    (without the [m] flag). *)

Inductive regex : Type :=
| Empty
| Char (p : unit16 -> bool)
| Seq (a b : regex)
| Alt (a b : regex)
| Star (greedy : bool) (p : unit16 -> bool)
| Bol
| Eol.

(** A continuation receives the index reached and the input that is left. *)
Definition cont := nat -> jsstring -> option jsstring.

(** [p*]: longest first, backing off one unit at a time. *)
Fixpoint star_greedy (p : unit16 -> bool) (k : cont) (i : nat) (s : jsstring)
  : option jsstring :=
  match s with
  | c :: s' =>
      if p c then
        match star_greedy p k (S i) s' with
        | Some r => Some r
        | None => k i s
        end
      else k i s
  | [] => k i s
  end.

(** [p*?]: shortest first, growing one unit at a time. *)
Fixpoint star_lazy (p : unit16 -> bool) (k : cont) (i : nat) (s : jsstring)
  : option jsstring :=
  match k i s with
  | Some r => Some r
  | None =>
      match s with
      | c :: s' => if p c then star_lazy p k (S i) s' else None
      | [] => None
      end
  end.

(** The backtracking matcher: [rmatch r i s k] matches [r] at index [i],
    where [s] is the input from [i] on, and hands what follows to [k]. *)
Fixpoint rmatch (r : regex) (i : nat) (s : jsstring) (k : cont)
  : option jsstring :=
  match r with
  | Empty => k i s
  | Char p =>
      match s with
      | c :: s' => if p c then k (S i) s' else None
      | [] => None
      end
  | Seq a b => rmatch a i s (fun i' s' => rmatch b i' s' k)
  | Alt a b =>
      match rmatch a i s k with
      | Some r => Some r
      | None => rmatch b i s k
      end
  | Star true p => star_greedy p k i s
  | Star false p => star_lazy p k i s
  | Bol => if Nat.eqb i 0 then k i s else None
  | Eol => match s with [] => k i s | _ :: _ => None end
  end.

(** A successful match: the input before it, the matched text, the rest. *)
Definition found := (jsstring * jsstring * jsstring)%type.

(** RegExpBuiltinExec from index [i]: the leftmost position where the
    pattern matches. *)
Fixpoint exec (r : regex) (i : nat) (s : jsstring) : option found :=
  match rmatch r i s (fun _ rest => Some rest) with
  | Some rest => Some ([], firstn (length s - length rest) s, rest)
  | None =>
      match s with
      | [] => None
      | c :: s' =>
          match exec r (S i) s' with
          | Some (b, m, a) => Some (c :: b, m, a)
          | None => None
          end
      end
  end.

(** [r.test(s)] for a pattern without the [g] flag. *)
Definition test (r : regex) (s : jsstring) : bool :=
  match exec r 0 s with Some _ => true | None => false end.

(** [s.replace(r, rep)] for a pattern without the [g] flag and a
    replacement text without [$]. *)
Definition replace_first (r : regex) (rep s : jsstring) : jsstring :=
  match exec r 0 s with
  | Some (b, _, a) => b ++ rep ++ a
  | None => s
  end.

(** The loop of [s.replace(r, rep)] with the [g] flag. After an empty
    match the search resumes one code unit further. Every round consumes
    input, so [fuel] above the length of [s] is never used up. *)
Fixpoint replace_loop (fuel : nat) (r : regex) (rep : jsstring)
  (i : nat) (s : jsstring) : jsstring :=
  match fuel with
  | O => s
  | S fuel' =>
      match exec r i s with
      | None => s
      | Some (b, [], []) => b ++ rep
      | Some (b, [], c :: a) =>
          b ++ rep ++ c :: replace_loop fuel' r rep (i + length b + 1) a
      | Some (b, m, a) =>
          b ++ rep ++ replace_loop fuel' r rep (i + length b + length m) a
      end
  end.

Definition replace_all (r : regex) (rep s : jsstring) : jsstring :=
  replace_loop (S (length s)) r rep 0 s.

(** The loop of [s.match(r)] with the [g] flag. *)
Fixpoint match_loop (fuel : nat) (r : regex) (i : nat) (s : jsstring)
  : list jsstring :=
  match fuel with
  | O => []
  | S fuel' =>
      match exec r i s with
      | None => []
      | Some (b, [], []) => [[]]
      | Some (b, [], c :: a) =>
          [] :: match_loop fuel' r (i + length b + 1) a
      | Some (b, m, a) =>
          m :: match_loop fuel' r (i + length b + length m) a
      end
  end.

(** [s.match(r) || []] *)
Definition match_all (r : regex) (s : jsstring) : list jsstring :=
  match_loop (S (length s)) r 0 s.

(** ** Building patterns *)

Definition any : unit16 -> bool := fun _ => true.
Definition dot : unit16 -> bool := fun c => negb (is_line_terminator c).
Definition exactly (a : unit16) : unit16 -> bool := fun c => N.eqb c a.
Definition one_of (cs : jsstring) : unit16 -> bool :=
  fun c => existsb (N.eqb c) cs.

(** Canonicalize of a code unit below 128 under the [i] flag without [u]:
    a lower-case ASCII letter becomes upper case. A unit from 128 on is
    never canonicalized to one below 128, so a pattern unit below 128 is
    matched by its two ASCII cases only. *)
Definition ascii_upper (c : unit16) : unit16 :=
  (if (97 <=? c) && (c <=? 122) then c - 32 else c)%N.

Definition is_ci (a : unit16) : unit16 -> bool :=
  fun c => N.eqb (ascii_upper c) (ascii_upper a).

(** A literal run of code units. *)
Fixpoint text (w : jsstring) : regex :=
  match w with
  | [] => Empty
  | a :: w' => Seq (Char (exactly a)) (text w')
  end.

(** A literal run of code units under the [i] flag. *)
Fixpoint text_ci (w : jsstring) : regex :=
  match w with
  | [] => Empty
  | a :: w' => Seq (Char (is_ci a)) (text_ci w')
  end.

(** [p+] *)
Definition plus (p : unit16 -> bool) : regex := Seq (Char p) (Star true p).

(** [a?] *)
Definition opt (a : regex) : regex := Alt a Empty.

End JS.

(* ================================================================== *)
(** * The voice endpoint ([src/voice-api.ts]) *)
(* ================================================================== *)

Module VoiceApi.
Import JS.

Definition DEFAULT_TIMEOUT : Z := 300000.
Definition MIN_TIMEOUT : Z := 120000.

(** [timeout || DEFAULT_TIMEOUT] for the optional numeric field [timeout]
    of the request body, in milliseconds: an absent field and the number
    0 are both falsy. *)
Definition or_default (timeout : option Z) : Z :=
  match timeout with
  | None => DEFAULT_TIMEOUT
  | Some t => if Z.eqb t 0 then DEFAULT_TIMEOUT else t
  end.

(** [const timeoutMs = Math.max(timeout || DEFAULT_TIMEOUT, MIN_TIMEOUT)] *)
Definition timeoutMs (timeout : option Z) : Z :=
  Z.max (or_default timeout) MIN_TIMEOUT.

(** The longest delay a timer of Node takes ([TIMEOUT_MAX], 2^31 - 1). *)
Definition TIMEOUT_MAX : Z := 2147483647.

(** [setTimeout(callback, after)] of Node, for a whole number [after]: a
    delay that is below 1 or above [TIMEOUT_MAX] is set to 1. The result
    is the number of milliseconds after which the timer fires. *)
Definition timer_delay (after : Z) : Z :=
  if ((1 <=? after) && (after <=? TIMEOUT_MAX))%Z then after else 1%Z.

(** The deadline a run gets: [handleRun] sets its timer with
    [setTimeout(..., timeoutMs)]. *)
Definition deadline (timeout : option Z) : Z :=
  timer_delay (timeoutMs timeout).


(** The deadline as the specification words it: the larger of the
    requested timeout, or the default when there is none, and the floor. *)
Definition specified_deadline (timeout : option Z) : Z :=
  Z.max (match timeout with Some t => t | None => 300000 end) 120000.

(** [/<internal>[\s\S]*?<\/internal>/g] *)
Definition internal_open : jsstring := lit "<internal>".
Definition internal_close : jsstring := lit "</internal>".

Definition INTERNAL : regex :=
  Seq (text internal_open) (Seq (Star false any) (text internal_close)).

(** [raw.replace(/<internal>[\s\S]*?<\/internal>/g, '').trim()] *)
Definition visible_text (raw : jsstring) : jsstring :=
  trim (replace_all INTERNAL [] raw).

(** ** Wrapped substrings, as the specification words them

    A substring is wrapped between the markers when it is an occurrence
    of [<internal>], the text after it up to the nearest [</internal>],
    and that closing marker. *)

(** [s.indexOf(w)]: where [w] first occurs in [s]. *)
Fixpoint indexOf (w s : jsstring) : option nat :=
  if startsWith w s then Some 0
  else match s with
       | [] => None
       | _ :: s' => option_map S (indexOf w s')
       end.

(** The length of the wrapped substring that starts where [s] starts,
    0 when none does: 10 units of opening marker, the text up to the
    nearest closing marker, 11 units of closing marker. *)
Definition reach (s : jsstring) : nat :=
  if startsWith internal_open s then
    match indexOf internal_close (skipn 10 s) with
    | Some k => 10 + k + 11
    | None => 0
    end
  else 0.

(** Where the wrapped substring that starts at unit [i] of [raw] ends
    ([i] itself when none starts there). *)
Definition span (raw : jsstring) (i : nat) : nat := i + reach (skipn i raw).

(** Unit [p] of [raw] lies in a wrapped substring: one starts at or
    before [p] and ends after it. *)
Definition enclosed (raw : jsstring) (p : nat) : bool :=
  existsb (fun i => p <? span raw i) (seq 0 (S p)).

(** The units of [s], which are those of [raw] from [o] on, that lie in
    no wrapped substring of [raw]. *)
Definition kept_from (raw : jsstring) (o : nat) (s : jsstring) : jsstring :=
  map snd (filter (fun x => negb (enclosed raw (fst x)))
             (combine (seq o (length s)) s)).

(** The raw string with every wrapped substring removed. *)
Definition without_internal (raw : jsstring) : jsstring :=
  kept_from raw 0 raw.

(** The same in one pass from left to right: [skip] counts the units
    that the wrapped substrings met so far still cover. *)
Fixpoint sweep (skip : nat) (s : jsstring) : jsstring :=
  match s with
  | [] => []
  | c :: s' =>
      match Nat.max skip (reach s) with
      | 0 => c :: sweep 0 s'
      | S n => sweep n s'
      end
  end.

(** How far the wrapped substrings that start before [o] reach beyond
    [o]. *)
Definition cover (raw : jsstring) (o : nat) : nat :=
  list_max (map (fun i => span raw i - o) (seq 0 o)).

(** The [result] field of a streamed output: [null] (or another falsy
    value), a string, or a truthy value that is not a string, given with
    its [JSON.stringify] text. *)
Inductive result_value : Type :=
| RNull
| RString (s : jsstring)
| ROther (stringified : jsstring).

Inductive output_status : Type := success | error.

Record ContainerOutput : Type := {
  status : output_status;
  result : result_value;
  newSessionId : option jsstring;
  output_error : option jsstring
}.

(** What [resolve] was called with. *)
Record resolution : Type := {
  res_result : option jsstring;
  res_error : option jsstring
}.

(** The variables the streaming callback of [handleRun] closes over, and
    the value the promise was resolved with, if it was. *)
Record run_state : Type := {
  voiceSessionId : option jsstring;
  stored_sessions : list jsstring;
  firstResult : option jsstring;
  agentError : option jsstring;
  resolved : bool;
  resolved_with : option resolution
}.

(** JavaScript truthiness of an optional string. *)
Definition truthy (s : option jsstring) : bool :=
  match s with Some (_ :: _) => true | _ => false end.

(** [output.error || 'Agent error'] *)
Definition error_text (e : option jsstring) : jsstring :=
  match e with Some (c :: e') => c :: e' | _ => lit "Agent error" end.

(** [output.result && ...]: the raw text of a truthy result. *)
Definition raw_text (v : result_value) : option jsstring :=
  match v with
  | RNull => None
  | RString [] => None
  | RString s => Some s
  | ROther j => Some j
  end.

(** The first step of the callback: a new session id is kept and stored. *)
Definition note_session (o : ContainerOutput) (st : run_state) : run_state :=
  match newSessionId o with
  | Some (c :: id) =>
      {| voiceSessionId := Some (c :: id);
         stored_sessions := stored_sessions st ++ [c :: id];
         firstResult := firstResult st;
         agentError := agentError st;
         resolved := resolved st;
         resolved_with := resolved_with st |}
  | _ => st
  end.

(** The streaming callback handed to [runContainerAgent]. *)
Definition on_output (o : ContainerOutput) (st0 : run_state) : run_state :=
  let st := note_session o st0 in
  match status o with
  | error =>
      let e := error_text (output_error o) in
      if resolved st then
        {| voiceSessionId := voiceSessionId st;
           stored_sessions := stored_sessions st;
           firstResult := firstResult st;
           agentError := Some e;
           resolved := true;
           resolved_with := resolved_with st |}
      else
        {| voiceSessionId := voiceSessionId st;
           stored_sessions := stored_sessions st;
           firstResult := firstResult st;
           agentError := Some e;
           resolved := true;
           resolved_with := Some {| res_result := None; res_error := Some e |} |}
  | success =>
      match raw_text (result o), resolved st with
      | Some raw, false =>
          match visible_text raw with
          | [] => st
          | text =>
              {| voiceSessionId := voiceSessionId st;
                 stored_sessions := stored_sessions st;
                 firstResult := Some text;
                 agentError := agentError st;
                 resolved := true;
                 resolved_with :=
                   Some {| res_result := Some text; res_error := None |} |}
          end
      | _, _ => st
      end
  end.

(** The text a call of the callback hands on: the result it resolves the
    pending promise with, when this call is the one that resolves it. *)
Definition dispatched (o : ContainerOutput) (st : run_state)
  : option jsstring :=
  if resolved st then None
  else if resolved (on_output o st) then
    match resolved_with (on_output o st) with
    | Some r => res_result r
    | None => None
    end
  else None.

(** What happens while [handleRun] waits: outputs are streamed, or the
    promise of [runContainerAgent] is rejected. When nothing has resolved
    the wait by the deadline, the timer does. *)
Inductive agent_event : Type :=
| Streamed (o : ContainerOutput)
| Rejected (message : jsstring).

Definition on_event (e : agent_event) (st : run_state) : run_state :=
  match e with
  | Streamed o => on_output o st
  | Rejected message =>
      if resolved st then st
      else
        {| voiceSessionId := voiceSessionId st;
           stored_sessions := stored_sessions st;
           firstResult := firstResult st;
           agentError := agentError st;
           resolved := true;
           resolved_with :=
             Some {| res_result := firstResult st;
                     res_error := Some message |} |}
  end.

Definition on_timer (st : run_state) : run_state :=
  if resolved st then st
  else
    {| voiceSessionId := voiceSessionId st;
       stored_sessions := stored_sessions st;
       firstResult := firstResult st;
       agentError := agentError st;
       resolved := true;
       resolved_with :=
         Some {| res_result := firstResult st;
                 res_error := Some (lit "Voice API timeout") |} |}.

Definition initial (session : option jsstring) : run_state :=
  {| voiceSessionId := session;
     stored_sessions := [];
     firstResult := None;
     agentError := None;
     resolved := false;
     resolved_with := None |}.

(** The parsed request body, of the declared type [RunRequestBody]:
    [input] is [None] when the field is missing or is not a string;
    [timeout], when present, is a number of milliseconds, taken here to
    be whole. *)
Record RunRequestBody : Type := {
  input : option jsstring;
  timeout : option Z
}.

(** The answer of [handleRun]. *)
Record run_result : Type := {
  run_success : bool;
  run_text : option jsstring;
  run_error : option jsstring
}.

(** What the host does on behalf of a request: it writes the snapshots,
    and it starts a container agent on a prompt, beside a timer that it
    sets with [setTimeout(..., timeoutMs)]. *)
Inductive effect : Type :=
| WriteSnapshots
| RunContainerAgent (prompt : jsstring) (timeoutMs : Z).

(** The double quote and the em dash of the source's literals. *)
Definition dq : jsstring := [34%N].
Definition em_dash : jsstring := [8212%N].

(** The three lines of [voiceContext], joined by one space. *)
Definition voiceContext : jsstring :=
  lit "[Voice input " ++ em_dash ++ lit " transcription aliases:"
  ++ lit " "
  ++ dq ++ lit "the brain" ++ dq ++ lit " / "
  ++ dq ++ lit "jay brain" ++ dq ++ lit " / "
  ++ dq ++ lit "ji brain" ++ dq ++ lit " / "
  ++ dq ++ lit "g brain" ++ dq
  ++ lit " = jibrain (knowledge base at /workspace/extra/jibrain/)"
  ++ lit " "
  ++ lit "Use WebSearch tool when asked to search the web or look something up online.]".

(** The part of the world a run depends on: whether the snapshot writes
    before the [try] block complete, the message of an exception raised
    inside the [try] block before the wait (by [buildVoiceGroup] or by
    the start of the agent), if there is one, and what the agent does
    before the deadline. The session store is taken to accept its writes;
    [durationMs] is left out. *)
Record run_world : Type := {
  snapshots_written : bool;
  start_failure : option jsstring;
  events : list agent_event
}.

(** [handleRun]: [None] when an exception leaves the function. *)
Definition handleRun (w : run_world) (session : option jsstring)
  (body : RunRequestBody) : option run_result * list effect :=
  match input body with
  | Some (c :: text) =>
      if snapshots_written w then
        match start_failure w with
        | Some message =>
            (Some {| run_success := false; run_text := None;
                     run_error := Some message |},
             [WriteSnapshots])
        | None =>
            let prompt := voiceContext ++ [10; 10]%N ++ c :: text in
            let st := on_timer (fold_left (fun st e => on_event e st)
                                  (events w) (initial session)) in
            let r := match resolved_with st with
                     | Some r => r
                     | None => {| res_result := None; res_error := None |}
                     end in
            (Some {| run_success := negb (truthy (res_error r));
                     run_text := res_result r;
                     run_error := if truthy (res_error r) then res_error r
                                  else None |},
             [WriteSnapshots;
              RunContainerAgent prompt (timeoutMs (timeout body))])
        end
      else (None, [])
  | _ =>
      (Some {| run_success := false; run_text := None;
               run_error :=
                 Some (lit "Missing " ++ dq ++ lit "input" ++ dq
                       ++ lit " string") |}, [])
  end.

(** [process.env.VOICE_API_TOKEN || envConfig.VOICE_API_TOKEN || '']
    of [src/config.ts]. *)
Definition VOICE_API_TOKEN (from_env from_file : option jsstring) : jsstring :=
  match from_env, from_file with
  | Some (c :: t), _ => c :: t
  | _, Some (c :: t) => c :: t
  | _, _ => []
  end.

(** What reading and parsing the request body gives: an exception (the
    body is too large, the stream fails, the text is not JSON, or it is
    the JSON [null]), or the parsed body. *)
Inductive body_outcome : Type :=
| BodyRejected
| BodyParsed (b : RunRequestBody).

(** What [new URL(req.url || '/', ...)] gives for the target of a
    request: it throws (as it does for the target [//], which names an
    empty host), or it yields a URL, of which the listener reads the
    [pathname]. *)
Inductive target_outcome : Type :=
| TargetInvalid
| TargetParsed (pathname : jsstring).

(** An incoming request: its method, what parsing its target gives, the
    [authorization] header and what its body turns out to be. *)
Record request : Type := {
  method : jsstring;
  target : target_outcome;
  authorization : option jsstring;
  body : body_outcome
}.

(** [url.pathname], when there is a URL. *)
Definition pathname (req : request) : option jsstring :=
  match target req with
  | TargetParsed p => Some p
  | TargetInvalid => None
  end.

(** [url.pathname === path] *)
Definition path_is (req : request) (path : jsstring) : bool :=
  match target req with
  | TargetParsed p => eqb p path
  | TargetInvalid => false
  end.

(** [authHeader.startsWith('Bearer ') ? authHeader.slice(7) : ''] *)
Definition bearer_token (authHeader : jsstring) : jsstring :=
  if startsWith (lit "Bearer ") authHeader then slice 7 authHeader else [].

(** [req.headers.authorization || ''] *)
Definition auth_header (req : request) : jsstring :=
  match authorization req with
  | Some h => h
  | None => []
  end.

Definition is_health (req : request) : bool :=
  eqb (method req) (lit "GET") && path_is req (lit "/health").

Definition is_run (req : request) : bool :=
  eqb (method req) (lit "POST") && path_is req (lit "/api/run").

(** The request listener of [startVoiceApi]: the status of the response
    and what the host did for the request. The URL is parsed first, outside
    any [try]: when that throws, the listener ends in a rejected promise
    and no response is written, which is the status [None]. *)
Definition serve (token : jsstring) (w : run_world)
  (session : option jsstring) (req : request) : option N * list effect :=
  match target req with
  | TargetInvalid => (None, [])
  | TargetParsed _ =>
      if is_health req then (Some 200%N, [])
      else if negb (eqb (bearer_token (auth_header req)) token)
      then (Some 401%N, [])
      else if is_run req then
        match body req with
        | BodyRejected => (Some 400%N, [])
        | BodyParsed b =>
            match handleRun w session b with
            | (Some _, fx) => (Some 200%N, fx)
            | (None, fx) => (Some 400%N, fx)
            end
        end
      else (Some 404%N, [])
  end.

(** The status of the response; [None]: no response is written. *)
Definition status_of (r : option N * list effect) : option N := fst r.

(** A container agent was started for the request. *)
Definition starts_agent (r : option N * list effect) : bool :=
  existsb (fun e => match e with RunContainerAgent _ _ => true
                             | WriteSnapshots => false end) (snd r).


End VoiceApi.

(* ================================================================== *)
(** * The channel contract ([src/types.ts], as the adapters use it) *)
(* ================================================================== *)

Module Types.
Import JS.

Record NewMessage : Type := {
  id : jsstring;
  chat_jid : jsstring;
  sender : jsstring;
  sender_name : jsstring;
  content : jsstring;
  timestamp : jsstring;
  is_from_me : bool;
  is_bot_message : bool
}.

(** The calls an adapter makes on the callbacks it was constructed with. *)
Inductive callback : Type :=
| OnChatMetadata (chatJid timestamp : jsstring) (name : option jsstring)
    (channel : jsstring) (isGroup : bool)
| OnNewContact (chatJid senderName : jsstring) (isGroup : bool)
| OnMessage (chatJid : jsstring) (msg : NewMessage).

Definition is_on_message (c : callback) : bool :=
  match c with OnMessage _ _ => true | _ => false end.

(** How an asynchronous method ends for its caller: the promise is
    fulfilled, or it is rejected. *)
Inductive outcome : Type := Returned | Raised.

(** The keys of the object [registeredGroups()] returns. Chat ids begin
    with [slack:] or [sig:], so no key names a property that every object
    inherits. *)
Definition groups := list jsstring.

(** [groups[chatJid]] is truthy. *)
Definition registered (g : groups) (chatJid : jsstring) : bool :=
  existsb (eqb chatJid) g.

(** A [Map] from strings to strings. *)
Definition cache := list (jsstring * jsstring).

Fixpoint cache_get (k : jsstring) (m : cache) : option jsstring :=
  match m with
  | [] => None
  | (k', v) :: m' => if eqb k k' then Some v else cache_get k m'
  end.

Definition cache_set (k v : jsstring) (m : cache) : cache := (k, v) :: m.

(** [a || b] on strings. *)
Definition or_else (a : option jsstring) (b : jsstring) : jsstring :=
  match a with Some (c :: a') => c :: a' | _ => b end.

End Types.

(* ================================================================== *)
(** * The Slack adapter ([src/channels/slack.ts]) *)
(* ================================================================== *)

Module Slack.
Import JS Types.

Record SlackChannel : Type := {
  namespace : option jsstring;
  name : jsstring;
  prefix : jsstring;
  channelPrefix : jsstring;
  connected : bool;
  userCache : cache;
  dmChannelCache : cache;
  botUserId : option jsstring
}.

(** [opts.namespace] is truthy. *)
Definition namespaced (ns : option jsstring) : bool :=
  match ns with Some (_ :: _) => true | _ => false end.

(** The constructor. *)
Definition make (ns : option jsstring) : SlackChannel :=
  let n := match ns with Some n => n | None => [] end in
  {| namespace := ns;
     name := if namespaced ns then lit "slack-" ++ n else lit "slack";
     prefix := if namespaced ns then lit "slack:" ++ n ++ lit ":"
               else lit "slack:";
     channelPrefix := if namespaced ns then lit "slack:" ++ n ++ lit ":channel:"
                      else lit "slack:channel:";
     connected := false;
     userCache := [];
     dmChannelCache := [];
     botUserId := None |}.

Definition isConnected (c : SlackChannel) : bool := connected c.

(** [s.charAt(n)] *)
Definition charAt (n : nat) (s : jsstring) : jsstring :=
  match nth_error s n with
  | Some c => [c]
  | None => []
  end.

Section Ownership.

(** [String.prototype.toUpperCase], which maps by the Unicode tables of
    the runtime. *)
Variable toUpperCase : jsstring -> jsstring.

Definition ownsJid (c : SlackChannel) (jid : jsstring) : bool :=
  if namespaced (namespace c) then startsWith (prefix c) jid
  else if negb (startsWith (lit "slack:") jid) then false
  else
    let afterSlack := charAt 6 jid in
    eqb afterSlack (toUpperCase afterSlack)
    || startsWith (lit "slack:channel:") jid.

End Ownership.

(** [toUpperCase] on strings whose code units are all below 128. *)
Definition ascii_toUpperCase (s : jsstring) : jsstring := map ascii_upper s.

(** The requests the adapter sends to the Slack API. *)
Inductive api_call : Type :=
| AppStart
| AppStop
| AuthTest
| UsersInfo (user : jsstring)
| ConversationsOpen (users : jsstring)
| PostMessage (channel text : jsstring).

(** The profile [users.info] answers with. *)
Record user_info : Type := {
  display_name : option jsstring;
  real_name : option jsstring;
  user_name : option jsstring
}.

(** What the Slack API answers. [None] stands for a rejected call. *)
Record api : Type := {
  app_start : bool;
  app_stop : bool;
  auth_test : option jsstring;
  users_info : jsstring -> option user_info;
  conversations_open : jsstring -> option (option jsstring);
  post_message : jsstring -> jsstring -> bool
}.

Definition set_connected (b : bool) (c : SlackChannel) : SlackChannel :=
  {| namespace := namespace c; name := name c; prefix := prefix c;
     channelPrefix := channelPrefix c; connected := b;
     userCache := userCache c; dmChannelCache := dmChannelCache c;
     botUserId := botUserId c |}.

Definition set_botUserId (u : option jsstring) (c : SlackChannel)
  : SlackChannel :=
  {| namespace := namespace c; name := name c; prefix := prefix c;
     channelPrefix := channelPrefix c; connected := connected c;
     userCache := userCache c; dmChannelCache := dmChannelCache c;
     botUserId := u |}.

Definition set_userCache (m : cache) (c : SlackChannel) : SlackChannel :=
  {| namespace := namespace c; name := name c; prefix := prefix c;
     channelPrefix := channelPrefix c; connected := connected c;
     userCache := m; dmChannelCache := dmChannelCache c;
     botUserId := botUserId c |}.

Definition set_dmChannelCache (m : cache) (c : SlackChannel) : SlackChannel :=
  {| namespace := namespace c; name := name c; prefix := prefix c;
     channelPrefix := channelPrefix c; connected := connected c;
     userCache := userCache c; dmChannelCache := m;
     botUserId := botUserId c |}.

(** The result of a method: the adapter afterwards, how the call ended,
    and the API requests it made, in order. *)
Definition ran := (SlackChannel * outcome * list api_call)%type.

Definition connect (w : api) (c : SlackChannel) : ran :=
  if app_start w then
    let c1 := match auth_test w with
              | Some u => set_botUserId (Some u) c
              | None => c
              end in
    (set_connected true c1, Returned, [AppStart; AuthTest])
  else (c, Raised, [AppStart]).

Definition disconnect (w : api) (c : SlackChannel) : ran :=
  (set_connected false c, Returned, [AppStop]).

(** [resolveChannelId]: the channel id, or [None] when it throws. *)
Definition resolveChannelId (w : api) (c : SlackChannel) (jid : jsstring)
  : SlackChannel * option jsstring * list api_call :=
  if startsWith (channelPrefix c) jid then
    (c, Some (slice (length (channelPrefix c)) jid), [])
  else
    let userId := slice (length (prefix c)) jid in
    match cache_get userId (dmChannelCache c) with
    | Some (x :: cached) => (c, Some (x :: cached), [])
    | _ =>
        match conversations_open w userId with
        | Some (Some (x :: dmChannelId)) =>
            (set_dmChannelCache
               (cache_set userId (x :: dmChannelId) (dmChannelCache c)) c,
             Some (x :: dmChannelId), [ConversationsOpen userId])
        | _ => (c, None, [ConversationsOpen userId])
        end
    end.

Definition sendMessage (w : api) (c : SlackChannel) (jid text : jsstring)
  : ran :=
  match resolveChannelId w c jid with
  | (c1, None, calls) => (c1, Raised, calls)
  | (c1, Some channelId, calls) =>
      if post_message w channelId text then
        (c1, Returned, calls ++ [PostMessage channelId text])
      else (c1, Raised, calls ++ [PostMessage channelId text])
  end.

(** [resolveUserName] *)
Definition resolveUserName (w : api) (c : SlackChannel) (userId : jsstring)
  : SlackChannel * jsstring * list api_call :=
  match cache_get userId (userCache c) with
  | Some (x :: cached) => (c, x :: cached, [])
  | _ =>
      match users_info w userId with
      | Some info =>
          let name :=
            or_else (display_name info)
              (or_else (real_name info) (or_else (user_name info) userId)) in
          (set_userCache (cache_set userId name (userCache c)) c, name,
           [UsersInfo userId])
      | None => (c, userId, [UsersInfo userId])
      end
  end.

(** [stripBotMention]. The pattern is built from the bot's user id, which
    Slack forms of letters and digits, so the id stands for itself in it. *)
Definition stripBotMention (c : SlackChannel) (text : jsstring) : jsstring :=
  match botUserId c with
  | Some (x :: u) =>
      trim (replace_all
              (Seq (JS.text (lit "<@" ++ x :: u ++ lit ">")) (Star true is_ws))
              [] text)
  | _ => text
  end.

(** A [message] event as the listener reads it. *)
Record message_event : Type := {
  bot_id : option jsstring;
  subtype : option jsstring;
  user : option jsstring;
  channel : jsstring;
  channel_type : jsstring;
  text : option jsstring;
  ts : jsstring
}.

(** The host's side of the options: the registered chats, and what
    [onNewContact] answers and leaves registered, when the callback is
    given. The listener reads the registered chats again only after a
    positive answer. *)
Record host : Type := {
  registeredGroups : groups;
  onNewContact :
    option (jsstring -> jsstring -> bool -> groups -> bool * groups)
}.

Definition truthy (s : option jsstring) : bool :=
  match s with Some (_ :: _) => true | _ => false end.

Section Listener.

(** [slackTsToIso]: the ISO form of a Slack timestamp, [None] when
    [toISOString] throws on it. *)
Variable slackTsToIso : jsstring -> option jsstring.

(** The listener [setupListeners] installs with [app.message]: the
    adapter and the registered chats afterwards, the callbacks invoked
    and the API requests made, in order. *)
Definition on_message_event (w : api) (h : host) (c : SlackChannel)
  (msg : message_event)
  : SlackChannel * groups * list callback * list api_call :=
  let unchanged := (c, registeredGroups h, [], []) in
  if truthy (bot_id msg) || truthy (subtype msg) then unchanged
  else
    match user msg with
    | Some (x :: u) =>
        let userId := x :: u in
        if match botUserId c with
           | Some b => eqb userId b
           | None => false
           end
        then unchanged
        else
          let channelId := channel msg in
          let body := or_else (text msg) [] in
          let isDm := eqb (channel_type msg) (lit "im") in
          let chatJid := if isDm then prefix c ++ userId
                         else channelPrefix c ++ channelId in
          let senderJid := prefix c ++ userId in
          let c1 := if isDm
                    then set_dmChannelCache
                           (cache_set userId channelId (dmChannelCache c)) c
                    else c in
          let '(c2, senderName, calls) := resolveUserName w c1 userId in
          match slackTsToIso (ts msg) with
          | None => (c2, registeredGroups h, [], calls)
          | Some timestamp =>
              let msgId := lit "slack_" ++ ts msg ++ lit "_" ++ userId in
              let cleanText := if isDm then body else stripBotMention c2 body in
              let meta :=
                OnChatMetadata chatJid timestamp
                  (if isDm then Some senderName else None)
                  (lit "slack") (negb isDm) in
              let g0 := registeredGroups h in
              let contact := if isDm then senderName else channelId in
              let '(seen, kept, asked) :=
                match registered g0 chatJid, onNewContact h with
                | false, Some ask =>
                    let '(answer, g1) := ask chatJid contact (negb isDm) g0 in
                    (if answer then g1 else g0, g1,
                     [OnNewContact chatJid contact (negb isDm)])
                | _, _ => (g0, g0, [])
                end in
              let delivered :=
                if registered seen chatJid then
                  [OnMessage chatJid
                     {| id := msgId; chat_jid := chatJid; sender := senderJid;
                        sender_name := senderName; content := cleanText;
                        timestamp := timestamp; is_from_me := false;
                        is_bot_message := false |}]
                else [] in
              (c2, kept, meta :: asked ++ delivered, calls)
          end
    | _ => unchanged
    end.

End Listener.

End Slack.

(* ================================================================== *)
(** * The Signal adapter ([SignalChannel]) *)
(* ================================================================== *)

Module Signal.
Import JS Types.

(** An outgoing send that waits in memory. *)
Record queued : Type := { q_jid : jsstring; q_text : jsstring }.

Record SignalChannel : Type := {
  rpcUrl : jsstring;
  account : jsstring;
  connected : bool;
  pollTimer : bool;
  outgoingQueue : list queued;
  flushing : bool;
  polling : bool;
  rpcId : nat
}.

(** [/\/+$/] *)
Definition TRAILING_SLASHES : regex := Seq (plus (exactly 47%N)) Eol.

(** The constructor. *)
Definition make (signalCliUrl signalAccount : jsstring) : SignalChannel :=
  {| rpcUrl := replace_first TRAILING_SLASHES [] signalCliUrl
               ++ lit "/api/v1/rpc";
     account := signalAccount;
     connected := false;
     pollTimer := false;
     outgoingQueue := [];
     flushing := false;
     polling := false;
     rpcId := 0 |}.

Definition isConnected (c : SignalChannel) : bool := connected c.

Definition ownsJid (c : SignalChannel) (jid : jsstring) : bool :=
  startsWith (lit "sig:") jid.

(** The JSON-RPC requests of the adapter, with their parameters. *)
Inductive rpc_call : Type :=
| Version
| Receive
| SendToGroup (groupId message : jsstring)
| SendToRecipient (recipient message : jsstring).

(** What [rpc] returns: [null] (an HTTP or JSON-RPC error, a failed
    fetch, no result), a falsy result, or a truthy one. *)
Inductive rpc_reply : Type := Null | Falsy | Value.

(** The daemon: what the request with a given id is answered. *)
Definition daemon := nat -> rpc_call -> rpc_reply.

Definition set_queue (q : list queued) (id : nat) (c : SignalChannel)
  : SignalChannel :=
  {| rpcUrl := rpcUrl c; account := account c; connected := connected c;
     pollTimer := pollTimer c; outgoingQueue := q; flushing := flushing c;
     polling := polling c; rpcId := id |}.

Definition set_connected (b timer : bool) (c : SignalChannel)
  : SignalChannel :=
  {| rpcUrl := rpcUrl c; account := account c; connected := b;
     pollTimer := timer; outgoingQueue := outgoingQueue c;
     flushing := flushing c; polling := polling c; rpcId := rpcId c |}.

(** [s.replace(pattern, '')] for a string pattern: the first occurrence
    goes. *)
Definition remove_first (pattern s : jsstring) : jsstring :=
  replace_first (JS.text pattern) [] s.

(** The request [sendViaRpc] makes. *)
Definition send_request (jid text : jsstring) : rpc_call :=
  if startsWith (lit "sig:group:") jid
  then SendToGroup (remove_first (lit "sig:group:") jid) text
  else SendToRecipient (remove_first (lit "sig:") jid) text.

(** [sendViaRpc] throws when the reply is [null]. *)
Definition sent_ok (r : rpc_reply) : bool :=
  match r with Null => false | _ => true end.

(** The result of a method: the adapter afterwards, how the call ended,
    and the requests made with their ids, in order. *)
Definition ran := (SignalChannel * outcome * list (nat * rpc_call))%type.

Definition sendMessage (d : daemon) (c : SignalChannel) (jid text : jsstring)
  : ran :=
  if negb (connected c) then
    (set_queue (outgoingQueue c ++ [{| q_jid := jid; q_text := text |}])
       (rpcId c) c,
     Returned, [])
  else
    let id := S (rpcId c) in
    let call := send_request jid text in
    if sent_ok (d id call) then
      (set_queue (outgoingQueue c) id c, Returned, [(id, call)])
    else
      (set_queue (outgoingQueue c ++ [{| q_jid := jid; q_text := text |}])
         id c,
       Returned, [(id, call)]).

(** The [while] loop of [flushOutgoingQueue]: each item is shifted off the
    queue before it is sent; a send that throws ends the loop. The result
    is the queue left, the last id used, the requests made, and whether
    a send threw. *)
Fixpoint drain (d : daemon) (id : nat) (q : list queued)
  : list queued * nat * list (nat * rpc_call) * bool :=
  match q with
  | [] => ([], id, [], false)
  | item :: q' =>
      let call := send_request (q_jid item) (q_text item) in
      if sent_ok (d (S id) call) then
        let '(rest, id', calls, threw) := drain d (S id) q' in
        (rest, id', (S id, call) :: calls, threw)
      else (q', S id, [(S id, call)], true)
  end.

Definition flushOutgoingQueue (d : daemon) (c : SignalChannel) : ran :=
  if flushing c || match outgoingQueue c with [] => true | _ => false end
  then (c, Returned, [])
  else
    let '(rest, id, calls, threw) := drain d (rpcId c) (outgoingQueue c) in
    (set_queue rest id c, if threw then Raised else Returned, calls).

(** [connect]. The flush it starts is taken to run to its end before
    anything else happens to the adapter; its failure is only logged. *)
Definition connect (d : daemon) (c : SignalChannel) : ran :=
  let id := S (rpcId c) in
  match d id Version with
  | Value =>
      let c1 := set_connected true (pollTimer c)
                  (set_queue (outgoingQueue c) id c) in
      let '(c2, _, calls) := flushOutgoingQueue d c1 in
      (set_connected true true c2, Returned, (id, Version) :: calls)
  | _ => (set_queue (outgoingQueue c) id c, Raised, [(id, Version)])
  end.

Definition disconnect (c : SignalChannel) : SignalChannel :=
  set_connected false false c.

(** ** Inbound *)

Record group_info : Type := { groupId : jsstring }.

Record data_message : Type := {
  dm_message : option jsstring;
  dm_timestamp : option Z;
  dm_groupInfo : option group_info
}.

Record sent_message : Type := {
  sm_message : option jsstring;
  sm_timestamp : option Z;
  sm_groupInfo : option group_info
}.

Record envelope : Type := {
  source : option jsstring;
  sourceName : option jsstring;
  sourceNumber : option jsstring;
  env_timestamp : option Z;
  dataMessage : option data_message;
  syncMessage : option (option sent_message)
}.

(** An entry of the [receive] result; [None]: it has no envelope. *)
Definition SignalReceiveEntry := option envelope.

(** The argument of [processInbound]. *)
Record inbound : Type := {
  in_source : jsstring;
  in_sourceName : option jsstring;
  in_message : jsstring;
  in_timestamp : Z;
  in_groupId : option jsstring;
  in_isFromMe : bool
}.

Definition truthy (s : option jsstring) : bool :=
  match s with Some (_ :: _) => true | _ => false end.

(** [a || b] on numbers. *)
Definition num_or (a : option Z) (b : Z) : Z :=
  match a with
  | Some n => if Z.eqb n 0 then b else n
  | None => b
  end.

Section Inbound.

(** [new Date(t).toISOString()], [None] when it throws; the decimal
    text of a number; and [Date.now()]. *)
Variable toISOString : Z -> option jsstring.
Variable numberToString : Z -> jsstring.
Variable now : Z.

(** [processInbound]: the callbacks invoked, or [None] when it throws. *)
Definition processInbound (c : SignalChannel) (g : groups) (msg : inbound)
  : option (list callback) :=
  let isGroup := truthy (in_groupId msg) in
  let chatJid := if isGroup
                 then lit "sig:group:" ++ or_else (in_groupId msg) []
                 else lit "sig:" ++ in_source msg in
  match toISOString (in_timestamp msg) with
  | None => None
  | Some timestamp =>
      let msgId := lit "sig_" ++ numberToString (in_timestamp msg)
                   ++ lit "_" ++ in_source msg in
      let senderName := or_else (in_sourceName msg) (in_source msg) in
      let isFromMe := in_isFromMe msg || eqb (in_source msg) (account c) in
      let meta := OnChatMetadata chatJid timestamp
                    (if isGroup then None else Some senderName)
                    (lit "signal") isGroup in
      Some (meta ::
            if registered g chatJid then
              [OnMessage chatJid
                 {| id := msgId; chat_jid := chatJid;
                    sender := in_source msg; sender_name := senderName;
                    content := in_message msg; timestamp := timestamp;
                    is_from_me := isFromMe; is_bot_message := isFromMe |}]
            else [])
  end.

(** The direct data message of an envelope, as [handleEntry] hands it to
    [processInbound]. *)
Definition data_inbound (e : envelope) : option inbound :=
  match dataMessage e with
  | Some dm =>
      match dm_message dm with
      | Some (x :: m) =>
          Some {| in_source := or_else (source e)
                                 (or_else (sourceNumber e) []);
                  in_sourceName := sourceName e;
                  in_message := x :: m;
                  in_timestamp := num_or (dm_timestamp dm)
                                    (num_or (env_timestamp e) now);
                  in_groupId := option_map groupId (dm_groupInfo dm);
                  in_isFromMe := false |}
      | _ => None
      end
  | None => None
  end.

(** The sync message of an envelope (sent from another device of the
    account), as [handleEntry] hands it to [processInbound]. *)
Definition sync_inbound (c : SignalChannel) (e : envelope) : option inbound :=
  match syncMessage e with
  | Some (Some sent) =>
      match sm_message sent with
      | Some (x :: m) =>
          Some {| in_source := account c;
                  in_sourceName := None;
                  in_message := x :: m;
                  in_timestamp := num_or (sm_timestamp sent)
                                    (num_or (env_timestamp e) now);
                  in_groupId := option_map groupId (sm_groupInfo sent);
                  in_isFromMe := true |}
      | _ => None
      end
  | _ => None
  end.

(** [handleEntry]: the callbacks invoked, and whether it threw. *)
Definition handleEntry (c : SignalChannel) (g : groups)
  (entry : SignalReceiveEntry) : list callback * outcome :=
  match entry with
  | None => ([], Returned)
  | Some e =>
      let first :=
        match data_inbound e with
        | Some msg => processInbound c g msg
        | None => Some []
        end in
      match first with
      | None => ([], Raised)
      | Some cbs =>
          match sync_inbound c e with
          | Some msg =>
              match processInbound c g msg with
              | Some cbs' => (cbs ++ cbs', Returned)
              | None => (cbs, Raised)
              end
          | None => (cbs, Returned)
          end
      end
  end.

End Inbound.

(** The chat a Signal message belongs to. *)
Definition chat_of (msg : inbound) : jsstring :=
  if truthy (in_groupId msg)
  then lit "sig:group:" ++ or_else (in_groupId msg) []
  else lit "sig:" ++ in_source msg.

End Signal.

(* ================================================================== *)
(** * The channels as one type *)
(* ================================================================== *)

Module Channel.
Import JS Types.

(** The adapters the host registers. *)
Inductive channel : Type :=
| SlackOf (c : Slack.SlackChannel)
| SignalOf (c : Signal.SignalChannel).

(** The transports behind them. *)
Record transport : Type := {
  slack_api : Slack.api;
  signal_daemon : Signal.daemon
}.

(** A request as the transport sees it. *)
Inductive wire : Type :=
| ToSlack (call : Slack.api_call)
| ToSignal (id : nat) (call : Signal.rpc_call).

(** A request that carries a message out. *)
Definition is_send (x : wire) : bool :=
  match x with
  | ToSlack (Slack.PostMessage _ _) => true
  | ToSignal _ (Signal.SendToGroup _ _) => true
  | ToSignal _ (Signal.SendToRecipient _ _) => true
  | _ => false
  end.

Definition isConnected (ch : channel) : bool :=
  match ch with
  | SlackOf c => Slack.isConnected c
  | SignalOf c => Signal.isConnected c
  end.

Definition ran := (channel * outcome * list wire)%type.

Definition of_slack (r : Slack.ran) : ran :=
  let '(c, o, calls) := r in (SlackOf c, o, map ToSlack calls).

Definition of_signal (r : Signal.ran) : ran :=
  let '(c, o, calls) := r in
  (SignalOf c, o, map (fun x => ToSignal (fst x) (snd x)) calls).

Definition sendMessage (t : transport) (ch : channel) (jid text : jsstring)
  : ran :=
  match ch with
  | SlackOf c => of_slack (Slack.sendMessage (slack_api t) c jid text)
  | SignalOf c => of_signal (Signal.sendMessage (signal_daemon t) c jid text)
  end.

Definition connect (t : transport) (ch : channel) : ran :=
  match ch with
  | SlackOf c => of_slack (Slack.connect (slack_api t) c)
  | SignalOf c => of_signal (Signal.connect (signal_daemon t) c)
  end.

(** The sends a channel holds in memory. The Slack adapter has no queue. *)
Definition pending (ch : channel) : list (jsstring * jsstring) :=
  match ch with
  | SlackOf _ => []
  | SignalOf c =>
      map (fun q => (Signal.q_jid q, Signal.q_text q)) (Signal.outgoingQueue c)
  end.

Definition after (r : ran) : channel := fst (fst r).
Definition ended (r : ran) : outcome := snd (fst r).
Definition requests (r : ran) : list wire := snd r.

(** The messages a run of requests carries out, in order. *)
Definition sends (r : ran) : list wire := filter is_send (requests r).

(** The request that carries a queued item. *)
Definition request_of (item : Signal.queued) : Signal.rpc_call :=
  Signal.send_request (Signal.q_jid item) (Signal.q_text item).

(** Requests with consecutive ids, as the daemon sees them. *)
Fixpoint numbered (id : nat) (calls : list Signal.rpc_call) : list wire :=
  match calls with
  | [] => []
  | c :: cs => ToSignal id c :: numbered (S id) cs
  end.

End Channel.

(* ================================================================== *)
(** * The mail-to-bookmark intake ([src/email-intake.ts]) *)
(* ================================================================== *)

Module EmailIntake.
Import JS.

Definition MIN_URL_LENGTH : nat := 15.

(** [REJECT_PATTERNS], each with the [i] flag. *)
Definition REJECT_PATTERNS : list regex :=
  [ text_ci (lit "teams.microsoft.com");
    text_ci (lit "aka.ms/");
    text_ci (lit "google.com/calendar");
    text_ci (lit "dialin.teams");
    text_ci (lit "unsubscribe");
    Seq (text_ci (lit "manage"))
      (Seq (Star true dot) (text_ci (lit "preferences")));
    text_ci (lit "tracking");
    text_ci (lit "click.");
    text_ci (lit "open.");
    Seq Bol (text_ci (lit "tel:"));
    Seq Bol (text_ci (lit "mailto:")) ].

(** The negated class of the URL pattern: anything but white space and
    the units [<], [>], the double quote (34), ['], [)], []], [}], [,]
    and [;]. *)
Definition url_unit (c : unit16) : bool :=
  negb (is_ws c || one_of (lit "<>')]},;" ++ [34%N]) c).

(** The pattern [urlRegex]: [https?:\/\/] and one or more units of the
    class above, with the flags [g] and [i]. *)
Definition urlRegex : regex :=
  Seq (text_ci (lit "http"))
    (Seq (opt (Char (is_ci 115%N)))
       (Seq (text_ci (lit "://")) (plus url_unit))).

(** [/[.)>,;:!?]+$/] *)
Definition TRAILING_PUNCTUATION : regex :=
  Seq (plus (one_of (lit ".)>,;:!?"))) Eol.

(** The body of the loop of [extractUrls] over the matches, with the set
    [seen]; the result is what is pushed on [results], in order. *)
Fixpoint collect (matches : list jsstring) (seen : list jsstring)
  : list jsstring :=
  match matches with
  | [] => []
  | m :: rest =>
      let url := replace_first TRAILING_PUNCTUATION [] m in
      if length url <? MIN_URL_LENGTH then collect rest seen
      else if existsb (fun p => test p url) REJECT_PATTERNS
      then collect rest seen
      else if existsb (eqb url) seen then collect rest seen
      else url :: collect rest (url :: seen)
  end.

Definition extractUrls (text : jsstring) : list jsstring :=
  collect (match_all urlRegex text) [].

Record GogMessage : Type := {
  id : jsstring;
  threadId : jsstring;
  subject : option jsstring
}.

Record part : Type := {
  mimeType : option jsstring;
  part_data : option jsstring
}.

(** A message as [gmail get] returns it; [payload_body_data] is
    [payload?.body?.data] and [payload_parts] is [payload?.parts]. *)
Record GogMessageDetail : Type := {
  body : option jsstring;
  snippet : option jsstring;
  payload_body_data : option jsstring;
  payload_parts : option (list part)
}.

Definition truthy (s : option jsstring) : bool :=
  match s with Some (_ :: _) => true | _ => false end.

Definition text_of (s : option jsstring) : jsstring :=
  match s with Some t => t | None => [] end.

(** What the relay does with an intake request: the fetch fails or the
    answer is not JSON; the answer is the JSON value [null], on which
    reading [result.error] throws; or another JSON answer arrives, with
    or without a truthy [error] field. *)
Inductive relay_reply : Type :=
| Unreachable
| AnsweredNull
| Answered (has_error : bool).

(** [bookmarkViaRelay]: a JSON answer other than [null] counts, whatever
    it says; what is thrown inside the [try] gives [false]. *)
Definition bookmarkViaRelay (r : relay_reply) : bool :=
  match r with
  | Answered _ => true
  | AnsweredNull => false
  | Unreachable => false
  end.

(** The mailbox and the relay, as one poll meets them. Messages are
    numbered by their place in the listing, URLs by their place in the
    message: [fetched i] is what [gmail get] gives for message [i] ([None]:
    the call or the parse fails), [relayed i j] is the relay's reply to
    the [j]-th URL of message [i], [modified i] tells whether
    [gmail thread modify] succeeds for message [i]. *)
Record world : Type := {
  listed : option (list GogMessage);
  fetched : nat -> option GogMessageDetail;
  relayed : nat -> nat -> relay_reply;
  modified : nat -> bool
}.

(** What the poll asks of the mailbox and the relay. *)
Inductive action : Type :=
| GmailList
| GmailGet (messageId : jsstring)
| RelayIntake (url : jsstring)
| ThreadModify (thread : jsstring).

Definition is_modify (a : action) : bool :=
  match a with ThreadModify _ => true | _ => false end.

(** The inner loop: relay the URLs in order and stop at the first call
    that fails. The result is the requests made and [relayFailed]. *)
Fixpoint relay_urls (reply : nat -> relay_reply) (j : nat)
  (urls : list jsstring) : list action * bool :=
  match urls with
  | [] => ([], false)
  | url :: rest =>
      if bookmarkViaRelay (reply j) then
        let '(acts, failed) := relay_urls reply (S j) rest in
        (RelayIntake url :: acts, failed)
      else ([RelayIntake url], true)
  end.

Section Poll.

(** [decodeBase64Url], which relies on [Buffer]. *)
Variable decodeBase64Url : jsstring -> jsstring.

Definition part_of_type (mime : jsstring) (p : part) : bool :=
  match mimeType p with
  | Some m => eqb m mime && truthy (part_data p)
  | None => false
  end.

Definition extractBodyText (detail : GogMessageDetail) : jsstring :=
  if truthy (body detail) then text_of (body detail)
  else if truthy (payload_body_data detail)
  then decodeBase64Url (text_of (payload_body_data detail))
  else
    let parts := match payload_parts detail with
                 | Some ps => ps
                 | None => []
                 end in
    match find (part_of_type (lit "text/plain")) parts with
    | Some p => decodeBase64Url (text_of (part_data p))
    | None =>
        match find (part_of_type (lit "text/html")) parts with
        | Some p => decodeBase64Url (text_of (part_data p))
        | None => text_of (snippet detail)
        end
    end.

(** The URLs of message [i], when it can be fetched. *)
Definition urls_of (w : world) (i : nat) : option (list jsstring) :=
  match fetched w i with
  | Some detail => Some (extractUrls (extractBodyText detail))
  | None => None
  end.

(** One round of the outer loop, for message [i] of the listing. A
    failure of [gmail thread modify] is only logged. *)
Definition process_message (w : world) (i : nat) (msg : GogMessage)
  : list action :=
  match urls_of w i with
  | None => [GmailGet (id msg)]
  | Some urls =>
      let '(acts, relayFailed) := relay_urls (relayed w i) 0 urls in
      if relayFailed then GmailGet (id msg) :: acts
      else GmailGet (id msg) :: acts ++ [ThreadModify (threadId msg)]
  end.

Fixpoint process_from (w : world) (i : nat) (msgs : list GogMessage)
  : list action :=
  match msgs with
  | [] => []
  | msg :: rest => process_message w i msg ++ process_from w (S i) rest
  end.

Definition pollEmailIntake (w : world) : list action :=
  match listed w with
  | None => [GmailList]
  | Some [] => [GmailList]
  | Some msgs => GmailList :: process_from w 0 msgs
  end.

(** The poll asks for the processed label on message [i]. *)
Definition labels (w : world) (i : nat) (msg : GogMessage) : bool :=
  existsb is_modify (process_message w i msg).

(** The URLs of message [i] the poll hands to the relay, in order. *)
Definition relays (w : world) (i : nat) (msg : GogMessage) : list jsstring :=
  flat_map (fun a => match a with RelayIntake u => [u] | _ => [] end)
    (process_message w i msg).

End Poll.

End EmailIntake.


(* ================================================================== *)
(** * Concrete worlds and inputs *)
(* ================================================================== *)

Module VoiceScenarios.
Import JS VoiceApi.

(** A world in which a run goes through. *)
Definition calm : run_world :=
  {| snapshots_written := true; start_failure := None; events := [] |}.

(** A POST of [/api/run] with a well-formed body and no Authorization
    header. *)
Definition anonymous_run : request :=
  {| method := lit "POST"; target := TargetParsed (lit "/api/run");
     authorization := None;
     body := BodyParsed {| input := Some (lit "hello"); timeout := None |} |}.


(** Outputs in which the pattern does not take out all that stands
    between markers: the removal brings two halves of an opening marker
    together, and a wrapped substring stands inside another. *)
Definition spliced_note : ContainerOutput :=
  {| status := success;
     result :=
       RString (lit "<inter<internal>x</internal>nal>secret</internal>");
     newSessionId := None;
     output_error := None |}.

Definition nested_note : ContainerOutput :=
  {| status := success;
     result :=
       RString (lit "<internal>a<internal>b</internal>SECRET</internal>");
     newSessionId := None;
     output_error := None |}.

(** The streamed output of scenario S6. *)
Definition S6_output : ContainerOutput :=
  {| status := success;
     result := RString (lit "Here is the answer.<internal>debug=42</internal>");
     newSessionId := None;
     output_error := None |}.

(** An output with two wrapped substrings and white space around. *)
Definition two_notes : ContainerOutput :=
  {| status := success;
     result :=
       RString (lit "  <internal>plan</internal>Done.<internal>x</internal> ");
     newSessionId := Some (lit "s1");
     output_error := None |}.

(** An output that is nothing but a wrapped substring. *)
Definition only_note : ContainerOutput :=
  {| status := success;
     result := RString (lit "<internal>thinking</internal>");
     newSessionId := None;
     output_error := None |}.

End VoiceScenarios.

Module MailScenarios.
Import JS EmailIntake.

(** The mail body of scenario S3. *)
Definition S3_body : jsstring :=
  lit "See https://example.com/a, and https://teams.microsoft.com/meeting/xyz. Also http://x".

(** Two messages and a relay that fails on the second URL of the first. *)
Definition first_mail : GogMessage :=
  {| id := lit "m0"; threadId := lit "t0"; subject := None |}.

Definition second_mail : GogMessage :=
  {| id := lit "m1"; threadId := lit "t1"; subject := None |}.

Definition mail_with (text : jsstring) : GogMessageDetail :=
  {| body := Some text; snippet := None; payload_body_data := None;
     payload_parts := None |}.

Definition outage : world :=
  {| listed := Some [first_mail; second_mail];
     fetched := fun i =>
       match i with
       | 0 => Some (mail_with
                (lit "read https://example.com/first and https://example.org/second"))
       | _ => Some (mail_with (lit "read https://example.net/third"))
       end;
     relayed := fun i j =>
       match i, j with
       | 0, 1 => Unreachable
       | _, _ => Answered false
       end;
     modified := fun _ => true |}.

(** A second message of the thread of the first, and a batch of the two
    in which the relay fails on the second URL of the first message. *)
Definition reply_mail : GogMessage :=
  {| id := lit "m2"; threadId := lit "t0"; subject := None |}.

Definition shared_thread : world :=
  {| listed := Some [first_mail; reply_mail];
     fetched := fetched outage;
     relayed := relayed outage;
     modified := fun _ => true |}.

(** A relay that answers every request with an error. *)
Definition relay_errors : world :=
  {| listed := Some [first_mail];
     fetched := fetched outage;
     relayed := fun _ _ => Answered true;
     modified := fun _ => true |}.

End MailScenarios.

Module ChannelScenarios.
Import JS Types Channel.

(** A Signal adapter for the account [+15550001], the chat of that number
    registered, and a sync message: a note the account's owner sent from
    another device. *)
Definition own_account : Signal.SignalChannel :=
  Signal.make (lit "http://127.0.0.1:8080") (lit "+15550001").

Definition own_chat : groups := [lit "sig:+15550001"].

Definition sync_note : Signal.envelope :=
  {| Signal.source := Some (lit "+15550001");
     Signal.sourceName := None;
     Signal.sourceNumber := None;
     Signal.env_timestamp := Some 1000%Z;
     Signal.dataMessage := None;
     Signal.syncMessage :=
       Some (Some {| Signal.sm_message := Some (lit "hello");
                     Signal.sm_timestamp := Some 1000%Z;
                     Signal.sm_groupInfo := None |}) |}.

(** The instant 1000 ms in ISO form, and numbers in decimal, as far as
    the example needs them. *)
Definition iso_1000 (t : Z) : option jsstring :=
  Some (lit "1970-01-01T00:00:01.000Z").

Definition decimal_1000 (t : Z) : jsstring := lit "1000".

(** A stand-in for [slackTsToIso]. *)
Definition iso_of_ts (ts : jsstring) : option jsstring :=
  Some (lit "2023-11-14T22:13:20.000Z").

(** A Slack workspace in which the bot is the user [U0BOT]. *)
Definition workspace : Slack.api :=
  {| Slack.app_start := true;
     Slack.app_stop := true;
     Slack.auth_test := Some (lit "U0BOT");
     Slack.users_info := fun _ => None;
     Slack.conversations_open := fun _ => None;
     Slack.post_message := fun _ _ => true |}.

Definition connected_bot : Slack.SlackChannel :=
  fst (fst (Slack.connect workspace (Slack.make None))).

Definition own_post : Slack.message_event :=
  {| Slack.bot_id := None; Slack.subtype := None;
     Slack.user := Some (lit "U0BOT");
     Slack.channel := lit "C1"; Slack.channel_type := lit "channel";
     Slack.text := Some (lit "done"); Slack.ts := lit "1700000000.000100" |}.

Definition one_channel : Slack.host :=
  {| Slack.registeredGroups := [lit "slack:channel:C1"];
     Slack.onNewContact := None |}.

(** A Slack workspace and a Signal daemon that answer every request. *)
Definition steady_slack : Slack.api :=
  {| Slack.app_start := true;
     Slack.app_stop := true;
     Slack.auth_test := Some (lit "U0BOT");
     Slack.users_info := fun _ => None;
     Slack.conversations_open := fun _ => Some (Some (lit "D1"));
     Slack.post_message := fun _ _ => true |}.

Definition steady : transport :=
  {| slack_api := steady_slack;
     signal_daemon := fun _ _ => Signal.Value |}.

(** A daemon that answers the version request and fails the request
    after it. *)
Definition flaky : transport :=
  {| slack_api := steady_slack;
     signal_daemon := fun id _ =>
       match id with 2 => Signal.Null | _ => Signal.Value end |}.

Definition fresh_slack : channel := SlackOf (Slack.make None).

Definition fresh_signal : Signal.SignalChannel :=
  Signal.make (lit "http://127.0.0.1:8080") (lit "+15550001").

(** The Signal channel after three sends made while disconnected. *)
Definition three_queued (t : transport) : channel :=
  after (sendMessage t
    (after (sendMessage t
       (after (sendMessage t (SignalOf fresh_signal)
                 (lit "sig:+15550002") (lit "A")))
       (lit "sig:+15550002") (lit "B")))
    (lit "sig:+15550002") (lit "C")).

(** A workspace in which [chat.postMessage] is rejected. *)
Definition slack_outage : transport :=
  {| slack_api :=
       {| Slack.app_start := true;
          Slack.app_stop := true;
          Slack.auth_test := Some (lit "U0BOT");
          Slack.users_info := fun _ => None;
          Slack.conversations_open := fun _ => None;
          Slack.post_message := fun _ _ => false |};
     signal_daemon := fun _ _ => Signal.Null |}.

Definition connected_slack : channel :=
  after (connect slack_outage fresh_slack).

End ChannelScenarios.

(* ================================================================== *)
(** * What a pattern matches *)
(* ================================================================== *)

Module RegexMeaning.
Import JS.

(** What a pattern matches: [matched r i m rest] says that [m], found at
    index [i] and followed by [rest], is a match of [r]. *)
Fixpoint matched (r : regex) (i : nat) (m rest : jsstring) : Prop :=
  match r with
  | Empty => m = []
  | Char p => exists c, m = [c] /\ p c = true
  | Seq a b =>
      exists m1 m2, m = m1 ++ m2 /\ matched a i m1 (m2 ++ rest)
                    /\ matched b (i + length m1) m2 rest
  | Alt a b => matched a i m rest \/ matched b i m rest
  | Star _ p => forallb p m = true
  | Bol => m = [] /\ i = 0
  | Eol => m = [] /\ rest = []
  end.

End RegexMeaning.

(* ================================================================== *)
(** * The shape of a URL, and the requests of a poll *)
(* ================================================================== *)

Module UrlSpec.
Import JS EmailIntake.

(** The class of [TRAILING_PUNCTUATION]. *)
Definition punctuation : unit16 -> bool := one_of (lit ".)>,;:!?").

(** The text starts with [http://] or [https://], in either case of the
    letters. *)
Definition has_scheme (u : jsstring) : bool :=
  startsWith (lit "HTTP://") (map ascii_upper u)
  || startsWith (lit "HTTPS://") (map ascii_upper u).

(** [s] starts with [w], in either case of the letters. *)
Definition startsWith_ci (w s : jsstring) : bool :=
  startsWith (map ascii_upper w) (map ascii_upper s).

(** The ids the poll asks [gmail get] for, in order. *)
Definition gets (acts : list action) : list jsstring :=
  flat_map (fun a => match a with GmailGet i => [i] | _ => [] end) acts.

End UrlSpec.

(* ================================================================== *)
(** * Chats, replies and sequences of calls *)
(* ================================================================== *)

Module Routing.
Import JS Types.

(** The chat a callback is invoked for. *)
Definition chat_of_callback (c : callback) : jsstring :=
  match c with
  | OnChatMetadata chatJid _ _ _ _ => chatJid
  | OnNewContact chatJid _ _ => chatJid
  | OnMessage chatJid _ => chatJid
  end.

(** The prefixes of a Slack adapter are the ones its constructor set
    for its namespace; no method changes them. *)
Definition configured (c : Slack.SlackChannel) : Prop :=
  Slack.name c = Slack.name (Slack.make (Slack.namespace c)) /\
  Slack.prefix c = Slack.prefix (Slack.make (Slack.namespace c)) /\
  Slack.channelPrefix c = Slack.channelPrefix (Slack.make (Slack.namespace c)).

(** The chat a Slack event belongs to. *)
Definition slack_chat (c : Slack.SlackChannel) (msg : Slack.message_event)
  (userId : jsstring) : jsstring :=
  if eqb (Slack.channel_type msg) (lit "im")
  then Slack.prefix c ++ userId
  else Slack.channelPrefix c ++ Slack.channel msg.

(** What is done to a Signal adapter, one call after the other. *)
Inductive signal_op : Type :=
| DoSend (jid text : jsstring)
| DoConnect
| DoFlush
| DoDisconnect.

Definition signal_step (d : Signal.daemon) (c : Signal.SignalChannel)
  (o : signal_op) : Signal.SignalChannel * list (nat * Signal.rpc_call) :=
  match o with
  | DoSend jid text =>
      let '(c', _, calls) := Signal.sendMessage d c jid text in (c', calls)
  | DoConnect => let '(c', _, calls) := Signal.connect d c in (c', calls)
  | DoFlush =>
      let '(c', _, calls) := Signal.flushOutgoingQueue d c in (c', calls)
  | DoDisconnect => (Signal.disconnect c, [])
  end.

Fixpoint signal_run (d : Signal.daemon) (c : Signal.SignalChannel)
  (ops : list signal_op) : Signal.SignalChannel * list (nat * Signal.rpc_call) :=
  match ops with
  | [] => (c, [])
  | o :: rest =>
      let '(c1, calls1) := signal_step d c o in
      let '(c2, calls2) := signal_run d c1 rest in
      (c2, calls1 ++ calls2)
  end.

End Routing.

(* ================================================================== *)
(** * Runs of the voice endpoint and request bodies *)
(* ================================================================== *)

Module VoiceRuns.
Import JS VoiceApi.

(** The session ids the streamed outputs announce, in order. *)
Definition session_ids (evs : list agent_event) : list jsstring :=
  flat_map (fun e => match e with
                     | Streamed o =>
                         match newSessionId o with
                         | Some (c :: id) => [c :: id]
                         | _ => []
                         end
                     | Rejected _ => []
                     end) evs.

(** An event that leaves the wait as it is: a streamed output that is not
    an error and has no result, or none that is visible. *)
Definition quiet (e : agent_event) : bool :=
  match e with
  | Streamed o =>
      match status o with
      | error => false
      | success =>
          match raw_text (result o) with
          | Some raw =>
              match visible_text raw with [] => true | _ => false end
          | None => true
          end
      end
  | Rejected _ => false
  end.

(** The state of the callback when the wait ends. *)
Definition waited (evs : list agent_event) (session : option jsstring)
  : run_state :=
  on_timer (fold_left (fun st e => on_event e st) evs (initial session)).

(** While the wait is open no result has been kept. *)
Definition open (st : run_state) : Prop :=
  resolved st = false /\ firstResult st = None.

(** A world with the given events. *)
Definition with_events (w : run_world) (evs : list agent_event) : run_world :=
  {| snapshots_written := snapshots_written w;
     start_failure := start_failure w;
     events := evs |}.

(** ** [readBody] *)

Definition MAX_BODY : N := 1024 * 1024.

(** What the request stream emits. *)
Inductive stream_event : Type :=
| OnData (chunk : list N)
| OnEnd
| OnError.

(** How the promise of [readBody] is settled; [Pending]: it is not. *)
Inductive read_result : Type :=
| Body (text : jsstring)
| TooLarge
| StreamError
| Pending.

Section ReadBody.

(** [Buffer.toString('utf-8')] *)
Variable utf8 : list N -> jsstring.

(** The listeners of [readBody], by the events of the stream in order:
    the chunks pushed so far and their size. The first call of [resolve]
    or [reject] settles the promise. *)
Fixpoint read_from (chunks : list (list N)) (size : N)
  (evs : list stream_event) : read_result :=
  match evs with
  | [] => Pending
  | OnData chunk :: evs' =>
      let size' := (size + N.of_nat (length chunk))%N in
      if (MAX_BODY <? size')%N then TooLarge
      else read_from (chunks ++ [chunk]) size' evs'
  | OnEnd :: _ => Body (utf8 (concat chunks))
  | OnError :: _ => StreamError
  end.

Definition readBody (evs : list stream_event) : read_result :=
  read_from [] 0 evs.

End ReadBody.

End VoiceRuns.

(* ================================================================== *)
(** * Mentions of the bot *)
(* ================================================================== *)

Module MentionSpec.
Import JS.

(** The text of a mention of the user [u], as Slack writes it. *)
Definition mention (u : jsstring) : jsstring := lit "<@" ++ u ++ lit ">".

(** The text holds no [<]. *)
Definition no_angle (s : jsstring) : bool :=
  forallb (fun c => negb (N.eqb c 60)) s.

End MentionSpec.

(* ================================================================== *)
(** * The batches of the meeting-prep script *)
(* ================================================================== *)

Module MeetingPrep.

(** The batching of the [meeting-prep] script: the loop
    [for i in range(0, len(meetings), BATCH_SIZE)] with the slice
    [meetings[i:i+BATCH_SIZE]]. *)

Definition BATCH_SIZE : nat := 4.

(** Python's [range(0, stop, step)] for a positive step. *)
Definition range0 (stop step : nat) : list nat :=
  map (fun k => k * step) (seq 0 ((stop + step - 1) / step)).

(** Python's [l[i:j]] for [0 <= i <= j]. *)
Definition py_slice (A : Type) (i j : nat) (l : list A) : list A :=
  firstn (j - i) (skipn i l).

Definition batches (A : Type) (meetings : list A) : list (list A) :=
  map (fun i => py_slice i (i + BATCH_SIZE) meetings)
    (range0 (length meetings) BATCH_SIZE).

(** What the script prints for the loop that calls the sprite: one line
    per batch, or nothing, with exit status 1, when there is no
    meeting. *)
Definition batch_lines (A : Type) (meetings : list A)
  : option (list (list A)) :=
  match meetings with
  | [] => None
  | _ => Some (batches meetings)
  end.

End MeetingPrep.

(* ================================================================== *)
(** * More worlds and inputs *)
(* ================================================================== *)

Module MoreScenarios.
Import JS Types Channel VoiceApi VoiceScenarios ChannelScenarios.

(** A direct message of the user [U1] to the bot, in the conversation
    [D1], and a host that has the chat of that user registered. *)
Definition direct_post : Slack.message_event :=
  {| Slack.bot_id := None; Slack.subtype := None;
     Slack.user := Some (lit "U1");
     Slack.channel := lit "D1"; Slack.channel_type := lit "im";
     Slack.text := Some (lit "hi"); Slack.ts := lit "1700000000.000200" |}.

Definition one_contact : Slack.host :=
  {| Slack.registeredGroups := [lit "slack:U1"];
     Slack.onNewContact := None |}.

(** A Signal message of the account's own number, outside any group. *)
Definition direct_note : Signal.inbound :=
  {| Signal.in_source := lit "+15550001";
     Signal.in_sourceName := None;
     Signal.in_message := lit "hello";
     Signal.in_timestamp := 1000%Z;
     Signal.in_groupId := None;
     Signal.in_isFromMe := false |}.

(** The messages the adapters hand on for the two. *)
Definition direct_post_delivered : NewMessage :=
  {| id := lit "slack_1700000000.000200_U1";
     chat_jid := lit "slack:U1"; sender := lit "slack:U1";
     sender_name := lit "U1"; content := lit "hi";
     timestamp := lit "2023-11-14T22:13:20.000Z";
     is_from_me := false; is_bot_message := false |}.

Definition direct_note_delivered : NewMessage :=
  {| id := lit "sig_1000_+15550001";
     chat_jid := lit "sig:+15550001";
     sender := lit "+15550001"; sender_name := lit "+15550001";
     content := lit "hello";
     timestamp := lit "1970-01-01T00:00:01.000Z";
     is_from_me := true; is_bot_message := true |}.

(** A Signal adapter with three sends waiting. *)
Definition backlog : Signal.SignalChannel :=
  Signal.set_queue
    [ {| Signal.q_jid := lit "sig:+15550002"; Signal.q_text := lit "A" |};
      {| Signal.q_jid := lit "sig:+15550002"; Signal.q_text := lit "B" |};
      {| Signal.q_jid := lit "sig:+15550002"; Signal.q_text := lit "C" |} ]
    0 fresh_signal.

(** A run request with an input and no timeout. *)
Definition hello : RunRequestBody :=
  {| input := Some (lit "hello"); timeout := None |}.

(** An agent that first streams a note for itself, then an answer, and
    then exits. *)
Definition note_then_answer : list agent_event :=
  [Streamed only_note; Streamed S6_output; Rejected (lit "exit 137")].

End MoreScenarios.

(* ================================================================== *)
(** * Facts about strings *)
(* ================================================================== *)

Module JSFacts.
Import JS.

(** [eqb] decides equality of strings. *)
Lemma eqb_eq (a b : jsstring) : eqb a b = true <-> a = b.
Proof.
  unfold eqb. destruct (list_eq_dec N.eq_dec a b); split; congruence.
Qed.

Lemma eqb_neq (a b : jsstring) : eqb a b = false <-> a <> b.
Proof.
  unfold eqb. destruct (list_eq_dec N.eq_dec a b); split; congruence.
Qed.

Lemma eqb_refl (a : jsstring) : eqb a a = true.
Proof. now apply eqb_eq. Qed.

(** A string starts with [p] exactly when it is [p] followed by more. *)
Lemma startsWith_app (p t : jsstring) : startsWith p (p ++ t) = true.
Proof.
  induction p as [|a p IH]; simpl; [reflexivity|].
  now rewrite N.eqb_refl, IH.
Qed.

Lemma startsWith_split (p s : jsstring) :
  startsWith p s = true -> s = p ++ skipn (length p) s.
Proof.
  revert s; induction p as [|a p IH]; intros s H; simpl in *.
  - reflexivity.
  - destruct s as [|b s]; [discriminate|].
    apply andb_true_iff in H as [Hab Hps].
    apply N.eqb_eq in Hab; subst b.
    simpl. f_equal. now apply IH.
Qed.

Lemma startsWith_iff (p s : jsstring) :
  startsWith p s = true <-> exists t, s = p ++ t.
Proof.
  split.
  - intros H. eexists. now apply startsWith_split.
  - intros [t ->]. apply startsWith_app.
Qed.

Lemma startsWith_app_assoc (p q s : jsstring) :
  startsWith (p ++ q) s = true ->
  startsWith p s = true /\ startsWith q (skipn (length p) s) = true.
Proof.
  intros H. apply startsWith_split in H.
  rewrite length_app in H. rewrite <- app_assoc in H.
  split.
  - rewrite H. apply startsWith_app.
  - rewrite H at 1. rewrite skipn_app, skipn_all, Nat.sub_diag. simpl.
    apply startsWith_app.
Qed.

End JSFacts.

(* ================================================================== *)
(** * The voice endpoint: what is stripped from a result *)
(* ================================================================== *)

Module InternalFacts.
Import JS JSFacts VoiceApi VoiceScenarios.

(** ** The pattern, step by step *)

(** A literal matches where the input starts with it. *)
Lemma rmatch_text (w : jsstring) (k : cont) :
  forall i s,
    rmatch (text w) i s k =
    if startsWith w s then k (i + length w) (skipn (length w) s) else None.
Proof.
  induction w as [|a w IH]; intros i s; simpl.
  - now rewrite Nat.add_0_r.
  - destruct s as [|c s]; [reflexivity|].
    unfold exactly. rewrite N.eqb_sym.
    destruct (N.eqb a c); simpl; [|reflexivity].
    rewrite IH. now rewrite Nat.add_succ_r.
Qed.

(** The lazy repetition before the closing marker stops at the nearest
    closing marker. *)
Lemma star_lazy_close (k0 : cont) :
  (forall i s, k0 i s = Some s) ->
  forall s i,
    star_lazy any (fun i' s' => rmatch (text internal_close) i' s' k0) i s =
    match indexOf internal_close s with
    | Some j => Some (skipn (j + 11) s)
    | None => None
    end.
Proof.
  intros Hk s. induction s as [|c s IH]; intros i.
  - reflexivity.
  - cbn [star_lazy indexOf]. rewrite rmatch_text.
    destruct (startsWith internal_close (c :: s)) eqn:E.
    + now rewrite Hk.
    + unfold any at 1. rewrite IH.
      destruct (indexOf internal_close s) as [j|]; reflexivity.
Qed.

(** The pattern matches where a wrapped substring starts, and matches
    that substring. *)
Lemma rmatch_internal (i : nat) (s : jsstring) :
  rmatch INTERNAL i s (fun _ rest => Some rest) =
  if Nat.eqb (reach s) 0 then None else Some (skipn (reach s) s).
Proof.
  unfold INTERNAL, reach. cbn [rmatch]. rewrite rmatch_text.
  destruct (startsWith internal_open s); [|reflexivity].
  change (length internal_open) with 10.
  rewrite star_lazy_close by reflexivity.
  destruct (indexOf internal_close (skipn 10 s)) as [j|]; [|reflexivity].
  rewrite skipn_skipn. cbn [Nat.add Nat.eqb].
  do 2 f_equal. lia.
Qed.

(** ** Occurrences *)

(** An occurrence of [w] at [i] fixes the units from [i] on. *)
Lemma startsWith_nth (w s : jsstring) (i : nat) :
  startsWith w (skipn i s) = true ->
  forall j, j < length w -> nth_error s (i + j) = nth_error w j.
Proof.
  intros H j Hj. apply startsWith_split in H.
  rewrite <- (firstn_skipn i s) at 1.
  assert (Hi : i <= length s).
  { destruct (Nat.le_gt_cases i (length s)) as [|Hgt]; [assumption|].
    rewrite skipn_all2 in H by lia. destruct w; [simpl in Hj; lia|discriminate]. }
  rewrite nth_error_app2; rewrite length_firstn, Nat.min_l by lia; [|lia].
  replace (i + j - i) with j by lia.
  rewrite H. now rewrite nth_error_app1.
Qed.

(** A string is no shorter than what it starts with. *)
Lemma startsWith_length (w s : jsstring) :
  startsWith w s = true -> length w <= length s.
Proof.
  intros H. apply startsWith_split in H. rewrite H, length_app. lia.
Qed.

(** [indexOf] finds an occurrence. *)
Lemma indexOf_found (w s : jsstring) :
  forall k, indexOf w s = Some k ->
       startsWith w (skipn k s) = true /\ k + length w <= length s.
Proof.
  induction s as [|c s IH]; intros k; cbn [indexOf].
  - destruct (startsWith w []) eqn:E; [|discriminate].
    intros [= <-]. split; [exact E|]. now apply startsWith_length in E.
  - destruct (startsWith w (c :: s)) eqn:E.
    + intros [= <-]. split; [exact E|]. now apply startsWith_length in E.
    + destruct (indexOf w s) as [j|]; [|discriminate].
      intros [= <-]. destruct (IH j eq_refl) as [H1 H2].
      split; [exact H1 | simpl; lia].
Qed.

(** Skipping no further than the first occurrence keeps it first. *)
Lemma indexOf_skipn (w s : jsstring) :
  forall k j, indexOf w s = Some k -> j <= k ->
         indexOf w (skipn j s) = Some (k - j).
Proof.
  induction s as [|c s IH]; intros k j H Hj.
  - cbn [indexOf] in H. destruct (startsWith w []) eqn:E; [|discriminate].
    injection H as <-. assert (j = 0) as -> by lia. cbn [skipn indexOf].
    now rewrite E.
  - destruct j as [|j]; [now rewrite Nat.sub_0_r|].
    cbn [indexOf] in H. destruct (startsWith w (c :: s)); [injection H as <-; lia|].
    destruct (indexOf w s) as [k'|] eqn:E; [|discriminate].
    injection H as <-. cbn [skipn]. change (S k' - S j) with (k' - j).
    apply IH; [reflexivity | lia].
Qed.

(** A wrapped substring lies within the string. *)
Lemma reach_le (s : jsstring) : reach s <= length s.
Proof.
  unfold reach. destruct (startsWith internal_open s); [|lia].
  destruct (indexOf internal_close (skipn 10 s)) as [k|] eqn:E; [|lia].
  apply indexOf_found in E as [_ E]. rewrite length_skipn in E.
  change (length internal_close) with 11 in E. lia.
Qed.

(** The markers begin with [<] and have no other. *)
Lemma open_inside (j : nat) :
  0 < j -> j < 10 -> nth_error internal_open j <> Some 60%N.
Proof.
  intros H0 H1.
  do 10 (destruct j as [|j]; [try lia; vm_compute; discriminate|]). lia.
Qed.

(** The same for the closing marker. *)
Lemma close_inside (j : nat) :
  0 < j -> j < 11 -> nth_error internal_close j <> Some 60%N.
Proof.
  intros H0 H1.
  do 11 (destruct j as [|j]; [try lia; vm_compute; discriminate|]). lia.
Qed.

(** An occurrence of the opening marker, seen from [skipn i s]. *)
Lemma opens_at (s : jsstring) (i : nat) :
  reach (skipn i s) <> 0 -> startsWith internal_open (skipn i s) = true.
Proof.
  unfold reach. destruct (startsWith internal_open (skipn i s)); congruence.
Qed.

(** Inside a wrapped substring no wrapped substring reaches further. *)
Lemma reach_nested (s : jsstring) (i : nat) :
  0 < i -> i < reach s -> i + reach (skipn i s) <= reach s.
Proof.
  intros Hi Hlt.
  destruct (Nat.eq_dec (reach (skipn i s)) 0) as [->|Hr]; [lia|].
  pose proof (opens_at s i Hr) as Ho.
  unfold reach in Hlt |- *.
  destruct (startsWith internal_open s) eqn:Hs; [|lia].
  destruct (indexOf internal_close (skipn 10 s)) as [k|] eqn:Hk; [|lia].
  rewrite Ho.
  pose proof (startsWith_nth internal_open s 0 Hs) as Hopen0.
  pose proof (startsWith_nth internal_open s i Ho) as Hopeni.
  destruct (indexOf_found _ _ Hk) as [Hc _].
  rewrite skipn_skipn in Hc.
  pose proof (startsWith_nth internal_close s (k + 10) Hc) as Hclose.
  change (length internal_open) with 10 in *.
  change (length internal_close) with 11 in *.
  assert (Hlt0 : 0 < 10) by lia.
  assert (Hi0 : nth_error s i = Some 60%N).
  { rewrite <- (Nat.add_0_r i). now rewrite (Hopeni 0 Hlt0). }
  destruct (Nat.lt_ge_cases i 10) as [Hsmall|Hbig].
  - (* the opening markers would overlap *)
    exfalso. apply (open_inside Hi Hsmall).
    rewrite <- (Hopen0 i Hsmall). exact Hi0.
  - destruct (Nat.le_gt_cases i k) as [Hin|Hout].
    + (* the inner opening marker ends before the closing marker starts *)
      rewrite skipn_skipn.
      replace (10 + i) with (i + 10) by lia. rewrite <- skipn_skipn.
      rewrite (indexOf_skipn _ _ Hk Hin). lia.
    + exfalso.
      destruct (Nat.lt_trichotomy i (k + 10)) as [Hl|[He|Hg]].
      * (* the closing marker starts inside the inner opening marker *)
        apply (@open_inside (k + 10 - i)); [lia | lia |].
        rewrite <- Hopeni by lia.
        replace (i + (k + 10 - i)) with (k + 10 + 0) by lia.
        now rewrite Hclose by lia.
      * (* both markers at one place *)
        subst i. assert (H1 : 1 < 10) by lia. assert (H1' : 1 < 11) by lia.
        pose proof (Hopeni 1 H1) as Ha. pose proof (Hclose 1 H1') as Hb.
        rewrite Ha in Hb. vm_compute in Hb. discriminate.
      * (* the inner opening marker starts inside the closing marker *)
        apply (@close_inside (i - (k + 10))); [lia | lia |].
        rewrite <- Hclose by lia.
        replace (k + 10 + (i - (k + 10))) with i by lia. exact Hi0.
Qed.

(** ** The sweep against the replace loop *)

(** Units covered by a wrapped substring are dropped one after the
    other when nothing inside reaches further. *)
Lemma sweep_skip :
  forall n s,
    n <= length s ->
    (forall i, i < n -> i + reach (skipn i s) <= n) ->
    sweep n s = sweep 0 (skipn n s).
Proof.
  induction n as [|n IH]; intros s Hn Hb; [reflexivity|].
  destruct s as [|c s]; [simpl in Hn; lia|].
  cbn [sweep skipn].
  pose proof (Hb 0 (Nat.lt_0_succ n)) as H0. cbn [skipn Nat.add] in H0.
  rewrite Nat.max_l by exact H0.
  apply IH; [simpl in Hn; lia|].
  intros i Hi. specialize (Hb (S i)). cbn [skipn] in Hb. lia.
Qed.

(** What the search finds, in terms of the sweep. *)
Lemma exec_internal (s : jsstring) :
  forall i,
    match exec INTERNAL i s with
    | None => sweep 0 s = s
    | Some (b, m, a) =>
        m <> [] /\ length a < length s /\ sweep 0 s = b ++ sweep 0 a
    end.
Proof.
  induction s as [|c s IH]; intros i.
  - cbn [exec]. rewrite rmatch_internal. reflexivity.
  - cbn [exec]. rewrite rmatch_internal.
    destruct (reach (c :: s)) as [|n] eqn:Hr.
    + cbn [Nat.eqb]. specialize (IH (S i)).
      destruct (exec INTERNAL (S i) s) as [[[b m] a]|].
      * destruct IH as [Hm [Hl Hs]]. split; [exact Hm|]. split.
        -- simpl. lia.
        -- cbn [sweep]. rewrite Hr. cbn [Nat.max]. now rewrite Hs.
      * cbn [sweep]. rewrite Hr. cbn [Nat.max]. now rewrite IH.
    + cbn [Nat.eqb].
      pose proof (reach_le (c :: s)) as Hle. rewrite Hr in Hle.
      rewrite length_skipn. split; [|split].
      * replace (length (c :: s) - (length (c :: s) - S n)) with (S n) by lia.
        discriminate.
      * simpl in *. lia.
      * cbn [sweep app]. rewrite Hr. cbn [Nat.max skipn].
        apply sweep_skip; [simpl in Hle; lia|].
        intros j Hj.
        pose proof (@reach_nested (c :: s) (S j)) as Hn.
        rewrite Hr in Hn. cbn [skipn] in Hn. lia.
Qed.

(** The replace loop, with fuel to spare, is the sweep. *)
Lemma replace_loop_internal :
  forall fuel s i,
    length s < fuel -> replace_loop fuel INTERNAL [] i s = sweep 0 s.
Proof.
  induction fuel as [|fuel IH]; intros s i Hf; [lia|].
  cbn [replace_loop].
  pose proof (exec_internal s i) as H.
  destruct (exec INTERNAL i s) as [[[b m] a]|]; [|now rewrite H].
  destruct H as [Hm [Hl Hs]].
  destruct m as [|x m]; [contradiction|].
  rewrite IH by lia. now rewrite Hs.
Qed.

(** The global replace is the sweep. *)
Theorem replace_all_internal (raw : jsstring) :
  replace_all INTERNAL [] raw = sweep 0 raw.
Proof.
  unfold replace_all. apply replace_loop_internal. lia.
Qed.

(** ** The sweep against the positions *)

(** Some end lies beyond [o] exactly when the furthest does. *)
Lemma existsb_list_max (f : nat -> nat) (o : nat) (l : list nat) :
  existsb (fun i => o <? f i) l
  = negb (list_max (map (fun i => f i - o) l) =? 0).
Proof.
  induction l as [|i l IH]; [reflexivity|].
  cbn [existsb map list_max fold_right]. rewrite IH.
  fold (list_max (map (fun i => f i - o) l)).
  destruct (Nat.ltb_spec o (f i)) as [H|H];
    destruct (Nat.eqb_spec (list_max (map (fun i => f i - o) l)) 0) as [E|E];
    destruct (Nat.eqb_spec (Nat.max (f i - o) (list_max (map (fun i => f i - o) l))) 0);
    simpl; try reflexivity; lia.
Qed.

(** One unit further, every reach is one shorter. *)
Lemma list_max_pred (f : nat -> nat) (o : nat) (l : list nat) :
  list_max (map (fun i => f i - S o) l)
  = list_max (map (fun i => f i - o) l) - 1.
Proof.
  induction l as [|i l IH]; [reflexivity|].
  cbn [map list_max fold_right].
  fold (list_max (map (fun i => f i - S o) l)).
  fold (list_max (map (fun i => f i - o) l)). lia.
Qed.

(** The cover at [o], with the wrapped substring that starts at [o]. *)
Lemma cover_step (raw : jsstring) (o : nat) :
  list_max (map (fun i => span raw i - o) (seq 0 (S o)))
  = Nat.max (cover raw o) (reach (skipn o raw)).
Proof.
  rewrite seq_S, map_app, list_max_app. cbn [map list_max fold_right Nat.add].
  unfold cover, span. lia.
Qed.

(** The rest of a suffix is the next suffix. *)
Lemma skipn_cons (raw : jsstring) (o : nat) (c : unit16) (s : jsstring) :
  skipn o raw = c :: s -> skipn (S o) raw = s.
Proof.
  intros H. replace (S o) with (1 + o) by lia.
  now rewrite <- skipn_skipn, H.
Qed.

(** The sweep keeps the units that lie in no wrapped substring. *)
Lemma sweep_kept (raw : jsstring) :
  forall s o, skipn o raw = s -> sweep (cover raw o) s = kept_from raw o s.
Proof.
  induction s as [|c s IH]; intros o Hs; [reflexivity|].
  unfold kept_from. cbn [sweep length seq combine filter fst].
  unfold enclosed at 1. rewrite existsb_list_max, cover_step.
  rewrite <- Hs at 1. rewrite Hs.
  pose proof (cover_step raw o) as Hstep.
  pose proof (list_max_pred (span raw) o (seq 0 (S o))) as Hpred.
  fold (cover raw (S o)) in Hpred. rewrite Hstep, Hs in Hpred.
  pose proof (IH (S o) (skipn_cons _ _ Hs)) as IH'.
  unfold kept_from in IH'. rewrite Hpred in IH'.
  destruct (Nat.max (cover raw o) (reach (c :: s))) as [|n].
  - cbn [Nat.eqb negb map snd]. f_equal. exact IH'.
  - cbn [Nat.eqb negb]. rewrite <- IH'. f_equal. lia.
Qed.

(** The global replace removes every wrapped substring, and nothing
    else. *)
Theorem replace_all_without_internal (raw : jsstring) :
  replace_all INTERNAL [] raw = without_internal raw.
Proof.
  rewrite replace_all_internal. unfold without_internal.
  now rewrite <- (@sweep_kept raw raw 0 eq_refl).
Qed.

(** The text the callback computes from a raw result. *)
Lemma visible_text_spec (raw : jsstring) :
  visible_text raw = trim (without_internal raw).
Proof.
  unfold visible_text. now rewrite replace_all_without_internal.
Qed.

(** Keeping the session id does not resolve the wait. *)
Lemma note_session_resolved (o : ContainerOutput) (st : run_state) :
  resolved (note_session o st) = resolved st.
Proof.
  unfold note_session. now destruct (newSessionId o) as [[|c id]|].
Qed.

(** C1, as stated, fails: text that stands between an opening and a
    closing marker can be handed on. The pattern is applied in one pass
    from left to right, and each match ends at the nearest closing
    marker. When taking out a wrapped substring brings the two halves of
    an opening marker together, the text it then wraps stays; and when a
    wrapped substring stands inside another, what follows the inner
    closing marker stays. *)
Lemma marked_text_is_handed_on :
  dispatched spliced_note (initial None)
    = Some (lit "<internal>secret</internal>") /\
  dispatched nested_note (initial None) = Some (lit "SECRET</internal>").
Proof. split; vm_compute; reflexivity. Qed.

(** C1, amended: the global replace of the pattern removes, in one pass
    from left to right, exactly the units of the raw string that lie in
    a wrapped substring: an occurrence of [<internal>], the text up to
    the nearest [</internal>] after it, and that closing marker. For
    every raw result string that reaches the callback while it still
    waits, the text handed on is the raw string without those units,
    trimmed, and nothing is handed on when that text is empty; whatever
    the callback hands on is such a text and is not empty. In scenario
    S6 the text handed on is [Here is the answer.] Markers that the
    removal leaves or brings together are not looked for again. *)
Theorem internal_text_is_stripped :
  (forall raw, replace_all INTERNAL [] raw = without_internal raw) /\
  (forall o st raw,
      status o = success ->
      result o = RString raw ->
      resolved st = false ->
      dispatched o st =
        match trim (without_internal raw) with
        | [] => None
        | c :: t => Some (c :: t)
        end) /\
  (forall o st t,
      dispatched o st = Some t ->
      t <> [] /\
      exists raw, raw_text (result o) = Some raw /\
                  t = trim (without_internal raw)) /\
  dispatched S6_output (initial None) = Some (lit "Here is the answer.").
Proof.
  split; [exact replace_all_without_internal|].
  split; [|split].
  - intros o st raw Hs Hr Hw. unfold dispatched. rewrite Hw.
    unfold on_output. rewrite Hs, Hr, note_session_resolved, Hw.
    destruct raw as [|x raw]; cbn [raw_text].
    + rewrite note_session_resolved, Hw. reflexivity.
    + rewrite visible_text_spec.
      destruct (trim (without_internal (x :: raw))) as [|c t].
      * rewrite note_session_resolved, Hw. reflexivity.
      * reflexivity.
  - intros o st t. unfold dispatched.
    destruct (resolved st) eqn:Hw; [discriminate|].
    unfold on_output. rewrite note_session_resolved, Hw.
    destruct (status o).
    + destruct (raw_text (result o)) as [raw|] eqn:Hraw.
      * rewrite visible_text_spec.
        destruct (trim (without_internal raw)) as [|c u] eqn:Ht.
        -- rewrite note_session_resolved, Hw. discriminate.
        -- cbn. intros [= <-]. split; [discriminate|].
           exists raw. split; [reflexivity | now rewrite Ht].
      * rewrite note_session_resolved, Hw. discriminate.
    + cbn. discriminate.
  - vm_compute. reflexivity.
Qed.

(** C1 at work: two wrapped substrings and the white space around the
    rest are gone, and an output that is only a wrapped substring is not
    handed on. *)
Lemma internal_text_is_stripped_witness :
  dispatched two_notes (initial None) = Some (lit "Done.") /\
  dispatched only_note (initial None) = None.
Proof.
  split.
  - rewrite (proj1 (proj2 internal_text_is_stripped) two_notes (initial None)
               (lit "  <internal>plan</internal>Done.<internal>x</internal> ")
               eq_refl eq_refl eq_refl).
    vm_compute. reflexivity.
  - rewrite (proj1 (proj2 internal_text_is_stripped) only_note (initial None)
               (lit "<internal>thinking</internal>")
               eq_refl eq_refl eq_refl).
    vm_compute. reflexivity.
Defined.

End InternalFacts.

(* ================================================================== *)
(** * The voice endpoint: deadline and routing *)
(* ================================================================== *)

Module VoiceApiFacts.
Import JS JSFacts VoiceApi VoiceScenarios.

Local Open Scope Z_scope.


(** Nor is the floor kept for every request: a timeout of 2147483648 ms
    is more than a timer takes, and the timer set for it fires after
    1 ms. *)
Lemma oversized_timeout_fires_at_once :
  timeoutMs (Some 2147483648) = 2147483648 /\
  deadline (Some 2147483648) = 1 /\
  specified_deadline (Some 2147483648) = 2147483648.
Proof. repeat split. Qed.
















End VoiceApiFacts.

(* ================================================================== *)
(** * The mail-to-bookmark intake: extraction and labelling *)
(* ================================================================== *)

Module EmailIntakeFacts.
Import JS JSFacts EmailIntake MailScenarios.


(** ** The inner loop *)

(** The inner loop reports no failure exactly when every reply counts. *)
Lemma relay_urls_ok (reply : nat -> relay_reply) (urls : list jsstring) :
  forall j,
    snd (relay_urls reply j urls) = false <->
    (forall k, k < length urls -> bookmarkViaRelay (reply (j + k)) = true).
Proof.
  induction urls as [|u urls IH]; intros j; simpl.
  - split; [intros _ k Hk; lia | reflexivity].
  - destruct (bookmarkViaRelay (reply j)) eqn:E.
    + destruct (relay_urls reply (S j) urls) as [acts failed] eqn:R.
      simpl. specialize (IH (S j)). rewrite R in IH. simpl in IH.
      rewrite IH. split.
      * intros H [|k] Hk; [now rewrite Nat.add_0_r|].
        rewrite Nat.add_succ_r. apply H. lia.
      * intros H k Hk. rewrite <- Nat.add_succ_r.
        apply H. lia.
    + simpl. split; [discriminate|].
      intros H. specialize (H 0). rewrite Nat.add_0_r, E in H.
      symmetry. apply H. lia.
Qed.

(** Without a failure every URL is relayed. *)
Lemma relay_urls_all (reply : nat -> relay_reply) (urls : list jsstring) :
  forall j,
    snd (relay_urls reply j urls) = false ->
    fst (relay_urls reply j urls) = map RelayIntake urls.
Proof.
  induction urls as [|u urls IH]; intros j; simpl; [reflexivity|].
  destruct (bookmarkViaRelay (reply j)); [|discriminate].
  specialize (IH (S j)).
  destruct (relay_urls reply (S j) urls) as [acts failed]. simpl in *.
  intros H. now rewrite IH.
Qed.

(** The loop stops at the first reply that does not count: the URLs up
    to that one are relayed, the later ones are not. *)
Lemma relay_urls_stop (reply : nat -> relay_reply) (urls : list jsstring) :
  forall j n,
    n < length urls ->
    (forall k, k < n -> bookmarkViaRelay (reply (j + k)) = true) ->
    bookmarkViaRelay (reply (j + n)) = false ->
    relay_urls reply j urls = (map RelayIntake (firstn (S n) urls), true).
Proof.
  induction urls as [|u urls IH]; intros j n Hn Hbefore Hfail; simpl in *.
  - lia.
  - destruct n as [|n].
    + rewrite Nat.add_0_r in Hfail. rewrite Hfail. now rewrite firstn_O.
    + rewrite <- (Nat.add_0_r j) at 1. rewrite Hbefore by lia.
      rewrite (IH (S j) n).
      * reflexivity.
      * lia.
      * intros k Hk. replace (S j + k) with (j + S k) by lia.
        apply Hbefore. lia.
      * now replace (S j + n) with (j + S n) by lia.
Qed.

(** The inner loop never asks for a label. *)
Lemma relay_urls_no_modify (reply : nat -> relay_reply)
  (urls : list jsstring) :
  forall j, existsb is_modify (fst (relay_urls reply j urls)) = false.
Proof.
  induction urls as [|u urls IH]; intros j; simpl; [reflexivity|].
  destruct (bookmarkViaRelay (reply j)); [|reflexivity].
  specialize (IH (S j)).
  destruct (relay_urls reply (S j) urls) as [acts failed]. simpl in *.
  exact IH.
Qed.


(** The loop reads the replies one by one. *)
Lemma relay_urls_ext (r1 r2 : nat -> relay_reply) :
  (forall j, r1 j = r2 j) ->
  forall urls j, relay_urls r1 j urls = relay_urls r2 j urls.
Proof.
  intros H urls. induction urls as [|u urls IH]; intros j; simpl.
  - reflexivity.
  - now rewrite H, IH.
Qed.

(** ** The outer loop *)

Section Labelling.

Variable decodeBase64Url : jsstring -> jsstring.

Local Abbreviation urls_of := (EmailIntake.urls_of decodeBase64Url).
Local Abbreviation process_message := (EmailIntake.process_message decodeBase64Url).
Local Abbreviation process_from := (EmailIntake.process_from decodeBase64Url).
Local Abbreviation pollEmailIntake := (EmailIntake.pollEmailIntake decodeBase64Url).
Local Abbreviation labels := (EmailIntake.labels decodeBase64Url).
Local Abbreviation relays := (EmailIntake.relays decodeBase64Url).

(** The requests of a batch are those of its parts, one after the
    other. *)
Lemma process_from_app (w : world) (before after : list GogMessage) :
  forall i,
    process_from w i (before ++ after) =
    process_from w i before ++ process_from w (i + length before) after.
Proof.
  induction before as [|m before IH]; intros i; simpl.
  - now rewrite Nat.add_0_r.
  - rewrite IH, <- app_assoc. now rewrite Nat.add_succ_r.
Qed.

(** The URLs of a run of relay requests. *)
Lemma flat_map_relay (urls : list jsstring) :
  flat_map (fun a => match a with RelayIntake u => [u] | _ => [] end)
    (map RelayIntake urls) = urls.
Proof.
  induction urls as [|u urls IH]; simpl; [reflexivity | now rewrite IH].
Qed.

(** The answers that count. *)
Lemma counted_answers (r : relay_reply) :
  bookmarkViaRelay r = true <-> exists e, r = Answered e.
Proof.
  destruct r as [| |e]; cbn; split; try discriminate; eauto.
  - intros [e H]. discriminate.
  - intros [e H]. discriminate.
Qed.

(** The round of a message asks for the label exactly when the message
    could be fetched and every relay call returned [true]. *)
Lemma labels_when (w : world) (i : nat) (msg : GogMessage) :
  labels w i msg = true <->
  exists urls, urls_of w i = Some urls /\
    forall j, j < length urls -> bookmarkViaRelay (relayed w i j) = true.
Proof.
  unfold EmailIntake.labels, EmailIntake.process_message. split.
  - intros H. destruct (EmailIntake.urls_of decodeBase64Url w i)
      as [us|] eqn:U; [|discriminate].
    exists us. split; [reflexivity|].
    pose proof (relay_urls_ok (relayed w i) us 0) as Hok.
    pose proof (relay_urls_no_modify (relayed w i) us 0) as Hno.
    destruct (relay_urls (relayed w i) 0 us) as [acts failed].
    simpl in *. destruct failed.
    + simpl in H. congruence.
    + now apply Hok.
  - intros [us [U Hall]]. rewrite U.
    pose proof (relay_urls_ok (relayed w i) us 0) as Hok.
    destruct (relay_urls (relayed w i) 0 us) as [acts failed].
    simpl in *. apply Hok in Hall. subst failed.
    simpl. rewrite existsb_app. simpl. apply orb_true_r.
Qed.

(** The one label request a round can make is for the thread of its
    message. *)
Lemma modify_of_round (w : world) (i : nat) (msg : GogMessage)
  (t : jsstring) :
  In (ThreadModify t) (process_message w i msg) <->
  threadId msg = t /\ labels w i msg = true.
Proof.
  unfold EmailIntake.labels, EmailIntake.process_message.
  destruct (EmailIntake.urls_of decodeBase64Url w i) as [us|].
  - pose proof (relay_urls_no_modify (relayed w i) us 0) as Hno.
    destruct (relay_urls (relayed w i) 0 us) as [acts failed].
    cbn [fst] in Hno.
    assert (Hacts : ~ In (ThreadModify t) acts).
    { intros Hin.
      assert (existsb is_modify acts = true); [|congruence].
      apply existsb_exists. now exists (ThreadModify t). }
    destruct failed.
    + cbn [existsb is_modify orb]. rewrite Hno. split.
      * intros [H|H]; [discriminate|contradiction].
      * intros [_ H]. discriminate.
    + split.
      * intros [H|H]; [discriminate|].
        apply in_app_or in H as [H|[H|[]]]; [contradiction|].
        injection H as ->. split; [reflexivity|].
        cbn [existsb is_modify orb]. rewrite existsb_app. cbn.
        apply orb_true_r.
      * intros [<- _]. right. apply in_or_app. right. now left.
  - split.
    + intros [H|[]]. discriminate.
    + intros [_ H]. discriminate.
Qed.

(** A request of a batch is a request of the round of one of its
    messages. *)
Lemma request_of_batch (w : world) (a : action) (msgs : list GogMessage) :
  forall i,
    In a (process_from w i msgs) <->
    exists k m, nth_error msgs k = Some m /\
                In a (process_message w (i + k) m).
Proof.
  induction msgs as [|m0 msgs IH]; intros i; cbn [EmailIntake.process_from].
  - split; [intros []|]. intros [[|k] [m [Hk _]]]; discriminate.
  - split.
    + intros H. apply in_app_or in H as [H|H].
      * exists 0, m0. rewrite Nat.add_0_r. now split.
      * apply IH in H as [k [m [Hk Hm]]]. exists (S k), m.
        rewrite Nat.add_succ_r. now split.
    + intros [[|k] [m [Hk Hm]]]; apply in_or_app.
      * injection Hk as ->. rewrite Nat.add_0_r in Hm. now left.
      * right. apply IH. exists k, m.
        rewrite Nat.add_succ_r in Hm. now split.
Qed.

(** C6, amended. A relay call counts as successful when the relay
    returns a JSON answer other than [null], also one that reports an
    error. In the round of a message the poll asks for the processed
    label (which also takes the thread out of the inbox) exactly when
    the message could be fetched and the relay call for every one of its
    URLs was successful; when a relay call fails, the round stops: it has
    relayed the URLs up to the failing one, relays none of the later ones
    and asks for no label. The label is asked for the thread of the
    message: a poll asks for the label of a thread exactly when the round
    of one of the listed messages of that thread does, so a message whose
    relay call failed is still labelled with its thread when another
    listed message of the thread is. The requests of a batch are those of
    its messages one after the other, and what is done in the round of a
    message depends on the replies to that message alone, so a failure on
    one message does not keep another from being labelled. *)
Theorem labelling_is_per_message (w : world) (i : nat) (msg : GogMessage) :
  (forall r, bookmarkViaRelay r = true <-> exists e, r = Answered e) /\
  (labels w i msg = true <->
   exists urls, urls_of w i = Some urls /\
     forall j, j < length urls -> bookmarkViaRelay (relayed w i j) = true) /\
  (forall urls n,
     urls_of w i = Some urls ->
     n < length urls ->
     (forall k, k < n -> bookmarkViaRelay (relayed w i k) = true) ->
     bookmarkViaRelay (relayed w i n) = false ->
     process_message w i msg =
       GmailGet (id msg) :: map RelayIntake (firstn (S n) urls) /\
     relays w i msg = firstn (S n) urls /\
     labels w i msg = false) /\
  (forall t,
     In (ThreadModify t) (pollEmailIntake w) <->
     exists msgs k m,
       listed w = Some msgs /\ nth_error msgs k = Some m /\
       threadId m = t /\ labels w k m = true) /\
  (forall before after,
     i = length before ->
     process_from w 0 (before ++ msg :: after) =
       process_from w 0 before ++ process_message w i msg
       ++ process_from w (S i) after) /\
  (forall w',
     fetched w' i = fetched w i ->
     (forall j, relayed w' i j = relayed w i j) ->
     process_message w' i msg = process_message w i msg).
Proof.
  split; [exact counted_answers|].
  split; [apply labels_when|].
  split; [|split; [|split]].
  - intros us n U Hn Hbefore Hfail.
    unfold EmailIntake.labels, EmailIntake.relays,
      EmailIntake.process_message. rewrite U.
    rewrite (relay_urls_stop (relayed w i) us 0 Hn Hbefore Hfail).
    split; [reflexivity|split].
    + change (flat_map _ (GmailGet (id msg) :: ?l)) with (flat_map
        (fun a => match a with RelayIntake u => [u] | _ => [] end) l).
      apply flat_map_relay.
    + change (existsb is_modify (GmailGet (id msg) :: ?l))
        with (existsb is_modify l).
      induction (firstn (S n) us) as [|x l IH]; simpl; auto.
  - intros t. unfold EmailIntake.pollEmailIntake.
    destruct (listed w) as [[|m0 msgs]|].
    + split.
      * intros [H|[]]. discriminate.
      * intros [ms [[|k] [m [[= <-] [Hk _]]]]]; discriminate.
    + split.
      * intros [H|H]; [discriminate|].
        apply request_of_batch in H as [k [m [Hk Hm]]].
        cbn [Nat.add] in Hm. apply modify_of_round in Hm as [Ht Hl].
        now exists (m0 :: msgs), k, m.
      * intros [ms [k [m [[= <-] [Hk [Ht Hl]]]]]]. right.
        apply request_of_batch. exists k, m. split; [exact Hk|].
        cbn [Nat.add]. now apply modify_of_round.
    + split.
      * intros [H|[]]. discriminate.
      * intros [ms [k [m [H _]]]]. discriminate.
  - intros before after ->.
    now rewrite (process_from_app w before (msg :: after) 0).
  - intros w' Hf Hr. unfold EmailIntake.process_message, EmailIntake.urls_of.
    rewrite Hf.
    destruct (fetched w i) as [detail|]; [|reflexivity].
    now rewrite (relay_urls_ext (relayed w' i) (relayed w i) Hr).
Qed.

End Labelling.

(** C6, as stated, fails. In a batch that lists two messages of one
    thread, the relay fails on the second URL of the first message, whose
    round asks for no label; the round of the second message succeeds and
    asks for the label of the thread, which is the thread of the first
    message too. And a relay that answers every request with an error
    does not keep a message from being labelled. *)
Lemma failed_message_is_labelled_with_its_thread :
  (threadId first_mail = threadId reply_mail /\
   bookmarkViaRelay (relayed shared_thread 0 1) = false /\
   labels (fun s => s) shared_thread 0 first_mail = false /\
   In (ThreadModify (threadId first_mail))
      (pollEmailIntake (fun s => s) shared_thread)) /\
  (relayed relay_errors 0 0 = Answered true /\
   labels (fun s => s) relay_errors 0 first_mail = true).
Proof.
  split.
  - repeat split. vm_compute. tauto.
  - split; reflexivity.
Qed.

(** The amended C6 at work: the first message is left without the label
    after its second URL fails, and the second message of the same batch
    is labelled. *)
Lemma labelling_is_per_message_witness :
  (process_message (fun s => s) outage 0 first_mail =
     [GmailGet (lit "m0");
      RelayIntake (lit "https://example.com/first");
      RelayIntake (lit "https://example.org/second")] /\
   labels (fun s => s) outage 0 first_mail = false) /\
  labels (fun s => s) outage 1 second_mail = true.
Proof.
  split.
  - destruct (proj1 (proj2 (proj2 (labelling_is_per_message (fun s => s)
                                     outage 0 first_mail)))
                [lit "https://example.com/first";
                 lit "https://example.org/second"] 1) as [H1 [_ H3]].
    + vm_compute. reflexivity.
    + simpl. lia.
    + intros k Hk. assert (k = 0) as -> by lia. reflexivity.
    + reflexivity.
    + split; [exact H1 | exact H3].
  - apply (proj1 (proj2 (labelling_is_per_message (fun s => s) outage 1
                           second_mail))).
    exists [lit "https://example.net/third"]. split.
    + vm_compute. reflexivity.
    + intros j Hj. simpl in Hj. assert (j = 0) as -> by lia. reflexivity.
Defined.

End EmailIntakeFacts.

(* ================================================================== *)
(** * The Slack adapter: ownership *)
(* ================================================================== *)

Module SlackFacts.
Import JS JSFacts Types Slack.

(** The unit that follows a prefix. *)
Lemma charAt_after (p : jsstring) (c : unit16) (t : jsstring) :
  charAt (length p) (p ++ c :: t) = [c].
Proof.
  unfold charAt. rewrite nth_error_app2 by lia.
  now rewrite Nat.sub_diag.
Qed.

(** Two ways of cutting one string: one of the first parts starts with
    the other. *)
Lemma app_eq_split (a b p q : jsstring) :
  a ++ b = p ++ q ->
  (exists r, a = p ++ r) \/ (exists r, p = a ++ r /\ b = r ++ q).
Proof.
  revert p. induction a as [|x a IH]; intros p H; simpl in *.
  - right. exists p. split; [reflexivity | exact H].
  - destruct p as [|y p]; simpl in *.
    + left. now exists (x :: a).
    + injection H as -> H. destruct (IH p H) as [[r ->]|[r [-> ->]]].
      * left. now exists r.
      * right. now exists r.
Qed.

(** The only colon of [channel:] is its last unit. *)
Lemma channel_colon (ns r : jsstring) :
  lit "channel:" = ns ++ 58%N :: r -> ns = lit "channel".
Proof.
  change (lit "channel:") with [99; 104; 97; 110; 110; 101; 108; 58]%N.
  change (lit "channel") with [99; 104; 97; 110; 110; 101; 108]%N.
  intros H.
  do 7 (destruct ns as [|? ns]; simpl in H; [discriminate|];
        injection H as <- H).
  destruct ns as [|? ns]; [reflexivity|].
  simpl in H. injection H as _ H. destruct ns; discriminate.
Qed.


(** C7, as stated, fails. The namespace [channel] gives the prefix
    [slack:channel:], which the default instance claims as well; and a
    namespace that starts with an upper-case letter, such as [CIT], gives
    chat ids that the default instance takes for user ids. *)
Lemma namespaces_that_overlap :
  (ownsJid ascii_toUpperCase (make None) (lit "slack:channel:C1") = true /\
   ownsJid ascii_toUpperCase (make (Some (lit "channel")))
     (lit "slack:channel:C1") = true) /\
  (ownsJid ascii_toUpperCase (make None) (lit "slack:CIT:U1") = true /\
   ownsJid ascii_toUpperCase (make (Some (lit "CIT")))
     (lit "slack:CIT:U1") = true).
Proof. repeat split. Qed.

(** C7, amended: when the namespace starts with a unit that upper-casing
    changes (a lower-case letter), is not [channel] and does not start
    with [channel:], no chat id is owned by both the default instance and
    the instance of that namespace. *)
Theorem namespaced_ownership_disjoint (toUpperCase : jsstring -> jsstring)
  (ns jid : jsstring) (c : unit16) (rest : jsstring) :
  ns = c :: rest ->
  toUpperCase [c] <> [c] ->
  ns <> lit "channel" ->
  startsWith (lit "channel:") ns = false ->
  ownsJid toUpperCase (make None) jid
  && ownsJid toUpperCase (make (Some ns)) jid = false.
Proof.
  intros Hns Hup Hch Hpre. subst ns.
  unfold ownsJid. cbn [make namespace namespaced prefix negb].
  destruct (startsWith (lit "slack:" ++ (c :: rest) ++ lit ":") jid) eqn:Hown;
    [|apply andb_false_r].
  rewrite andb_true_r.
  apply startsWith_split in Hown.
  set (t := skipn _ jid) in Hown.
  rewrite <- !app_assoc, <- app_comm_cons in Hown.
  rewrite Hown. rewrite startsWith_app. cbn [negb].
  change 6 with (length (lit "slack:")).
  rewrite charAt_after.
  assert (Hup' : eqb [c] (toUpperCase [c]) = false).
  { apply eqb_neq. congruence. }
  rewrite Hup'. cbn [orb].
  destruct (startsWith (lit "slack:channel:") _) eqn:Hboth; [|reflexivity].
  exfalso.
  apply startsWith_iff in Hboth as [t' Ht'].
  change (lit "slack:channel:") with (lit "slack:" ++ lit "channel:") in Ht'.
  rewrite <- !app_assoc in Ht'. apply app_inv_head in Ht'.
  rewrite app_comm_cons in Ht'.
  destruct (app_eq_split _ _ _ _ Ht') as [[r Hr]|[r [Hr Hb]]].
  - rewrite Hr, startsWith_app in Hpre. discriminate.
  - destruct r as [|x r].
    + rewrite app_nil_r in Hr. rewrite <- Hr in Hpre.
      vm_compute in Hpre. discriminate.
    + injection Hb as <- _. apply channel_colon in Hr. contradiction.
Qed.

(** The amended C7 at work, for the namespace [cit] of the source's
    comment and a chat id of that workspace. *)
Lemma namespaced_ownership_disjoint_witness :
  ownsJid ascii_toUpperCase (make None) (lit "slack:cit:U1")
  && ownsJid ascii_toUpperCase (make (Some (lit "cit"))) (lit "slack:cit:U1")
  = false.
Proof.
  apply (@namespaced_ownership_disjoint ascii_toUpperCase (lit "cit")
           (lit "slack:cit:U1") 99%N (lit "it")).
  - reflexivity.
  - vm_compute. discriminate.
  - vm_compute. discriminate.
  - reflexivity.
Defined.

End SlackFacts.

(* ================================================================== *)
(** * Inbound: messages the bot wrote itself *)
(* ================================================================== *)

Module InboundFacts.
Import JS JSFacts Types ChannelScenarios.

(** C2, as stated, fails on Signal: the sync message is handed to the
    on-message callback, marked as the bot's own. *)
Lemma signal_delivers_self_echo :
  Signal.handleEntry iso_1000 decimal_1000 0%Z own_account own_chat
    (Some sync_note) =
  ([OnChatMetadata (lit "sig:+15550001") (lit "1970-01-01T00:00:01.000Z")
      (Some (lit "+15550001")) (lit "signal") false;
    OnMessage (lit "sig:+15550001")
      {| id := lit "sig_1000_+15550001";
         chat_jid := lit "sig:+15550001";
         sender := lit "+15550001";
         sender_name := lit "+15550001";
         content := lit "hello";
         timestamp := lit "1970-01-01T00:00:01.000Z";
         is_from_me := true;
         is_bot_message := true |}],
   Returned).
Proof. reflexivity. Qed.

Section Inbound.

Variable slackTsToIso : jsstring -> option jsstring.
Variable toISOString : Z -> option jsstring.
Variable numberToString : Z -> jsstring.
Variable now : Z.

Local Abbreviation handleEntry :=
  (Signal.handleEntry toISOString numberToString now).
Local Abbreviation processInbound :=
  (Signal.processInbound toISOString numberToString).
Local Abbreviation data_inbound := (Signal.data_inbound now).
Local Abbreviation sync_inbound := (Signal.sync_inbound now).

(** What [processInbound] hands to on-message carries the mark of the
    bot's own messages. *)
Lemma processInbound_marks (c : Signal.SignalChannel) (g : groups)
  (msg : Signal.inbound) (cbs : list callback) (jid : jsstring)
  (m : NewMessage) :
  processInbound c g msg = Some cbs ->
  In (OnMessage jid m) cbs ->
  is_from_me m
    = (Signal.in_isFromMe msg
       || eqb (Signal.in_source msg) (Signal.account c)) /\
  is_bot_message m = is_from_me m /\
  sender m = Signal.in_source msg.
Proof.
  unfold Signal.processInbound.
  destruct (toISOString (Signal.in_timestamp msg)) as [ts|]; [|discriminate].
  intros [= <-] [H|H]; [discriminate|].
  destruct (registered g _); [|contradiction].
  destruct H as [[= _ <-]|[]]. simpl. auto.
Qed.

(** A message of a registered chat is handed to on-message. *)
Lemma processInbound_delivers (c : Signal.SignalChannel) (g : groups)
  (msg : Signal.inbound) (ts : jsstring) :
  toISOString (Signal.in_timestamp msg) = Some ts ->
  registered g (Signal.chat_of msg) = true ->
  exists cbs m,
    processInbound c g msg = Some cbs /\
    In (OnMessage (Signal.chat_of msg) m) cbs /\
    content m = Signal.in_message msg.
Proof.
  intros Hts Hreg. unfold Signal.processInbound.
  unfold Signal.chat_of in *. cbv zeta. rewrite Hts, Hreg.
  eexists. eexists. split; [reflexivity|]. split.
  - right. left. reflexivity.
  - reflexivity.
Qed.

(** C2, amended. On Slack a message event whose user is the bot's user id
    is dropped at once: no callback is invoked and nothing changes. On
    Signal the bot's own messages are not dropped by the adapter: a sync
    message, or a data message whose source is the account, is handed to
    on-message when its chat is registered, with [is_from_me] and
    [is_bot_message] set; and every message the adapter hands on has
    [is_from_me] set exactly when the account is its sender, so that the
    host can tell the bot's own messages apart. *)
Theorem self_echo_at_the_boundary :
  (forall (w : Slack.api) (h : Slack.host) (c : Slack.SlackChannel)
          (msg : Slack.message_event) (u : jsstring),
      Slack.user msg = Some u ->
      Slack.botUserId c = Some u ->
      Slack.on_message_event slackTsToIso w h c msg
        = (c, Slack.registeredGroups h, [], [])) /\
  (forall (c : Signal.SignalChannel) (g : groups) (e : Signal.envelope)
          (msg : Signal.inbound) (ts : jsstring),
      data_inbound e = None ->
      sync_inbound c e = Some msg ->
      toISOString (Signal.in_timestamp msg) = Some ts ->
      registered g (Signal.chat_of msg) = true ->
      exists m,
        In (OnMessage (Signal.chat_of msg) m) (fst (handleEntry c g (Some e))) /\
        content m = Signal.in_message msg /\
        is_from_me m = true /\ is_bot_message m = true) /\
  (forall (c : Signal.SignalChannel) (g : groups) (e : Signal.envelope)
          (msg : Signal.inbound) (ts : jsstring),
      data_inbound e = Some msg ->
      Signal.in_source msg = Signal.account c ->
      toISOString (Signal.in_timestamp msg) = Some ts ->
      registered g (Signal.chat_of msg) = true ->
      exists m,
        In (OnMessage (Signal.chat_of msg) m) (fst (handleEntry c g (Some e))) /\
        content m = Signal.in_message msg /\
        is_from_me m = true /\ is_bot_message m = true) /\
  (forall (c : Signal.SignalChannel) (g : groups)
          (entry : Signal.SignalReceiveEntry) (jid : jsstring)
          (m : NewMessage),
      In (OnMessage jid m) (fst (handleEntry c g entry)) ->
      is_from_me m = eqb (sender m) (Signal.account c) /\
      is_bot_message m = is_from_me m).
Proof.
  split; [|split; [|split]].
  - intros w h c msg u Hu Hb. unfold Slack.on_message_event.
    destruct (Slack.truthy (Slack.bot_id msg) || Slack.truthy (Slack.subtype msg));
      [reflexivity|].
    rewrite Hu, Hb. destruct u as [|x u]; [reflexivity|].
    now rewrite eqb_refl.
  - intros c g e msg ts Hdata Hsync Hts Hreg.
    destruct (processInbound_delivers c g msg Hts Hreg) as [cbs [m [Hp [Hin Hc]]]].
    exists m.
    destruct (@processInbound_marks c g msg cbs (Signal.chat_of msg) m Hp Hin)
      as [Hme [Hbot _]].
    assert (Hself : Signal.in_isFromMe msg = true).
    { unfold Signal.sync_inbound in Hsync.
      destruct (Signal.syncMessage e) as [[sent|]|]; try discriminate.
      destruct (Signal.sm_message sent) as [[|x t]|]; try discriminate.
      now injection Hsync as <-. }
    rewrite Hself in Hme. simpl in Hme.
    repeat split; try congruence.
    unfold Signal.handleEntry.
    rewrite Hdata, Hsync, Hp. exact Hin.
  - intros c g e msg ts Hdata Hsrc Hts Hreg.
    destruct (processInbound_delivers c g msg Hts Hreg) as [cbs [m [Hp [Hin Hc]]]].
    exists m.
    destruct (@processInbound_marks c g msg cbs (Signal.chat_of msg) m Hp Hin)
      as [Hme [Hbot _]].
    rewrite Hsrc, eqb_refl, orb_true_r in Hme.
    repeat split; try congruence.
    unfold Signal.handleEntry. rewrite Hdata, Hp.
    destruct (sync_inbound c e) as [smsg|]; [|exact Hin].
    destruct (processInbound c g smsg) as [cbs'|]; [|exact Hin].
    apply in_or_app. now left.
  - intros c g entry jid m. unfold Signal.handleEntry.
    destruct entry as [e|]; [|intros []].
    assert (Hdata : forall msg cbs,
               data_inbound e = Some msg ->
               processInbound c g msg = Some cbs ->
               In (OnMessage jid m) cbs ->
               is_from_me m = eqb (sender m) (Signal.account c) /\
               is_bot_message m = is_from_me m).
    { intros msg cbs Hd Hp Hin.
      destruct (@processInbound_marks c g msg cbs jid m Hp Hin) as [Hme [Hbot Hs]].
      assert (Hno : Signal.in_isFromMe msg = false).
      { unfold Signal.data_inbound in Hd.
        destruct (Signal.dataMessage e) as [dm|]; try discriminate.
        destruct (Signal.dm_message dm) as [[|x t]|]; try discriminate.
        now injection Hd as <-. }
      rewrite Hno in Hme. simpl in Hme. rewrite Hs. auto. }
    assert (Hsync : forall msg cbs,
               sync_inbound c e = Some msg ->
               processInbound c g msg = Some cbs ->
               In (OnMessage jid m) cbs ->
               is_from_me m = eqb (sender m) (Signal.account c) /\
               is_bot_message m = is_from_me m).
    { intros msg cbs Hd Hp Hin.
      destruct (@processInbound_marks c g msg cbs jid m Hp Hin) as [Hme [Hbot Hs]].
      assert (Hacc : Signal.in_isFromMe msg = true /\
                     Signal.in_source msg = Signal.account c).
      { unfold Signal.sync_inbound in Hd.
        destruct (Signal.syncMessage e) as [[sent|]|]; try discriminate.
        destruct (Signal.sm_message sent) as [[|x t]|]; try discriminate.
        injection Hd as <-. auto. }
      destruct Hacc as [Hyes Hsrc].
      rewrite Hyes in Hme. simpl in Hme.
      rewrite Hs, Hsrc, eqb_refl. auto. }
    destruct (data_inbound e) as [dmsg|] eqn:Ed.
    + destruct (processInbound c g dmsg) as [cbs|] eqn:Ep; [|intros []].
      destruct (sync_inbound c e) as [smsg|] eqn:Es.
      * destruct (processInbound c g smsg) as [cbs'|] eqn:Ep'; simpl.
        -- intros Hin. apply in_app_or in Hin as [Hin|Hin]; eauto.
        -- eauto.
      * simpl. eauto.
    + destruct (sync_inbound c e) as [smsg|] eqn:Es.
      * destruct (processInbound c g smsg) as [cbs'|] eqn:Ep'; simpl.
        -- eauto.
        -- intros [].
      * intros [].
Qed.

End Inbound.


(** The amended C2 at work: the bot's own post in a registered Slack
    channel invokes no callback, and the sync message of the Signal
    example reaches on-message marked as the bot's own. *)
Lemma self_echo_at_the_boundary_witness :
  Slack.on_message_event iso_of_ts workspace one_channel connected_bot own_post
    = (connected_bot, [lit "slack:channel:C1"], [], []) /\
  exists m,
    In (OnMessage (lit "sig:+15550001") m)
       (fst (Signal.handleEntry iso_1000 decimal_1000 0%Z own_account
               own_chat (Some sync_note))) /\
    content m = lit "hello" /\ is_from_me m = true /\ is_bot_message m = true.
Proof.
  split.
  - apply (proj1 (self_echo_at_the_boundary iso_of_ts iso_1000 decimal_1000
                    0%Z)) with (u := lit "U0BOT"); reflexivity.
  - apply (proj1 (proj2 (self_echo_at_the_boundary iso_of_ts iso_1000
                           decimal_1000 0%Z))
             own_account own_chat sync_note
             {| Signal.in_source := lit "+15550001";
                Signal.in_sourceName := None;
                Signal.in_message := lit "hello";
                Signal.in_timestamp := 1000%Z;
                Signal.in_groupId := None;
                Signal.in_isFromMe := true |}
             (lit "1970-01-01T00:00:01.000Z")); reflexivity.
Defined.

End InboundFacts.

(* ================================================================== *)
(** * Outbound: the offline queue and failed sends *)
(* ================================================================== *)

Module OutboundFacts.
Import JS JSFacts Types Channel ChannelScenarios.

(** The request of [sendViaRpc] carries a message. *)
Lemma send_request_is_send (id : nat) (jid text : jsstring) :
  is_send (ToSignal id (Signal.send_request jid text)) = true.
Proof.
  unfold Signal.send_request.
  now destruct (startsWith (lit "sig:group:") jid).
Qed.

(** The requests of a drain all carry messages. *)
Lemma filter_numbered_sends (q : list Signal.queued) :
  forall id,
    filter is_send (numbered id (map request_of q))
    = numbered id (map request_of q).
Proof.
  induction q as [|item q IH]; intros id; cbn [map numbered filter];
    [reflexivity|].
  unfold request_of at 1. rewrite send_request_is_send.
  now rewrite IH.
Qed.

(** When every send of the drain succeeds, the queue is emptied front to
    back. *)
Lemma drain_in_order (d : Signal.daemon) (q : list Signal.queued) :
  forall id,
    (forall k item, nth_error q k = Some item ->
        Signal.sent_ok (d (S (id + k)) (request_of item)) = true) ->
    exists calls,
      Signal.drain d id q = ([], id + length q, calls, false) /\
      map (fun x => ToSignal (fst x) (snd x)) calls
      = numbered (S id) (map request_of q).
Proof.
  induction q as [|item q IH]; intros id Hok; simpl.
  - exists []. now rewrite Nat.add_0_r.
  - pose proof (Hok 0 item eq_refl) as H0.
    rewrite Nat.add_0_r in H0. unfold request_of in H0. rewrite H0.
    destruct (IH (S id)) as [calls [Hd Hc]].
    { intros k it Hk. specialize (Hok (S k) it Hk).
      now rewrite Nat.add_succ_r in Hok. }
    rewrite Hd. eexists. split.
    + now rewrite Nat.add_succ_r.
    + simpl. now rewrite Hc.
Qed.


(** A successful connect drains the queue front to back. *)
Lemma connect_drains (t : transport) (c : Signal.SignalChannel) :
  Signal.flushing c = false ->
  signal_daemon t (S (Signal.rpcId c)) Signal.Version = Signal.Value ->
  (forall k item,
      nth_error (Signal.outgoingQueue c) k = Some item ->
      Signal.sent_ok
        (signal_daemon t (S (S (Signal.rpcId c) + k)) (request_of item))
      = true) ->
  ended (connect t (SignalOf c)) = Returned /\
  isConnected (after (connect t (SignalOf c))) = true /\
  pending (after (connect t (SignalOf c))) = [] /\
  sends (connect t (SignalOf c))
  = numbered (S (S (Signal.rpcId c))) (map request_of (Signal.outgoingQueue c)).
Proof.
  intros Hfl Hver Hok.
  unfold connect, Signal.connect, sends, requests, ended, after, pending,
    isConnected.
  rewrite Hver. unfold Signal.flushOutgoingQueue.
  cbn [Signal.set_connected Signal.set_queue Signal.flushing
       Signal.outgoingQueue Signal.rpcId].
  rewrite Hfl. cbn [orb].
  destruct (Signal.outgoingQueue c) as [|item q] eqn:Hq.
  - repeat split.
  - destruct (drain_in_order (signal_daemon t) (item :: q)
                (S (Signal.rpcId c)) Hok) as [calls [Hd Hc]].
    rewrite Hd. cbn. rewrite Hc.
    repeat split.
    change (ToSignal (S (S (Signal.rpcId c)))
              (Signal.send_request (Signal.q_jid item) (Signal.q_text item))
            :: numbered (S (S (S (Signal.rpcId c)))) (map request_of q))
      with (numbered (S (S (Signal.rpcId c))) (map request_of (item :: q))).
    apply filter_numbered_sends.
Qed.

(** A send while disconnected only lengthens the queue. *)
Lemma send_offline (t : transport) (c : Signal.SignalChannel)
  (jid text : jsstring) :
  Signal.connected c = false ->
  sendMessage t (SignalOf c) jid text
  = (SignalOf
       (Signal.set_queue
          (Signal.outgoingQueue c
           ++ [{| Signal.q_jid := jid; Signal.q_text := text |}])
          (Signal.rpcId c) c),
     Returned, []).
Proof.
  intros H. unfold sendMessage, Signal.sendMessage. now rewrite H.
Qed.

(** C3, amended. The Signal channel queues a send made while it is not
    connected and asks nothing of the transport; on the next successful
    connect, when every send of the drain succeeds, the queue is sent
    front to back and left empty. In particular three sends made while
    disconnected, on a channel whose queue was empty, become exactly
    three transport sends in the order they were made. The Slack channel
    keeps no queue: each of its sends goes to the transport at once. *)
Theorem offline_queue_is_fifo (t : transport) (c : Signal.SignalChannel) :
  (forall jid text,
      Signal.connected c = false ->
      pending (after (sendMessage t (SignalOf c) jid text))
        = pending (SignalOf c) ++ [(jid, text)] /\
      requests (sendMessage t (SignalOf c) jid text) = [] /\
      ended (sendMessage t (SignalOf c) jid text) = Returned /\
      isConnected (after (sendMessage t (SignalOf c) jid text)) = false) /\
  (Signal.flushing c = false ->
   signal_daemon t (S (Signal.rpcId c)) Signal.Version = Signal.Value ->
   (forall k item,
       nth_error (Signal.outgoingQueue c) k = Some item ->
       Signal.sent_ok
         (signal_daemon t (S (S (Signal.rpcId c) + k)) (request_of item))
       = true) ->
   ended (connect t (SignalOf c)) = Returned /\
   isConnected (after (connect t (SignalOf c))) = true /\
   pending (after (connect t (SignalOf c))) = [] /\
   sends (connect t (SignalOf c))
   = numbered (S (S (Signal.rpcId c)))
       (map request_of (Signal.outgoingQueue c))) /\
  (forall ja ta jb tb jc tc,
      Signal.connected c = false ->
      Signal.outgoingQueue c = [] ->
      Signal.flushing c = false ->
      (forall id call, signal_daemon t id call = Signal.Value) ->
      sends
        (connect t
           (after (sendMessage t
              (after (sendMessage t
                 (after (sendMessage t (SignalOf c) ja ta)) jb tb)) jc tc)))
      = [ToSignal (2 + Signal.rpcId c) (Signal.send_request ja ta);
         ToSignal (3 + Signal.rpcId c) (Signal.send_request jb tb);
         ToSignal (4 + Signal.rpcId c) (Signal.send_request jc tc)]) /\
  (forall s jid text,
      pending (after (sendMessage t (SlackOf s) jid text)) = [] /\
      requests (sendMessage t (SlackOf s) jid text) <> []).
Proof.
  split; [|split; [|split]].
  - intros jid text Hoff. rewrite send_offline by assumption.
    unfold pending, after, requests, ended, isConnected. cbn.
    rewrite map_app. repeat split. assumption.
  - apply connect_drains.
  - intros ja ta jb tb jc tc Hoff Hq Hfl Hall.
    rewrite (send_offline t c ja ta Hoff). unfold after at 3. cbn [fst].
    rewrite send_offline by exact Hoff. unfold after at 2. cbn [fst].
    rewrite send_offline by exact Hoff. unfold after at 1. cbn [fst].
    match goal with |- sends (connect t (SignalOf ?c3)) = _ =>
      destruct (connect_drains t c3) as [_ [_ [_ Hs]]]
    end.
    + exact Hfl.
    + apply Hall.
    + intros k item _. now rewrite Hall.
    + rewrite Hs. cbn. rewrite Hq. reflexivity.
  - intros s jid text. unfold sendMessage, Slack.sendMessage.
    destruct (Slack.resolveChannelId (slack_api t) s jid)
      as [[s1 [channelId|]] calls] eqn:R.
    + destruct (Slack.post_message (slack_api t) channelId text);
        (split; [reflexivity|]); unfold requests, of_slack; cbn;
        rewrite map_app; intros H; apply app_eq_nil in H as [_ H];
        discriminate.
    + split; [reflexivity|]. unfold requests, of_slack. cbn.
      unfold Slack.resolveChannelId in R.
      destruct (startsWith (Slack.channelPrefix s) jid); [discriminate|].
      destruct (cache_get _ _) as [[|x cached]|];
        try discriminate;
        destruct (Slack.conversations_open _ _) as [[[|y dm]|]|];
        try discriminate; injection R as _ <-; discriminate.
Qed.


(** C3, as stated, fails. A Slack channel that is not connected queues
    nothing: the send goes to the transport at once. And on Signal the
    drain stops at the first send that fails: of three queued messages
    the first is attempted and lost, the other two stay queued and are
    not sent by this connect. *)
Lemma queue_is_not_universal :
  (isConnected fresh_slack = false /\
   requests (sendMessage steady fresh_slack (lit "slack:channel:C1") (lit "A"))
     = [ToSlack (Slack.PostMessage (lit "C1") (lit "A"))] /\
   pending (after (sendMessage steady fresh_slack (lit "slack:channel:C1")
                     (lit "A"))) = []) /\
  (pending (three_queued flaky)
     = [(lit "sig:+15550002", lit "A"); (lit "sig:+15550002", lit "B");
        (lit "sig:+15550002", lit "C")] /\
   ended (connect flaky (three_queued flaky)) = Returned /\
   sends (connect flaky (three_queued flaky))
     = [ToSignal 2 (Signal.SendToRecipient (lit "+15550002") (lit "A"))] /\
   pending (after (connect flaky (three_queued flaky)))
     = [(lit "sig:+15550002", lit "B"); (lit "sig:+15550002", lit "C")]).
Proof. repeat split. Qed.

(** The amended C3 at work: scenario S4 on the Signal channel. *)
Lemma offline_queue_is_fifo_witness :
  sends (connect steady (three_queued steady))
  = [ToSignal 2 (Signal.SendToRecipient (lit "+15550002") (lit "A"));
     ToSignal 3 (Signal.SendToRecipient (lit "+15550002") (lit "B"));
     ToSignal 4 (Signal.SendToRecipient (lit "+15550002") (lit "C"))].
Proof.
  apply (proj1 (proj2 (proj2 (offline_queue_is_fifo steady fresh_signal)))
           (lit "sig:+15550002") (lit "A") (lit "sig:+15550002") (lit "B")
           (lit "sig:+15550002") (lit "C")); reflexivity.
Defined.

(** C4, as stated, fails on Slack: when [chat.postMessage] is rejected,
    the send of a connected Slack channel raises to its caller and
    queues nothing. *)
Lemma slack_send_raises :
  isConnected connected_slack = true /\
  ended (sendMessage slack_outage connected_slack (lit "slack:channel:C1")
           (lit "A")) = Raised /\
  pending (after (sendMessage slack_outage connected_slack
                    (lit "slack:channel:C1") (lit "A"))) = [].
Proof. repeat split. Qed.

(** C4, amended. The send of the Signal channel never raises, and when a
    connected send attempt fails it puts the pair at the end of the
    queue. The send of the Slack channel raises when the chat's channel
    cannot be resolved or when [chat.postMessage] is rejected, and
    returns normally otherwise; it queues nothing. *)
Theorem failed_send_handling (t : transport) :
  (forall c jid text,
      ended (sendMessage t (SignalOf c) jid text) = Returned) /\
  (forall c jid text,
      Signal.connected c = true ->
      Signal.sent_ok
        (signal_daemon t (S (Signal.rpcId c)) (Signal.send_request jid text))
      = false ->
      pending (after (sendMessage t (SignalOf c) jid text))
        = pending (SignalOf c) ++ [(jid, text)] /\
      requests (sendMessage t (SignalOf c) jid text)
        = [ToSignal (S (Signal.rpcId c)) (Signal.send_request jid text)]) /\
  (forall s jid text,
      ended (sendMessage t (SlackOf s) jid text)
      = match Slack.resolveChannelId (slack_api t) s jid with
        | (_, Some channelId, _) =>
            if Slack.post_message (slack_api t) channelId text
            then Returned else Raised
        | (_, None, _) => Raised
        end /\
      pending (after (sendMessage t (SlackOf s) jid text)) = []).
Proof.
  split; [|split].
  - intros c jid text. unfold sendMessage, Signal.sendMessage.
    destruct (negb (Signal.connected c)); [reflexivity|].
    now destruct (Signal.sent_ok _).
  - intros c jid text Hon Hfail. unfold sendMessage, Signal.sendMessage.
    rewrite Hon, Hfail. unfold pending, after, requests. cbn.
    now rewrite map_app.
  - intros s jid text. unfold sendMessage, Slack.sendMessage.
    destruct (Slack.resolveChannelId (slack_api t) s jid)
      as [[s1 [channelId|]] calls].
    + now destruct (Slack.post_message (slack_api t) channelId text).
    + split; reflexivity.
Qed.

(** The amended C4 at work: a connected Signal channel whose daemon
    rejects the request keeps the message in its queue. *)
Lemma failed_send_handling_witness :
  pending
    (after (sendMessage slack_outage
              (after (connect steady (SignalOf fresh_signal)))
              (lit "sig:+15550002") (lit "A")))
  = [(lit "sig:+15550002", lit "A")].
Proof.
  apply (proj1 (proj1 (proj2 (failed_send_handling slack_outage))
           (Signal.set_connected true true
              (Signal.set_queue [] 1 fresh_signal))
           (lit "sig:+15550002") (lit "A") eq_refl eq_refl)).
Defined.

End OutboundFacts.

(* ================================================================== *)
(** * Patterns: what the matcher finds is a match *)
(* ================================================================== *)

Module RegexFacts.
Import JS RegexMeaning.

Lemma star_greedy_sound (p : unit16 -> bool) (k : cont) :
  forall s i x,
    star_greedy p k i s = Some x ->
    exists m rest, s = m ++ rest /\ forallb p m = true /\
                   k (i + length m) rest = Some x.
Proof.
  induction s as [|c s IH]; intros i x H; cbn [star_greedy] in H.
  - exists [], []. rewrite Nat.add_0_r. auto.
  - destruct (p c) eqn:Hp.
    + destruct (star_greedy p k (S i) s) as [y|] eqn:E.
      * injection H as <-. destruct (IH _ _ E) as [m [rest [-> [Hm Hk]]]].
        exists (c :: m), rest. cbn. rewrite Hp, Hm.
        rewrite Nat.add_succ_r. auto.
      * exists [], (c :: s). rewrite Nat.add_0_r. auto.
    + exists [], (c :: s). rewrite Nat.add_0_r. auto.
Qed.

Lemma star_lazy_sound (p : unit16 -> bool) (k : cont) :
  forall s i x,
    star_lazy p k i s = Some x ->
    exists m rest, s = m ++ rest /\ forallb p m = true /\
                   k (i + length m) rest = Some x.
Proof.
  induction s as [|c s IH]; intros i x H; cbn [star_lazy] in H.
  - destruct (k i []) as [y|] eqn:E; [|discriminate].
    exists [], []. rewrite Nat.add_0_r. injection H as <-. auto.
  - destruct (k i (c :: s)) as [y|] eqn:E.
    + injection H as <-. exists [], (c :: s). rewrite Nat.add_0_r. auto.
    + destruct (p c) eqn:Hp; [|discriminate].
      destruct (IH _ _ H) as [m [rest [-> [Hm Hk]]]].
      exists (c :: m), rest. cbn. rewrite Hp, Hm, Nat.add_succ_r. auto.
Qed.

(** The matcher is sound: what it accepts is a match, and the
    continuation accepted what follows. *)
Lemma rmatch_sound (r : regex) :
  forall i s k x,
    rmatch r i s k = Some x ->
    exists m rest, s = m ++ rest /\ matched r i m rest /\
                   k (i + length m) rest = Some x.
Proof.
  induction r as [|p|a IHa b IHb|a IHa b IHb|g p| |]; intros i s k x H;
    cbn [rmatch] in H.
  - exists [], s. cbn. rewrite Nat.add_0_r. auto.
  - destruct s as [|c s]; [discriminate|].
    destruct (p c) eqn:Hp; [|discriminate].
    exists [c], s. cbn. rewrite Nat.add_1_r. eauto.
  - apply IHa in H as [m1 [r1 [-> [Ha H]]]].
    apply IHb in H as [m2 [r2 [-> [Hb H]]]].
    exists (m1 ++ m2), r2. rewrite <- app_assoc, length_app, Nat.add_assoc.
    repeat split; auto. cbn. exists m1, m2. auto.
  - destruct (rmatch a i s k) as [y|] eqn:E.
    + injection H as <-. apply IHa in E as [m [rest [-> [Ha Hk]]]].
      exists m, rest. cbn. auto.
    + apply IHb in H as [m [rest [-> [Hb Hk]]]].
      exists m, rest. cbn. auto.
  - destruct g.
    + apply star_greedy_sound in H as [m [rest [-> [Hm Hk]]]]. eauto.
    + apply star_lazy_sound in H as [m [rest [-> [Hm Hk]]]]. eauto.
  - destruct (Nat.eqb_spec i 0) as [->|]; [|discriminate].
    exists [], s. cbn. auto.
  - destruct s; [|discriminate]. exists [], []. cbn. rewrite Nat.add_0_r. auto.
Qed.

(** The search, one step unfolded. *)
Lemma exec_eq (r : regex) (i : nat) (s : jsstring) :
  exec r i s =
  match rmatch r i s (fun _ rest => Some rest) with
  | Some rest => Some ([], firstn (length s - length rest) s, rest)
  | None =>
      match s with
      | [] => None
      | c :: s' =>
          match exec r (S i) s' with
          | Some (b, m, a) => Some (c :: b, m, a)
          | None => None
          end
      end
  end.
Proof. destruct s; reflexivity. Qed.

(** What the search reports: the three parts make up the input, the
    middle one is a match, and the pattern matches nowhere before it. *)
Lemma exec_sound (r : regex) :
  forall s i b m a,
    exec r i s = Some (b, m, a) ->
    s = b ++ m ++ a /\ matched r (i + length b) m a /\
    forall j, j < length b ->
         rmatch r (i + j) (skipn j s) (fun _ rest => Some rest) = None.
Proof.
  induction s as [|c s IH]; intros i b m a H; rewrite exec_eq in H;
    destruct (rmatch r i _ _) as [rest|] eqn:E.
  - injection H as <- <- <-.
    apply rmatch_sound in E as [m [rest' [Hs [Hm Hk]]]].
    injection Hk as <-. symmetry in Hs. apply app_eq_nil in Hs as [-> ->].
    cbn. rewrite Nat.add_0_r. repeat split; auto. intros j Hj. inversion Hj.
  - discriminate.
  - assert (Hb : b = [] /\ m = firstn (length (c :: s) - length rest) (c :: s)
                 /\ a = rest) by (injection H; auto).
    destruct Hb as (-> & -> & ->). clear H.
    apply rmatch_sound in E as [m [rest' [Hs [Hm Hk]]]].
    injection Hk as <-. rewrite Hs.
    rewrite length_app, Nat.add_sub, firstn_app, firstn_all, Nat.sub_diag.
    cbn [firstn]. rewrite app_nil_r. cbn [app length]. rewrite Nat.add_0_r.
    repeat split; auto. intros j Hj. inversion Hj.
  - destruct (exec r (S i) s) as [[[b' m'] a']|] eqn:E'; [|discriminate].
    injection H as <- <- <-.
    apply IH in E' as [-> [Hm Hno]].
    cbn [length app]. rewrite Nat.add_succ_r. repeat split; auto.
    intros [|j] Hj.
    + rewrite Nat.add_0_r. exact E.
    + cbn [skipn]. rewrite Nat.add_succ_r. apply Hno. lia.
Qed.

Lemma exec_none (r : regex) :
  forall s i,
    exec r i s = None ->
    forall j, j <= length s ->
         rmatch r (i + j) (skipn j s) (fun _ rest => Some rest) = None.
Proof.
  induction s as [|c s IH]; intros i H j Hj; rewrite exec_eq in H;
    destruct (rmatch r i _ _) eqn:E; try discriminate.
  - assert (j = 0) as -> by (simpl in Hj; lia). now rewrite Nat.add_0_r.
  - destruct (exec r (S i) s) as [[[b' m'] a']|] eqn:E'; [discriminate|].
    destruct j as [|j]; [now rewrite Nat.add_0_r|].
    cbn [skipn]. rewrite Nat.add_succ_r. apply (IH (S i) E'). simpl in Hj. lia.
Qed.

(** Every match of the global loop is a match of the pattern. *)
Lemma match_loop_sound (r : regex) :
  forall fuel i s m,
    In m (match_loop fuel r i s) -> exists j rest, matched r j m rest.
Proof.
  induction fuel as [|fuel IH]; intros i s m H; [contradiction|].
  cbn [match_loop] in H.
  destruct (exec r i s) as [[[b m'] a]|] eqn:E; [|contradiction].
  apply exec_sound in E as [_ [Hm _]].
  destruct m' as [|x m'].
  - destruct a as [|c a].
    + destruct H as [<-|[]]. eauto.
    + destruct H as [<-|H]; eauto.
  - destruct H as [<-|H]; eauto.
Qed.

End RegexFacts.

(* ================================================================== *)
(** * The mail intake: the URLs that are extracted *)
(* ================================================================== *)

Module UrlFacts.
Import JS JSFacts RegexMeaning RegexFacts EmailIntake UrlSpec.

(** ** The loop over the matches *)

Lemma collect_from_matches (matches : list jsstring) :
  forall seen u,
    In u (collect matches seen) ->
    (exists m, In m matches /\ u = replace_first TRAILING_PUNCTUATION [] m) /\
    MIN_URL_LENGTH <= length u /\
    existsb (fun p => test p u) REJECT_PATTERNS = false /\
    ~ In u seen.
Proof.
  induction matches as [|m rest IH]; intros seen u H; [contradiction|].
  cbn [collect] in H.
  set (url := replace_first TRAILING_PUNCTUATION [] m) in *.
  assert (Hrest : In u (collect rest seen) ->
            (exists m0, In m0 (m :: rest) /\
                        u = replace_first TRAILING_PUNCTUATION [] m0) /\
            MIN_URL_LENGTH <= length u /\
            existsb (fun p => test p u) REJECT_PATTERNS = false /\
            ~ In u seen).
  { intros Hin. destruct (IH _ _ Hin) as [[m0 [H0 H1]] H2].
    split; [exists m0; split; [now right | exact H1] | exact H2]. }
  destruct (Nat.ltb_spec (length url) MIN_URL_LENGTH) as [Hlen|Hlen]; [auto|].
  destruct (existsb (fun p => test p url) REJECT_PATTERNS) eqn:Hrej; [auto|].
  destruct (existsb (eqb url) seen) eqn:Hseen; [auto|].
  destruct H as [<-|H].
  - split; [exists m; split; [now left | reflexivity]|].
    repeat split; auto.
    intros Hin. assert (existsb (eqb url) seen = true); [|congruence].
    apply existsb_exists. exists url. split; [exact Hin | apply eqb_refl].
  - destruct (IH _ _ H) as [[m0 [H0 H1]] [H2 [H3 H4]]].
    split; [exists m0; split; [now right | exact H1]|].
    repeat split; auto. intros Hin. apply H4. now right.
Qed.

Lemma collect_NoDup (matches : list jsstring) :
  forall seen, NoDup (collect matches seen).
Proof.
  induction matches as [|m rest IH]; intros seen; cbn [collect];
    [constructor|].
  set (url := replace_first TRAILING_PUNCTUATION [] m).
  destruct (length url <? MIN_URL_LENGTH); [apply IH|].
  destruct (existsb (fun p => test p url) REJECT_PATTERNS); [apply IH|].
  destruct (existsb (eqb url) seen); [apply IH|].
  constructor; [|apply IH].
  intros Hin. apply collect_from_matches in Hin as [_ [_ [_ Hno]]].
  apply Hno. now left.
Qed.

(** When no reject pattern is found in a URL, each of them fails on
    it. *)
Lemma none_rejects (u : jsstring) :
  existsb (fun p => test p u) REJECT_PATTERNS = false ->
  forall p, In p REJECT_PATTERNS -> test p u = false.
Proof.
  intros H p Hp. destruct (test p u) eqn:E; [|reflexivity].
  assert (existsb (fun p => test p u) REJECT_PATTERNS = true); [|congruence].
  apply existsb_exists. eauto.
Qed.

(** X1: what [extractUrls] returns has no duplicates, and each URL is at
    least 15 units long and matches none of the reject patterns. *)
Theorem extracted_urls_are_filtered (text : jsstring) :
  NoDup (extractUrls text) /\
  forall u, In u (extractUrls text) ->
       MIN_URL_LENGTH <= length u /\
       forall p, In p REJECT_PATTERNS -> test p u = false.
Proof.
  split; [apply collect_NoDup|].
  intros u H. unfold extractUrls in H.
  apply collect_from_matches in H as [_ [Hlen [Hrej _]]].
  split; [exact Hlen|]. now apply none_rejects.
Qed.

(** ** The shape of a match *)

Lemma matched_text_ci (w : jsstring) :
  forall i m rest,
    matched (text_ci w) i m rest ->
    map ascii_upper m = map ascii_upper w.
Proof.
  induction w as [|a w IH]; intros i m rest H; cbn [text_ci matched] in H.
  - now subst m.
  - destruct H as [m1 [m2 [-> [[c [-> Hc]] H2]]]].
    apply IH in H2. cbn. rewrite H2. f_equal.
    unfold is_ci in Hc. now apply N.eqb_eq in Hc.
Qed.

(** A unit is its upper-case form or that form's lower-case letter. *)
Lemma ascii_upper_cases (c : unit16) :
  c = ascii_upper c \/ c = (ascii_upper c + 32)%N.
Proof.
  unfold ascii_upper.
  destruct ((97 <=? c) && (c <=? 122))%N eqn:E; [right|now left].
  apply andb_true_iff in E as [E1 E2].
  apply N.leb_le in E1. lia.
Qed.

Lemma units_of_letters (w m : jsstring) :
  map ascii_upper m = w ->
  forallb (fun a => url_unit a && url_unit (a + 32)) w = true ->
  forallb url_unit m = true.
Proof.
  revert w. induction m as [|c m IH]; intros w Hw Hall; [reflexivity|].
  destruct w as [|a w]; [discriminate|].
  cbn in Hw. injection Hw as Ha Hw. cbn in Hall.
  apply andb_true_iff in Hall as [Hc Hall].
  apply andb_true_iff in Hc as [Hc1 Hc2].
  cbn [forallb]. rewrite (IH w Hw Hall), andb_true_r.
  destruct (ascii_upper_cases c) as [E|E]; rewrite E, Ha; assumption.
Qed.

Lemma startsWith_prefix (p a b : jsstring) :
  startsWith p (a ++ b) = true -> length p <= length a ->
  startsWith p a = true.
Proof.
  revert a. induction p as [|x p IH]; intros a H Hlen; [reflexivity|].
  destruct a as [|y a]; [simpl in Hlen; lia|].
  cbn in *. apply andb_true_iff in H as [H1 H2].
  rewrite H1. apply IH; [exact H2 | lia].
Qed.

Lemma startsWith_more (p a b : jsstring) :
  startsWith p a = true -> startsWith p (a ++ b) = true.
Proof.
  intros H. apply startsWith_split in H. rewrite H, <- app_assoc.
  apply startsWith_app.
Qed.

(** A match of the URL pattern has a scheme and is made of units of the
    pattern's class. *)
Lemma url_match_shape (j : nat) (m rest : jsstring) :
  matched urlRegex j m rest ->
  has_scheme m = true /\ forallb url_unit m = true.
Proof.
  unfold urlRegex. cbn [matched opt plus].
  intros [m1 [t1 [-> [H1 [m2 [t2 [-> [H2 [m3 [m4 [-> [H3 H4]]]]]]]]]]]].
  destruct H4 as [b [more [-> [[c [-> Hc]] Hmore]]]].
  apply matched_text_ci in H1, H3.
  change (map ascii_upper (lit "http")) with (lit "HTTP") in H1.
  change (map ascii_upper (lit "://")) with (lit "://") in H3.
  assert (U1 : forallb url_unit m1 = true)
    by (apply (units_of_letters _ H1); reflexivity).
  assert (U3 : forallb url_unit m3 = true)
    by (apply (units_of_letters _ H3); reflexivity).
  destruct H2 as [[s [-> Hs]] | ->].
  - unfold is_ci in Hs. apply N.eqb_eq in Hs.
    change (ascii_upper 115) with 83%N in Hs.
    split.
    + unfold has_scheme. rewrite !map_app, H1, H3. cbn [map]. rewrite Hs.
      apply orb_true_iff. right. reflexivity.
    + rewrite !forallb_app, U1, U3. cbn [forallb]. rewrite Hc, Hmore.
      assert (Us : url_unit s = true).
      { destruct (ascii_upper_cases s) as [E|E]; rewrite E, Hs; reflexivity. }
      now rewrite Us.
  - split.
    + unfold has_scheme. rewrite !map_app, H1, H3. cbn [map app].
      apply orb_true_iff. left. reflexivity.
    + rewrite !forallb_app, U1, U3. cbn [forallb]. now rewrite Hc, Hmore.
Qed.

(** ** Trailing punctuation *)

Lemma star_greedy_all (p : unit16 -> bool) (k : cont) (x : jsstring) :
  forall s i,
    forallb p s = true ->
    k (i + length s) [] = Some x ->
    star_greedy p k i s = Some x.
Proof.
  induction s as [|c s IH]; intros i Hall Hk; cbn in *.
  - now rewrite Nat.add_0_r in Hk.
  - apply andb_true_iff in Hall as [Hc Hall]. rewrite Hc.
    rewrite (IH (S i) Hall); [reflexivity|].
    now rewrite Nat.add_succ_r in Hk.
Qed.

(** Where only punctuation is left, the pattern matches. *)
Lemma trailing_matches (i : nat) (s : jsstring) :
  s <> [] -> forallb punctuation s = true ->
  rmatch TRAILING_PUNCTUATION i s (fun _ rest => Some rest) = Some [].
Proof.
  intros Hne Hall. destruct s as [|c s]; [contradiction|].
  cbn [forallb] in Hall. apply andb_true_iff in Hall as [Hc Hall].
  unfold TRAILING_PUNCTUATION, plus. cbn [rmatch].
  unfold punctuation in Hc, Hall. rewrite Hc.
  now apply star_greedy_all.
Qed.

(** After the strip nothing of the class is left at the end. *)
Lemma stripped_end (m v : jsstring) (c : unit16) :
  replace_first TRAILING_PUNCTUATION [] m = v ++ [c] ->
  punctuation c = false.
Proof.
  unfold replace_first. intros H.
  destruct (punctuation c) eqn:Hc; [exfalso|reflexivity].
  destruct (exec TRAILING_PUNCTUATION 0 m) as [[[b pm] a]|] eqn:E.
  - cbn [app] in H.
    apply exec_sound in E as [Hm [Hmatch Hno]].
    unfold TRAILING_PUNCTUATION, plus in Hmatch. cbn [matched] in Hmatch.
    destruct Hmatch
      as [m1 [m2 [-> [[x [more [-> [[y [-> Hy]] Hmore]]]] [-> ->]]]]].
    rewrite !app_nil_r in *. subst b.
    assert (Hn : rmatch TRAILING_PUNCTUATION (0 + length v)
                   (skipn (length v) m) (fun _ rest => Some rest) = None).
    { apply Hno. rewrite length_app. cbn. lia. }
    rewrite Hm, <- app_assoc, skipn_app, skipn_all, Nat.sub_diag in Hn.
    cbn [skipn app] in Hn.
    rewrite trailing_matches in Hn; [discriminate|discriminate|].
    cbn [forallb]. unfold punctuation in *. now rewrite Hc, Hy, Hmore.
  - assert (Hn : rmatch TRAILING_PUNCTUATION (0 + length v)
                   (skipn (length v) m) (fun _ rest => Some rest) = None).
    { apply (exec_none _ _ _ E). rewrite H, length_app. cbn. lia. }
    rewrite H, skipn_app, skipn_all, Nat.sub_diag in Hn. cbn [skipn app] in Hn.
    rewrite trailing_matches in Hn; [discriminate|discriminate|].
    cbn [forallb]. now rewrite Hc.
Qed.

(** The strip keeps a beginning of the text. *)
Lemma stripped_prefix (m : jsstring) :
  exists t, m = replace_first TRAILING_PUNCTUATION [] m ++ t.
Proof.
  unfold replace_first.
  destruct (exec TRAILING_PUNCTUATION 0 m) as [[[b pm] a]|] eqn:E.
  - apply exec_sound in E as [Hm [Hmatch _]].
    unfold TRAILING_PUNCTUATION in Hmatch. cbn [matched] in Hmatch.
    destruct Hmatch as [m1 [m2 [-> [_ [-> ->]]]]].
    exists m1. rewrite Hm. now rewrite !app_nil_r.
  - exists []. now rewrite app_nil_r.
Qed.

(** What is pushed on the results is the beginning of a match of the URL
    pattern, and long enough to hold its scheme. *)
Lemma extracted_from_match (text u : jsstring) :
  In u (extractUrls text) ->
  exists m t, m = u ++ t /\
    has_scheme m = true /\ forallb url_unit m = true /\
    u = replace_first TRAILING_PUNCTUATION [] m /\
    MIN_URL_LENGTH <= length u.
Proof.
  intros H. apply collect_from_matches in H as [[m [Hm Hu]] [Hlen _]].
  apply match_loop_sound in Hm as [j [rest Hm]].
  apply url_match_shape in Hm as [Hs Hall].
  destruct (stripped_prefix m) as [t Ht]. rewrite <- Hu in Ht.
  exists m, t. repeat split; assumption.
Qed.

Lemma scheme_of_prefix (u t : jsstring) :
  has_scheme (u ++ t) = true -> MIN_URL_LENGTH <= length u ->
  has_scheme u = true.
Proof.
  unfold has_scheme, MIN_URL_LENGTH. rewrite map_app. intros Hs Hlen.
  apply orb_true_iff in Hs as [Hs|Hs]; apply orb_true_iff; [left|right];
    (eapply startsWith_prefix; [exact Hs|]); rewrite length_map;
    cbn; lia.
Qed.

(** X2: every URL that [extractUrls] returns starts with [http://] or
    [https://], holds no white space and none of the units the pattern
    excludes, and does not end in punctuation. *)
Theorem extracted_urls_are_well_formed (text u : jsstring) :
  In u (extractUrls text) ->
  has_scheme u = true /\
  forallb url_unit u = true /\
  forall v c, u = v ++ [c] -> punctuation c = false.
Proof.
  intros H.
  destruct (extracted_from_match _ _ H) as [m [t [-> [Hs [Hall [Hu Hlen]]]]]].
  split; [|split].
  - now apply (scheme_of_prefix _ _ Hs).
  - rewrite forallb_app in Hall.
    now apply andb_true_iff in Hall as [Hall _].
  - intros v c Hv. rewrite Hv in Hu. symmetry in Hu.
    now apply stripped_end in Hu.
Qed.

End UrlFacts.

Module UrlFound.
Import JS JSFacts RegexMeaning RegexFacts EmailIntake UrlSpec UrlFacts.

Local Abbreviation k0 := (fun (_ : nat) (rest : jsstring) => Some rest).

(** A literal under the [i] flag matches where the input starts with it
    in either case. *)
Lemma rmatch_text_ci (w : jsstring) :
  forall s i k,
    rmatch (text_ci w) i s k
    = if startsWith_ci w s then k (i + length w) (skipn (length w) s)
      else None.
Proof.
  unfold startsWith_ci.
  induction w as [|a w IH]; intros s i k; cbn [text_ci rmatch].
  - cbn. now rewrite Nat.add_0_r.
  - destruct s as [|c s]; [reflexivity|].
    cbn [map startsWith length skipn]. unfold is_ci at 1.
    rewrite (N.eqb_sym (ascii_upper a)).
    destruct (N.eqb (ascii_upper c) (ascii_upper a)); [|reflexivity].
    cbn [andb]. rewrite IH. now rewrite Nat.add_succ_r.
Qed.

Lemma rmatch_text_ci_app (w m rest : jsstring) (i : nat) (k : cont) :
  map ascii_upper m = map ascii_upper w ->
  rmatch (text_ci w) i (m ++ rest) k = k (i + length m) rest.
Proof.
  intros H. rewrite rmatch_text_ci. unfold startsWith_ci.
  assert (Hl : length w = length m).
  { rewrite <- (length_map ascii_upper w), <- H. apply length_map. }
  rewrite map_app, H, startsWith_app, Hl.
  now rewrite skipn_app, skipn_all, Nat.sub_diag.
Qed.

(** The greedy star runs to the first unit outside its class. *)
Lemma star_greedy_stop (p : unit16 -> bool) (x post : jsstring) :
  forallb p x = true ->
  (forall c post', post = c :: post' -> p c = false) ->
  forall i, star_greedy p k0 i (x ++ post) = Some post.
Proof.
  intros Hx Hpost. induction x as [|c x IH]; intros i.
  - cbn [app]. destruct post as [|c post']; [reflexivity|].
    cbn [star_greedy]. now rewrite (Hpost c post' eq_refl).
  - cbn [forallb] in Hx. apply andb_true_iff in Hx as [Hc Hx].
    cbn [app star_greedy]. rewrite Hc. now rewrite (IH Hx).
Qed.

(** The parts of a text with a scheme. *)
Lemma scheme_split (u : jsstring) :
  has_scheme u = true ->
  exists m1 ms m3 body,
    u = m1 ++ ms ++ m3 ++ body /\
    map ascii_upper m1 = lit "HTTP" /\
    map ascii_upper m3 = lit "://" /\
    (ms = [] \/ exists s, ms = [s] /\ ascii_upper s = 83%N).
Proof.
  unfold has_scheme. intros H. apply orb_true_iff in H as [H|H].
  - apply startsWith_split in H.
    change (length (lit "HTTP://")) with 7 in H.
    exists (firstn 4 u), [], (firstn 3 (skipn 4 u)), (skipn 7 u).
    repeat split.
    + cbn [app]. rewrite <- (firstn_skipn 4 u) at 1. f_equal.
      rewrite <- (firstn_skipn 3 (skipn 4 u)) at 1. f_equal.
      now rewrite skipn_skipn.
    + rewrite <- firstn_map, H. reflexivity.
    + rewrite <- firstn_map, <- skipn_map, H. reflexivity.
    + now left.
  - apply startsWith_split in H.
    change (length (lit "HTTPS://")) with 8 in H.
    destruct (skipn 4 u) as [|s t] eqn:E.
    { apply (f_equal (skipn 4)) in H.
      rewrite (skipn_map ascii_upper 4 u), E in H. discriminate. }
    exists (firstn 4 u), [s], (firstn 3 t), (skipn 3 t).
    assert (Hs : map ascii_upper (s :: t)
                 = lit "S://" ++ skipn 8 (map ascii_upper u)).
    { rewrite <- E, <- (skipn_map ascii_upper 4 u), H at 1. reflexivity. }
    cbn [map] in Hs. injection Hs as Hs Ht.
    repeat split.
    + rewrite <- (firstn_skipn 4 u) at 1. f_equal. rewrite E.
      cbn [app]. f_equal. now rewrite firstn_skipn.
    + rewrite <- firstn_map, H. reflexivity.
    + rewrite <- firstn_map, Ht. reflexivity.
    + right. now exists s.
Qed.

(** The URL pattern matches a URL up to the unit that ends it. *)
Lemma url_matches (u post : jsstring) (i : nat) :
  has_scheme u = true ->
  forallb url_unit u = true ->
  8 < length u ->
  (forall c post', post = c :: post' -> url_unit c = false) ->
  rmatch urlRegex i (u ++ post) k0 = Some post.
Proof.
  intros Hs Hall Hlen Hpost.
  destruct (@scheme_split _ Hs) as [m1 [ms [m3 [body [-> [H1 [H3 Hms]]]]]]].
  assert (L1 : length m1 = 4)
    by (rewrite <- (length_map ascii_upper m1), H1; reflexivity).
  assert (L3 : length m3 = 3)
    by (rewrite <- (length_map ascii_upper m3), H3; reflexivity).
  rewrite !forallb_app in Hall.
  apply andb_true_iff in Hall as [_ Hall].
  apply andb_true_iff in Hall as [_ Hall].
  apply andb_true_iff in Hall as [_ Hbody].
  assert (Hplus : forall j, rmatch (plus url_unit) j (body ++ post) k0
                            = Some post).
  { intros j. destruct body as [|b body].
    - exfalso. rewrite !length_app, L1, L3 in Hlen.
      destruct Hms as [->|[s [-> _]]]; cbn in Hlen; lia.
    - cbn [forallb] in Hbody. apply andb_true_iff in Hbody as [Hb Hbody].
      unfold plus. cbn [rmatch app]. rewrite Hb.
      now apply star_greedy_stop. }
  assert (Hrest : forall j, rmatch (text_ci (lit "://")) j
                              (m3 ++ body ++ post)
                              (fun i' s' => rmatch (plus url_unit) i' s' k0)
                            = Some post).
  { intros j. rewrite rmatch_text_ci_app by exact H3. apply Hplus. }
  unfold urlRegex. cbn [rmatch].
  rewrite <- !app_assoc.
  rewrite rmatch_text_ci_app by exact H1.
  unfold opt. cbn [rmatch].
  destruct Hms as [->|[s [-> Hs']]].
  - cbn [app]. destruct m3 as [|a m3']; [discriminate|].
    cbn [map] in H3. injection H3 as Ha H3.
    cbn [app]. unfold is_ci at 1. rewrite Ha.
    change (N.eqb 58 (ascii_upper 115)) with false. cbv iota.
    change (a :: m3' ++ body ++ post) with ((a :: m3') ++ body ++ post).
    apply Hrest.
  - cbn [app]. unfold is_ci at 1. rewrite Hs'.
    change (N.eqb 83 (ascii_upper 115)) with true. cbv iota.
    now rewrite Hrest.
Qed.

(** The search finds the first place where the pattern matches. *)
Lemma exec_at (r : regex) (s rest : jsstring) (pre : jsstring) :
  forall i,
    (forall j, j < length pre ->
          rmatch r (i + j) (skipn j (pre ++ s)) k0 = None) ->
    rmatch r (i + length pre) s k0 = Some rest ->
    exec r i (pre ++ s)
    = Some (pre, firstn (length s - length rest) s, rest).
Proof.
  induction pre as [|c pre IH]; intros i Hno Hyes; rewrite exec_eq.
  - cbn [app length] in *. rewrite Nat.add_0_r in Hyes. now rewrite Hyes.
  - pose proof (Hno 0 (Nat.lt_0_succ _)) as H0.
    rewrite Nat.add_0_r in H0. cbn [skipn] in H0. rewrite H0.
    cbn [app]. rewrite (IH (S i)).
    + reflexivity.
    + intros j Hj. specialize (Hno (S j)). cbn [skipn app] in Hno.
      rewrite Nat.add_succ_r in Hno. apply Hno. cbn [length]. lia.
    + cbn [length] in Hyes. now rewrite Nat.add_succ_r in Hyes.
Qed.

(** A text that does not start with [HTTP] does not either when [HTTP]
    follows it. *)
Lemma no_straddle (T R : jsstring) :
  T <> [] ->
  startsWith (lit "HTTP") T = false ->
  startsWith (lit "HTTP") (T ++ lit "HTTP" ++ R) = false.
Proof.
  intros Hne H.
  destruct T as [|a [|b [|c [|d T]]]]; [contradiction| | | |];
    cbn in *; rewrite ?andb_false_r; try reflexivity; assumption.
Qed.

(** Before a URL, the URL pattern matches nowhere in a text that does
    not hold [http]. *)
Lemma no_match_before (pre u post : jsstring) (i j : nat) (k : cont) :
  test (text_ci (lit "http")) pre = false ->
  has_scheme u = true ->
  j < length pre ->
  rmatch urlRegex i (skipn j (pre ++ u ++ post)) k = None.
Proof.
  intros Hpre Hs Hj. unfold test in Hpre.
  destruct (exec (text_ci (lit "http")) 0 pre) eqn:E; [discriminate|].
  pose proof (@exec_none _ _ _ E j (Nat.lt_le_incl _ _ Hj)) as Hn.
  rewrite rmatch_text_ci in Hn.
  destruct (startsWith_ci (lit "http") (skipn j pre)) eqn:Hc; [discriminate|].
  unfold urlRegex. cbn [rmatch]. rewrite rmatch_text_ci.
  replace (startsWith_ci (lit "http") (skipn j (pre ++ u ++ post)))
    with false; [reflexivity|].
  symmetry. rewrite skipn_app.
  replace (j - length pre) with 0 by lia. cbn [skipn].
  unfold startsWith_ci in *. rewrite !map_app.
  destruct (@scheme_split _ Hs) as [m1 [ms [m3 [body [-> [H1 _]]]]]].
  rewrite !map_app, H1, <- !app_assoc.
  apply no_straddle; [|exact Hc].
  intros Hnil. apply (f_equal (@length _)) in Hnil.
  rewrite length_map, length_skipn in Hnil. cbn in Hnil. lia.
Qed.

(** A text that does not end in punctuation is left as it is. *)
Lemma nothing_to_strip (u : jsstring) :
  (forall v c, u = v ++ [c] -> punctuation c = false) ->
  replace_first TRAILING_PUNCTUATION [] u = u.
Proof.
  intros H. unfold replace_first.
  destruct (exec TRAILING_PUNCTUATION 0 u) as [[[b m] a]|] eqn:E;
    [exfalso|reflexivity].
  apply exec_sound in E as [Hu [Hm _]].
  unfold TRAILING_PUNCTUATION, plus in Hm. cbn [matched] in Hm.
  destruct Hm as [m1 [m2 [-> [[x [more [-> [[y [-> Hy]] Hmore]]]] [-> ->]]]]].
  rewrite !app_nil_r in Hu.
  destruct (@exists_last _ ([y] ++ more)) as [v [c Hv]]; [discriminate|].
  assert (Hc : punctuation c = true).
  { assert (Hall : forallb punctuation ([y] ++ more) = true).
    { cbn [app forallb]. unfold punctuation. now rewrite Hy, Hmore. }
    rewrite Hv, forallb_app in Hall.
    apply andb_true_iff in Hall as [_ Hall]. cbn in Hall.
    now rewrite andb_true_r in Hall. }
  rewrite (H (b ++ v) c) in Hc; [discriminate|].
  rewrite Hu, Hv. now rewrite app_assoc.
Qed.

(** X3: a URL that stands before any other is found. When the text
    before a URL does not hold [http], and the URL starts with
    [http://] or [https://], is made of units of the pattern's class,
    does not end in punctuation, is at least 15 units long and matches no
    reject pattern, and the text ends after it or goes on with a unit
    outside the class, then [extractUrls] returns that URL first. *)
Theorem first_url_is_extracted (pre u post : jsstring) :
  test (text_ci (lit "http")) pre = false ->
  has_scheme u = true ->
  forallb url_unit u = true ->
  (forall v c, u = v ++ [c] -> punctuation c = false) ->
  MIN_URL_LENGTH <= length u ->
  (forall p, In p REJECT_PATTERNS -> test p u = false) ->
  (forall c post', post = c :: post' -> url_unit c = false) ->
  exists rest, extractUrls (pre ++ u ++ post) = u :: rest.
Proof.
  intros Hpre Hs Hall Hend Hlen Hrej Hpost.
  unfold MIN_URL_LENGTH in Hlen.
  assert (E : exec urlRegex 0 (pre ++ u ++ post) = Some (pre, u, post)).
  { rewrite (@exec_at urlRegex (u ++ post) post pre 0).
    - rewrite length_app, Nat.add_sub, firstn_app, firstn_all, Nat.sub_diag.
      cbn [firstn]. now rewrite app_nil_r.
    - intros j Hj. now apply no_match_before.
    - apply url_matches; try assumption. lia. }
  unfold extractUrls, match_all. cbn [match_loop]. rewrite E.
  destruct u as [|x u]; [cbn in Hlen; lia|].
  eexists. cbn [collect].
  rewrite (@nothing_to_strip _ Hend).
  destruct (Nat.ltb_spec (length (x :: u)) MIN_URL_LENGTH) as [H|_];
    [unfold MIN_URL_LENGTH in H; lia|].
  replace (existsb (fun p => test p (x :: u)) REJECT_PATTERNS) with false.
  - cbn [existsb]. reflexivity.
  - symmetry. apply not_true_is_false. intros H.
    apply existsb_exists in H as [p [Hp Ht]].
    rewrite (Hrej p Hp) in Ht. discriminate.
Qed.

End UrlFound.

(* ================================================================== *)
(** * The mail intake: what a poll asks for *)
(* ================================================================== *)

Module PollFacts.
Import JS JSFacts EmailIntake UrlSpec UrlFacts.

(** The inner loop asks the relay for URLs of its list only. *)
Lemma relay_urls_in (reply : nat -> relay_reply) (urls : list jsstring) :
  forall j a, In a (fst (relay_urls reply j urls)) ->
         exists u, a = RelayIntake u /\ In u urls.
Proof.
  induction urls as [|u urls IH]; intros j a; cbn [relay_urls].
  - intros [].
  - destruct (bookmarkViaRelay (reply j)).
    + specialize (IH (S j) a).
      destruct (relay_urls reply (S j) urls) as [acts failed].
      cbn [fst] in *. intros [<-|H].
      * exists u. split; [reflexivity|now left].
      * destruct (IH H) as [u' [-> Hu]]. exists u'. split; [reflexivity|now right].
    + cbn. intros [<-|[]]. exists u. split; [reflexivity|now left].
Qed.

Section Poll.

Variable decodeBase64Url : jsstring -> jsstring.

Local Abbreviation urls_of := (EmailIntake.urls_of decodeBase64Url).
Local Abbreviation process_message :=
  (EmailIntake.process_message decodeBase64Url).
Local Abbreviation process_from := (EmailIntake.process_from decodeBase64Url).
Local Abbreviation pollEmailIntake :=
  (EmailIntake.pollEmailIntake decodeBase64Url).
Local Abbreviation labels := (EmailIntake.labels decodeBase64Url).
Local Abbreviation extractBodyText :=
  (EmailIntake.extractBodyText decodeBase64Url).

(** What is asked for one message: the message once, then URLs of its
    text, then at most the label. *)
Lemma process_message_shape (w : world) (i : nat) (msg : GogMessage) :
  exists acts,
    process_message w i msg = GmailGet (id msg) :: acts /\
    gets acts = [] /\
    forall a, In a acts ->
         (exists u detail, a = RelayIntake u /\ fetched w i = Some detail /\
                           In u (extractUrls (extractBodyText detail))) \/
         (a = ThreadModify (threadId msg) /\ labels w i msg = true).
Proof.
  unfold EmailIntake.labels, EmailIntake.process_message, EmailIntake.urls_of.
  destruct (fetched w i) as [detail|].
  - pose proof (relay_urls_in (relayed w i)
                  (extractUrls (extractBodyText detail)) 0) as Hin.
    destruct (relay_urls (relayed w i) 0 _) as [acts failed].
    cbn [fst] in Hin.
    assert (Hg : gets acts = []).
    { clear -Hin. induction acts as [|a acts IH]; [reflexivity|].
      destruct (Hin a (or_introl eq_refl)) as [u [-> _]].
      cbn. apply IH. intros b Hb. apply Hin. now right. }
    destruct failed.
    + exists acts. repeat split; [exact Hg|].
      intros a Ha. left. destruct (Hin a Ha) as [u [-> Hu]].
      now exists u, detail.
    + exists (acts ++ [ThreadModify (threadId msg)]). repeat split.
      * unfold gets in *. rewrite flat_map_app, Hg. reflexivity.
      * intros a Ha. apply in_app_or in Ha as [Ha|[<-|[]]].
        -- left. destruct (Hin a Ha) as [u [-> Hu]]. now exists u, detail.
        -- right. split; [reflexivity|].
           cbn [existsb is_modify orb]. rewrite existsb_app. cbn.
           apply orb_true_r.
  - exists []. repeat split. intros a [].
Qed.

Lemma process_from_shape (w : world) (msgs : list GogMessage) :
  forall i,
    gets (process_from w i msgs) = map id msgs /\
    forall a, In a (process_from w i msgs) ->
         exists k msg, nth_error msgs k = Some msg /\
                       In a (process_message w (i + k) msg).
Proof.
  induction msgs as [|msg msgs IH]; intros i; cbn [EmailIntake.process_from].
  - split; [reflexivity|intros a []].
  - destruct (IH (S i)) as [Hg Hin].
    destruct (process_message_shape w i msg) as [acts [He [Ha _]]].
    split.
    + unfold gets in *. rewrite flat_map_app, Hg, He. cbn [flat_map app].
      now rewrite Ha.
    + intros a H. apply in_app_or in H as [H|H].
      * exists 0, msg. rewrite Nat.add_0_r. now split.
      * destruct (Hin a H) as [k [m [Hk Hm]]]. exists (S k), m.
        rewrite Nat.add_succ_r. now split.
Qed.

(** X4: a poll asks for the listing once and for each listed message
    once, in the order of the listing, and for nothing when the listing
    fails or is empty. It asks for the processed label only on threads
    of listed messages, and hands the relay only URLs that
    [extractUrls] found in the text of a listed message it could fetch:
    URLs that start with [http://] or [https://], are at least 15 units
    long and match no reject pattern. *)
Theorem poll_asks_only_for_the_listed (w : world) :
  (exists acts, pollEmailIntake w = GmailList :: acts /\
                ~ In GmailList acts /\
                gets acts = match listed w with
                            | Some msgs => map id msgs
                            | None => []
                            end) /\
  (forall t, In (ThreadModify t) (pollEmailIntake w) ->
        exists msgs i msg,
          listed w = Some msgs /\ nth_error msgs i = Some msg /\
          threadId msg = t /\ labels w i msg = true) /\
  (forall u, In (RelayIntake u) (pollEmailIntake w) ->
        (exists msgs i msg detail,
            listed w = Some msgs /\ nth_error msgs i = Some msg /\
            fetched w i = Some detail /\
            In u (extractUrls (extractBodyText detail))) /\
        has_scheme u = true /\
        MIN_URL_LENGTH <= length u /\
        forall p, In p REJECT_PATTERNS -> test p u = false).
Proof.
  assert (Hall : forall msgs a,
    In a (process_from w 0 msgs) ->
    exists i msg, nth_error msgs i = Some msg /\
      (a = GmailGet (id msg) \/
       (exists u detail, a = RelayIntake u /\ fetched w i = Some detail /\
                         In u (extractUrls (extractBodyText detail))) \/
       (a = ThreadModify (threadId msg) /\ labels w i msg = true))).
  { intros msgs a Ha.
    destruct (proj2 (process_from_shape w msgs 0) a Ha) as [k [msg [Hk Hm]]].
    exists k, msg. split; [exact Hk|]. cbn [Nat.add] in Hm.
    destruct (process_message_shape w k msg) as [acts [He [_ Hacts]]].
    rewrite He in Hm. destruct Hm as [<-|Hm]; [now left|right].
    now apply Hacts. }
  unfold EmailIntake.pollEmailIntake.
  destruct (listed w) as [[|m0 msgs]|] eqn:Hl.
  - split; [|split].
    + exists []. repeat split. intros [].
    + intros t [H|[]]. discriminate.
    + intros u [H|[]]. discriminate.
  - split; [|split].
    + eexists. split; [reflexivity|]. split.
      * intros Hin. destruct (Hall _ _ Hin) as [i [msg [_ [H|[H|H]]]]].
        -- discriminate.
        -- destruct H as [u [d [H _]]]. discriminate.
        -- destruct H as [H _]. discriminate.
      * apply (proj1 (process_from_shape w (m0 :: msgs) 0)).
    + intros t [H|H]; [discriminate|].
      destruct (Hall _ _ H) as [i [msg [Hi [E|[E|E]]]]].
      * discriminate.
      * destruct E as [u [d [E _]]]. discriminate.
      * destruct E as [E Hlab]. injection E as ->.
        now exists (m0 :: msgs), i, msg.
    + intros u [H|H]; [discriminate|].
      destruct (Hall _ _ H) as [i [msg [Hi [E|[E|E]]]]].
      * discriminate.
      * destruct E as [u' [d [E [Hf Hu]]]]. injection E as ->.
        split; [now exists (m0 :: msgs), i, msg, d|].
        destruct (extracted_from_match _ _ Hu) as [m [t [-> [Hs [_ [_ Hlen]]]]]].
        apply collect_from_matches in Hu as [_ [_ [Hrej _]]].
        split; [now apply (scheme_of_prefix _ _ Hs)|].
        split; [exact Hlen|]. now apply none_rejects.
      * destruct E as [E _]. discriminate.
  - split; [|split].
    + exists []. repeat split. intros [].
    + intros t [H|[]]. discriminate.
    + intros u [H|[]]. discriminate.
Qed.

End Poll.

End PollFacts.

(* ================================================================== *)
(** * The adapters: whose chat, and where a reply goes *)
(* ================================================================== *)

Module RoutingFacts.
Import JS JSFacts Types Routing.

(** X5: no chat id is owned by the Signal adapter and by a Slack adapter. *)
Theorem signal_and_slack_disjoint (toUpperCase : jsstring -> jsstring)
  (ns : option jsstring) (sc : Signal.SignalChannel) (jid : jsstring) :
  Signal.ownsJid sc jid && Slack.ownsJid toUpperCase (Slack.make ns) jid
  = false.
Proof.
  unfold Signal.ownsJid.
  destruct (startsWith (lit "sig:") jid) eqn:Hs; [|reflexivity].
  cbn [andb]. unfold Slack.ownsJid. cbn [Slack.make Slack.namespace Slack.prefix].
  apply startsWith_split in Hs. rewrite Hs.
  destruct (Slack.namespaced ns); reflexivity.
Qed.

Lemma configured_make (ns : option jsstring) : configured (Slack.make ns).
Proof. repeat split. Qed.

Lemma channelPrefix_prefix (c : Slack.SlackChannel) :
  configured c ->
  Slack.channelPrefix c = Slack.prefix c ++ lit "channel:".
Proof.
  intros [_ [Hp Hc]]. rewrite Hp, Hc. cbn [Slack.make Slack.prefix Slack.channelPrefix].
  destruct (Slack.namespaced (Slack.namespace c)); [|reflexivity].
  now rewrite <- !app_assoc.
Qed.

Lemma resolveUserName_keeps (w : Slack.api) (c : Slack.SlackChannel)
  (userId : jsstring) :
  let c' := fst (fst (Slack.resolveUserName w c userId)) in
  Slack.namespace c' = Slack.namespace c /\
  Slack.name c' = Slack.name c /\
  Slack.prefix c' = Slack.prefix c /\
  Slack.channelPrefix c' = Slack.channelPrefix c /\
  Slack.dmChannelCache c' = Slack.dmChannelCache c /\
  Slack.botUserId c' = Slack.botUserId c /\
  Slack.connected c' = Slack.connected c.
Proof.
  unfold Slack.resolveUserName.
  destruct (cache_get userId (Slack.userCache c)) as [[|x n]|];
    try destruct (Slack.users_info w userId); cbn; repeat split.
Qed.

(** A chat id made of a prefix of the adapter is the adapter's. *)
Lemma owns_prefixed (toUpperCase : jsstring -> jsstring)
  (c : Slack.SlackChannel) (rest : jsstring) :
  configured c ->
  Slack.namespaced (Slack.namespace c) = true ->
  Slack.ownsJid toUpperCase c (Slack.prefix c ++ rest) = true.
Proof.
  intros _ Hns. unfold Slack.ownsJid. rewrite Hns. apply startsWith_app.
Qed.

Lemma owns_channel (toUpperCase : jsstring -> jsstring)
  (c : Slack.SlackChannel) (rest : jsstring) :
  configured c ->
  Slack.ownsJid toUpperCase c (Slack.channelPrefix c ++ rest) = true.
Proof.
  intros Hc. rewrite (channelPrefix_prefix Hc), <- app_assoc.
  destruct (Slack.namespaced (Slack.namespace c)) eqn:Hns.
  - now apply owns_prefixed.
  - unfold Slack.ownsJid. rewrite Hns.
    destruct Hc as [_ [Hp _]]. rewrite Hp.
    cbn [Slack.make Slack.prefix]. rewrite Hns.
    rewrite startsWith_app. cbn [negb].
    change (startsWith (lit "slack:channel:") (lit "slack:" ++ lit "channel:" ++ rest))
      with (startsWith (lit "slack:channel:") (lit "slack:channel:" ++ rest)).
    rewrite startsWith_app. apply orb_true_r.
Qed.

Lemma owns_user (toUpperCase : jsstring -> jsstring)
  (c : Slack.SlackChannel) (x : unit16) (u : jsstring) :
  configured c ->
  Slack.namespaced (Slack.namespace c) = true \/ toUpperCase [x] = [x] ->
  Slack.ownsJid toUpperCase c (Slack.prefix c ++ x :: u) = true.
Proof.
  intros Hc H.
  destruct (Slack.namespaced (Slack.namespace c)) eqn:Hns.
  - now apply owns_prefixed.
  - destruct H as [H|H]; [discriminate|].
    unfold Slack.ownsJid. rewrite Hns.
    destruct Hc as [_ [Hp _]]. rewrite Hp.
    cbn [Slack.make Slack.prefix]. rewrite Hns.
    rewrite startsWith_app. cbn [negb].
    change 6 with (length (lit "slack:")).
    rewrite SlackFacts.charAt_after, H, eqb_refl. reflexivity.
Qed.

Section Listener.

Variable toUpperCase : jsstring -> jsstring.
Variable slackTsToIso : jsstring -> option jsstring.
Variable toISOString : Z -> option jsstring.
Variable numberToString : Z -> jsstring.
Variable now : Z.

(** When the listener invokes a callback, the event has a user, the
    callback is for the chat of the event, and the adapter afterwards is
    the one before with the direct-message channel and the user's name
    noted. *)
Lemma listener_callbacks (w : Slack.api) (h : Slack.host)
  (c : Slack.SlackChannel) (msg : Slack.message_event) (cb : callback) :
  In cb (snd (fst (Slack.on_message_event slackTsToIso w h c msg))) ->
  exists x u,
    Slack.user msg = Some (x :: u) /\
    chat_of_callback cb = slack_chat c msg (x :: u) /\
    fst (fst (fst (Slack.on_message_event slackTsToIso w h c msg))) =
      fst (fst (Slack.resolveUserName w
        (if eqb (Slack.channel_type msg) (lit "im")
         then Slack.set_dmChannelCache
                (cache_set (x :: u) (Slack.channel msg)
                   (Slack.dmChannelCache c)) c
         else c) (x :: u))).
Proof.
  unfold Slack.on_message_event, slack_chat.
  destruct (Slack.truthy (Slack.bot_id msg) || Slack.truthy (Slack.subtype msg));
    [intros []|].
  destruct (Slack.user msg) as [[|x u]|]; try (intros []).
  destruct (match Slack.botUserId c with
            | Some b => eqb (x :: u) b
            | None => false
            end); [intros []|].
  cbv zeta.
  set (isDm := eqb (Slack.channel_type msg) (lit "im")).
  destruct (Slack.resolveUserName w _ (x :: u)) as [[c2 name] calls] eqn:E.
  destruct (slackTsToIso (Slack.ts msg)) as [ts|]; [|intros []].
  set (chatJid := if isDm then _ else _).
  destruct (registered (Slack.registeredGroups h) chatJid) eqn:Hreg;
    [|destruct (Slack.onNewContact h) as [ask|];
      [destruct (ask _ _ _ _) as [answer g1]|]];
    cbn [fst snd]; intros Hin; exists x, u;
    (split; [reflexivity|]); (split; [|now rewrite E]);
    repeat match goal with
    | H : In _ (_ :: _) |- _ => destruct H as [<-|H]
    | H : In _ (_ ++ _) |- _ => apply in_app_or in H as [H|H]
    | H : In _ (if ?b then _ else _) |- _ => destruct b
    | H : In _ [] |- _ => destruct H
    end; reflexivity.
Qed.

Lemma configured_after (w : Slack.api) (c : Slack.SlackChannel)
  (userId channelId : jsstring) (dm : bool) :
  configured c ->
  configured
    (fst (fst (Slack.resolveUserName w
       (if dm
        then Slack.set_dmChannelCache
               (cache_set userId channelId (Slack.dmChannelCache c)) c
        else c) userId))).
Proof.
  intros Hc.
  set (c1 := if dm then _ else c).
  assert (H1 : configured c1) by (destruct dm; exact Hc).
  destruct (resolveUserName_keeps w c1 userId) as [Hn [Hm [Hp [Hcp _]]]].
  destruct H1 as [A [B C]]. unfold configured. now rewrite Hn, Hm, Hp, Hcp.
Qed.

(** X6: the chats of the callbacks an adapter makes are chats the adapter
    owns. On Signal this holds for every entry. On Slack it holds for the
    instance of a namespace; for the default instance it holds for
    channel messages, and for direct messages when upper-casing leaves
    the first unit of the user id as it is. *)
Theorem inbound_chats_are_owned :
  (forall (w : Slack.api) (h : Slack.host) (c : Slack.SlackChannel)
          (msg : Slack.message_event) (cb : callback),
      configured c ->
      (Slack.namespaced (Slack.namespace c) = true \/
       Slack.channel_type msg <> lit "im" \/
       exists x u, Slack.user msg = Some (x :: u) /\ toUpperCase [x] = [x]) ->
      In cb (snd (fst (Slack.on_message_event slackTsToIso w h c msg))) ->
      Slack.ownsJid toUpperCase c (chat_of_callback cb) = true) /\
  (forall (c : Signal.SignalChannel) (g : groups)
          (entry : Signal.SignalReceiveEntry) (cb : callback),
      In cb (fst (Signal.handleEntry toISOString numberToString now c g entry)) ->
      Signal.ownsJid c (chat_of_callback cb) = true).
Proof.
  split.
  - intros w h c msg cb Hc Hcase Hin.
    apply listener_callbacks in Hin as [x [u [Hu [-> _]]]].
    unfold slack_chat.
    destruct (eqb (Slack.channel_type msg) (lit "im")) eqn:Hdm.
    + apply owns_user; [exact Hc|].
      destruct Hcase as [H|[H|[x' [u' [Hu' H]]]]].
      * now left.
      * apply eqb_eq in Hdm. contradiction.
      * rewrite Hu in Hu'. injection Hu' as <- <-. now right.
    + now apply owns_channel.
  - intros c g entry cb. unfold Signal.handleEntry.
    assert (Hp : forall m cbs,
               Signal.processInbound toISOString numberToString c g m = Some cbs ->
               In cb cbs -> Signal.ownsJid c (chat_of_callback cb) = true).
    { intros m cbs. unfold Signal.processInbound.
      destruct (toISOString (Signal.in_timestamp m)); [|discriminate].
      intros [= <-] [<-|H].
      - cbn. now destruct (Signal.truthy (Signal.in_groupId m)).
      - destruct (registered g _); [|contradiction].
        destruct H as [<-|[]]. cbn.
        now destruct (Signal.truthy (Signal.in_groupId m)). }
    destruct entry as [e|]; [|intros []].
    destruct (Signal.data_inbound now e) as [dm|].
    + destruct (Signal.processInbound _ _ c g dm) as [cbs|] eqn:E1; [|intros []].
      destruct (Signal.sync_inbound now c e) as [sm|].
      * destruct (Signal.processInbound _ _ c g sm) as [cbs'|] eqn:E2; cbn.
        -- intros H. apply in_app_or in H as [H|H]; eauto.
        -- eauto.
      * cbn. eauto.
    + destruct (Signal.sync_inbound now c e) as [sm|]; [|intros []].
      destruct (Signal.processInbound _ _ c g sm) as [cbs'|] eqn:E2; cbn.
      * eauto.
      * intros [].
Qed.

(** X7: a reply finds its way without asking Slack. After the listener
    has handed a message to on-message, the adapter resolves the chat of
    that message to the channel the message came from, and makes no API
    request for it. For a direct message this needs the event to name
    its channel and the user id not to start with [channel:]. *)
Theorem reply_channel_is_known (w w' : Slack.api) (h : Slack.host)
  (c : Slack.SlackChannel) (msg : Slack.message_event)
  (jid : jsstring) (m : NewMessage) :
  configured c ->
  (Slack.channel_type msg = lit "im" ->
   Slack.channel msg <> [] /\
   forall u, Slack.user msg = Some u -> startsWith (lit "channel:") u = false) ->
  In (OnMessage jid m)
     (snd (fst (Slack.on_message_event slackTsToIso w h c msg))) ->
  let c' := fst (fst (fst (Slack.on_message_event slackTsToIso w h c msg))) in
  Slack.resolveChannelId w' c' jid = (c', Some (Slack.channel msg), []).
Proof.
  intros Hc Hdm Hin.
  destruct (listener_callbacks _ _ _ _ _ Hin) as [x [u [Hu [Hchat Hc']]]].
  cbn [chat_of_callback] in Hchat. cbv zeta. rewrite Hc'. subst jid.
  set (c1 := if eqb _ _ then _ else c).
  destruct (resolveUserName_keeps w c1 (x :: u))
    as [_ [_ [Hp [Hcp [Hcache _]]]]].
  set (c2 := fst (fst (Slack.resolveUserName w c1 (x :: u)))) in *.
  assert (Hp1 : Slack.prefix c1 = Slack.prefix c)
    by (subst c1; destruct (eqb _ _); reflexivity).
  assert (Hcp1 : Slack.channelPrefix c1 = Slack.channelPrefix c)
    by (subst c1; destruct (eqb _ _); reflexivity).
  unfold Slack.resolveChannelId, slack_chat.
  rewrite Hp, Hcp, Hcache, Hp1, Hcp1.
  destruct (eqb (Slack.channel_type msg) (lit "im")) eqn:Edm.
  - apply eqb_eq in Edm. destruct (Hdm Edm) as [Hne Hnc].
    specialize (Hnc _ Hu).
    rewrite (channelPrefix_prefix Hc).
    assert (Hns : startsWith (Slack.prefix c ++ lit "channel:")
                    (Slack.prefix c ++ x :: u) = false).
    { apply not_true_is_false. intros E.
      apply startsWith_iff in E as [t Ht]. rewrite <- app_assoc in Ht.
      apply app_inv_head in Ht. rewrite Ht, startsWith_app in Hnc.
      discriminate. }
    rewrite Hns. unfold slice. rewrite skipn_app, skipn_all, Nat.sub_diag.
    cbn [skipn app].
    subst c1.
    cbn [Slack.set_dmChannelCache Slack.dmChannelCache cache_set cache_get].
    rewrite eqb_refl. destruct (Slack.channel msg); [contradiction|reflexivity].
  - rewrite startsWith_app. unfold slice.
    now rewrite skipn_app, skipn_all, Nat.sub_diag.
Qed.

(** Taking a literal off the front of a string that starts with it. *)
Lemma remove_first_prefix (p s : jsstring) :
  Signal.remove_first p (p ++ s) = s.
Proof.
  unfold Signal.remove_first, replace_first.
  rewrite RegexFacts.exec_eq, InternalFacts.rmatch_text, startsWith_app.
  rewrite skipn_app, skipn_all, Nat.sub_diag. reflexivity.
Qed.

(** X8: a reply on Signal goes back where the message came from. The
    request that carries a text to the chat of an inbound message is
    addressed to the group of the message when it has one, and to its
    source otherwise (given that the source does not start with
    [group:]). *)
Theorem signal_reply_goes_back (c : Signal.SignalChannel) (g : groups)
  (msg : Signal.inbound) (cbs : list callback) (jid : jsstring)
  (m : NewMessage) (text : jsstring) :
  Signal.processInbound toISOString numberToString c g msg = Some cbs ->
  In (OnMessage jid m) cbs ->
  (Signal.truthy (Signal.in_groupId msg) = false ->
   startsWith (lit "group:") (Signal.in_source msg) = false) ->
  Signal.send_request jid text =
    match Signal.in_groupId msg with
    | Some (x :: gid) => Signal.SendToGroup (x :: gid) text
    | _ => Signal.SendToRecipient (Signal.in_source msg) text
    end.
Proof.
  unfold Signal.processInbound.
  destruct (toISOString (Signal.in_timestamp msg)) as [ts|]; [|discriminate].
  intros [= <-] [H|H] Hsrc; [discriminate|].
  destruct (registered g _); [|contradiction].
  destruct H as [H|[]].
  apply (f_equal chat_of_callback) in H. unfold chat_of_callback in H.
  subst jid. unfold Signal.send_request.
  assert (Hdirect : startsWith (lit "group:") (Signal.in_source msg) = false ->
            startsWith (lit "sig:group:") (lit "sig:" ++ Signal.in_source msg)
            = false).
  { intros Hs. apply not_true_is_false. intros E.
    apply startsWith_iff in E as [t Ht].
    change (lit "sig:group:") with (lit "sig:" ++ lit "group:") in Ht.
    rewrite <- app_assoc in Ht. apply app_inv_head in Ht.
    rewrite Ht, startsWith_app in Hs. discriminate. }
  destruct (Signal.in_groupId msg) as [[|x gid]|];
    cbn [Signal.truthy or_else] in *.
  - change (115%N :: 105%N :: 103%N :: 58%N :: Signal.in_source msg)
      with (lit "sig:" ++ Signal.in_source msg).
    rewrite (Hdirect (Hsrc eq_refl)). now rewrite remove_first_prefix.
  - change ((if startsWith (lit "sig:group:") (lit "sig:group:" ++ x :: gid)
            then Signal.SendToGroup
                   (Signal.remove_first (lit "sig:group:")
                      (lit "sig:group:" ++ x :: gid)) text
            else Signal.SendToRecipient
                   (Signal.remove_first (lit "sig:")
                      (lit "sig:group:" ++ x :: gid)) text)
           = Signal.SendToGroup (x :: gid) text).
    rewrite startsWith_app. now rewrite remove_first_prefix.
  - change (115%N :: 105%N :: 103%N :: 58%N :: Signal.in_source msg)
      with (lit "sig:" ++ Signal.in_source msg).
    rewrite (Hdirect (Hsrc eq_refl)). now rewrite remove_first_prefix.
Qed.

End Listener.
End RoutingFacts.

(* ================================================================== *)
(** * The adapters: queue, request ids and caches *)
(* ================================================================== *)

Module QueueFacts.
Import JS JSFacts Types Channel Routing.

(** The drain up to the first send that fails. *)
Lemma drain_stops (d : Signal.daemon) (q : list Signal.queued) :
  forall id k item,
    nth_error q k = Some item ->
    (forall j it, j < k -> nth_error q j = Some it ->
        Signal.sent_ok (d (S (id + j)) (request_of it)) = true) ->
    Signal.sent_ok (d (S (id + k)) (request_of item)) = false ->
    exists calls,
      Signal.drain d id q = (skipn (S k) q, S (id + k), calls, true) /\
      map (fun x => ToSignal (fst x) (snd x)) calls
      = numbered (S id) (map request_of (firstn (S k) q)).
Proof.
  induction q as [|x q IH]; intros id k item Hk Hok Hbad.
  - destruct k; discriminate.
  - destruct k as [|k].
    + injection Hk as ->. rewrite Nat.add_0_r in Hbad.
      cbn [Signal.drain]. unfold request_of in Hbad. rewrite Hbad.
      eexists. split; [now rewrite Nat.add_0_r|reflexivity].
    + cbn [Signal.drain].
      pose proof (Hok 0 x (Nat.lt_0_succ k) eq_refl) as H0.
      rewrite Nat.add_0_r in H0. unfold request_of in H0. rewrite H0.
      destruct (@IH (S id) k item Hk) as [calls [Hd Hc]].
      { intros j it Hj Hn. specialize (Hok (S j) it).
        rewrite Nat.add_succ_r in Hok. apply Hok; [lia|exact Hn]. }
      { now rewrite Nat.add_succ_r in Hbad. }
      rewrite Hd. eexists. split.
      * now rewrite Nat.add_succ_r.
      * cbn [map fst snd firstn numbered]. now rewrite Hc.
Qed.

(** X9: a queued message whose send fails during the drain is lost. When
    the send of the item at position [k] is the first of the drain to
    fail, connect still returns normally and leaves the channel
    connected; the items up to and including that one have been handed to
    the transport in order, the items after it are still queued in order,
    and the failing item is in neither place any more. *)
Theorem drain_failure_drops_item (t : transport) (c : Signal.SignalChannel)
  (k : nat) (item : Signal.queued) :
  Signal.flushing c = false ->
  signal_daemon t (S (Signal.rpcId c)) Signal.Version = Signal.Value ->
  nth_error (Signal.outgoingQueue c) k = Some item ->
  (forall j it, j < k -> nth_error (Signal.outgoingQueue c) j = Some it ->
      Signal.sent_ok
        (signal_daemon t (S (S (Signal.rpcId c) + j)) (request_of it)) = true) ->
  Signal.sent_ok
    (signal_daemon t (S (S (Signal.rpcId c) + k)) (request_of item)) = false ->
  ended (connect t (SignalOf c)) = Returned /\
  isConnected (after (connect t (SignalOf c))) = true /\
  pending (after (connect t (SignalOf c)))
  = skipn (S k) (pending (SignalOf c)) /\
  sends (connect t (SignalOf c))
  = numbered (S (S (Signal.rpcId c)))
      (map request_of (firstn (S k) (Signal.outgoingQueue c))).
Proof.
  intros Hfl Hver Hk Hok Hbad.
  unfold connect, Signal.connect, sends, requests, ended, after, pending,
    isConnected.
  rewrite Hver. unfold Signal.flushOutgoingQueue.
  cbn [Signal.set_connected Signal.set_queue Signal.flushing
       Signal.outgoingQueue Signal.rpcId].
  rewrite Hfl. cbn [orb].
  destruct (@drain_stops (signal_daemon t) (Signal.outgoingQueue c)
              (S (Signal.rpcId c)) k item Hk Hok Hbad) as [calls [Hd Hc]].
  destruct (Signal.outgoingQueue c) as [|x q] eqn:Hq.
  - destruct k; discriminate.
  - rewrite Hd.
    cbn [of_signal fst snd Signal.isConnected Signal.connected
         Signal.set_connected Signal.set_queue Signal.outgoingQueue
         filter is_send map].
    rewrite Hc. repeat split.
    + now rewrite <- skipn_map.
    + apply OutboundFacts.filter_numbered_sends.
Qed.

(** The ids of a drain. *)
Lemma drain_ids (d : Signal.daemon) (q : list Signal.queued) :
  forall id,
    map fst (snd (fst (Signal.drain d id q)))
    = seq (S id) (length (snd (fst (Signal.drain d id q)))) /\
    snd (fst (fst (Signal.drain d id q)))
    = id + length (snd (fst (Signal.drain d id q))).
Proof.
  induction q as [|x q IH]; intros id; cbn [Signal.drain].
  - cbn. split; [reflexivity|lia].
  - destruct (Signal.sent_ok _).
    + specialize (IH (S id)).
      destruct (Signal.drain d (S id) q) as [[[rest id'] calls] threw].
      cbn [fst snd map length seq] in *. destruct IH as [-> ->].
      split; [reflexivity|lia].
    + cbn. split; [reflexivity|lia].
Qed.

(** The ids of one call on the adapter. *)
Lemma signal_step_ids (d : Signal.daemon) (c : Signal.SignalChannel)
  (o : signal_op) :
  map fst (snd (signal_step d c o))
  = seq (S (Signal.rpcId c)) (length (snd (signal_step d c o))) /\
  Signal.rpcId (fst (signal_step d c o))
  = Signal.rpcId c + length (snd (signal_step d c o)).
Proof.
  assert (Hflush : forall c : Signal.SignalChannel,
    map fst (snd (Signal.flushOutgoingQueue d c))
    = seq (S (Signal.rpcId c)) (length (snd (Signal.flushOutgoingQueue d c)))
    /\ Signal.rpcId (fst (fst (Signal.flushOutgoingQueue d c)))
       = Signal.rpcId c + length (snd (Signal.flushOutgoingQueue d c))).
  { intros c0. unfold Signal.flushOutgoingQueue.
    destruct (Signal.flushing c0 || _).
    - cbn. split; [reflexivity|lia].
    - pose proof (drain_ids d (Signal.outgoingQueue c0) (Signal.rpcId c0)) as H.
      destruct (Signal.drain d (Signal.rpcId c0) (Signal.outgoingQueue c0))
        as [[[rest id'] calls] threw].
      cbn [fst snd Signal.set_queue Signal.rpcId] in *. exact H. }
  destruct o as [jid text| | |]; cbn [signal_step].
  - unfold Signal.sendMessage.
    destruct (negb (Signal.connected c)).
    + cbn. split; [reflexivity|lia].
    + destruct (Signal.sent_ok _); cbn; (split; [reflexivity|lia]).
  - unfold Signal.connect.
    destruct (d (S (Signal.rpcId c)) Signal.Version);
      try (cbn; split; [reflexivity|lia]).
    set (c1 := Signal.set_connected true _ _).
    specialize (Hflush c1).
    destruct (Signal.flushOutgoingQueue d c1) as [[c2 o] calls].
    cbn [fst snd map length seq Signal.set_connected Signal.rpcId] in *.
    destruct Hflush as [-> ->]. subst c1. cbn. split; [reflexivity|lia].
  - specialize (Hflush c).
    destruct (Signal.flushOutgoingQueue d c) as [[c2 o] calls].
    exact Hflush.
  - cbn. split; [reflexivity|lia].
Qed.

(** X10: the ids of the JSON-RPC requests count up by one. Over any
    sequence of sends, connects, flushes and disconnects, whatever the
    daemon answers, the requests carry the ids that follow the counter of
    the adapter, each once, and the counter ends at the last of them. *)
Theorem rpc_ids_count_up (d : Signal.daemon) (ops : list signal_op)
  (c : Signal.SignalChannel) :
  map fst (snd (signal_run d c ops))
  = seq (S (Signal.rpcId c)) (length (snd (signal_run d c ops))) /\
  Signal.rpcId (fst (signal_run d c ops))
  = Signal.rpcId c + length (snd (signal_run d c ops)) /\
  NoDup (map fst (snd (signal_run d c ops))).
Proof.
  assert (H : map fst (snd (signal_run d c ops))
    = seq (S (Signal.rpcId c)) (length (snd (signal_run d c ops))) /\
    Signal.rpcId (fst (signal_run d c ops))
    = Signal.rpcId c + length (snd (signal_run d c ops))).
  { revert c. induction ops as [|o ops IH]; intros c; cbn [signal_run].
    - cbn. split; [reflexivity|lia].
    - pose proof (signal_step_ids d c o) as Hs.
      destruct (signal_step d c o) as [c1 calls1].
      specialize (IH c1).
      destruct (signal_run d c1 ops) as [c2 calls2].
      cbn [fst snd] in *. destruct Hs as [Hs1 Hs2]. destruct IH as [I1 I2].
      rewrite map_app, length_app, seq_app, Hs1, I1, I2, Hs2.
      split; [reflexivity|lia]. }
  destruct H as [H1 H2]. repeat split; try assumption.
  rewrite H1. apply seq_NoDup.
Qed.

(** A name of a user that is not empty is not empty. *)
Lemma or_else_cons (a : option jsstring) (x : N) (u : jsstring) :
  exists y v, or_else a (x :: u) = y :: v.
Proof. destruct a as [[|y v]|]; cbn; eauto. Qed.

(** X11: what the Slack adapter has resolved it does not ask for again. A
    channel id that [resolveChannelId] returned is returned again
    without a request, whatever the API would answer then; so is the
    name that [resolveUserName] found for a user id that is not empty.
    A lookup that failed is not remembered: the id itself is returned and
    the adapter is as before. *)
Theorem slack_caches_answer (w w' : Slack.api) (c : Slack.SlackChannel) :
  (forall jid c1 channelId calls,
      Slack.resolveChannelId w c jid = (c1, Some channelId, calls) ->
      Slack.resolveChannelId w' c1 jid = (c1, Some channelId, [])) /\
  (forall x u c1 name calls,
      Slack.resolveUserName w c (x :: u) = (c1, name, calls) ->
      calls = [] \/ Slack.users_info w (x :: u) <> None ->
      Slack.resolveUserName w' c1 (x :: u) = (c1, name, [])) /\
  (forall userId c1 name calls,
      Slack.resolveUserName w c userId = (c1, name, calls) ->
      calls <> [] -> Slack.users_info w userId = None ->
      c1 = c /\ name = userId).
Proof.
  split; [|split].
  - intros jid c1 channelId calls. unfold Slack.resolveChannelId.
    destruct (startsWith (Slack.channelPrefix c) jid) eqn:Hp.
    + intros [= <- <- <-]. now rewrite Hp.
    + set (userId := slice _ jid).
      assert (Hopen : match Slack.conversations_open w userId with
        | Some (Some (x :: dmChannelId)) =>
            (Slack.set_dmChannelCache
               (cache_set userId (x :: dmChannelId) (Slack.dmChannelCache c)) c,
             Some (x :: dmChannelId), [Slack.ConversationsOpen userId])
        | _ => (c, None, [Slack.ConversationsOpen userId])
        end = (c1, Some channelId, calls) ->
        (if startsWith (Slack.channelPrefix c1) jid
         then (c1, Some (slice (length (Slack.channelPrefix c1)) jid), [])
         else match cache_get (slice (length (Slack.prefix c1)) jid)
                      (Slack.dmChannelCache c1) with
              | Some (x :: cached) => (c1, Some (x :: cached), [])
              | _ => match Slack.conversations_open w'
                             (slice (length (Slack.prefix c1)) jid) with
                     | Some (Some (x :: dmChannelId)) =>
                         (Slack.set_dmChannelCache
                            (cache_set (slice (length (Slack.prefix c1)) jid)
                               (x :: dmChannelId) (Slack.dmChannelCache c1)) c1,
                          Some (x :: dmChannelId),
                          [Slack.ConversationsOpen
                             (slice (length (Slack.prefix c1)) jid)])
                     | _ => (c1, None,
                             [Slack.ConversationsOpen
                                (slice (length (Slack.prefix c1)) jid)])
                     end
              end) = (c1, Some channelId, [])).
      { destruct (Slack.conversations_open w userId) as [[[|y dm]|]|];
          try discriminate.
        intros [= <- <- <-].
        cbn [Slack.set_dmChannelCache Slack.channelPrefix Slack.prefix
             Slack.dmChannelCache cache_set cache_get].
        rewrite Hp. fold userId. now rewrite eqb_refl. }
      destruct (cache_get userId (Slack.dmChannelCache c))
        as [[|y cached]|] eqn:Hc; try exact Hopen.
      intros [= <- <- <-]. rewrite Hp. fold userId. now rewrite Hc.
  - intros x u c1 name calls. unfold Slack.resolveUserName.
    destruct (cache_get (x :: u) (Slack.userCache c)) as [[|y cached]|] eqn:Hc.
    + destruct (Slack.users_info w (x :: u)) as [info|].
      * intros [= <- <- <-] _.
        cbn [Slack.set_userCache Slack.userCache cache_set cache_get].
        rewrite eqb_refl.
        destruct (or_else_cons (Slack.user_name info) x u) as [a [b ->]].
        destruct (or_else_cons (Slack.real_name info) a b) as [a' [b' ->]].
        destruct (or_else_cons (Slack.display_name info) a' b') as [a2 [b2 ->]].
        reflexivity.
      * intros [= <- <- <-] [H|H]; [discriminate|now elim H].
    + intros [= <- <- <-] _. now rewrite Hc.
    + destruct (Slack.users_info w (x :: u)) as [info|].
      * intros [= <- <- <-] _.
        cbn [Slack.set_userCache Slack.userCache cache_set cache_get].
        rewrite eqb_refl.
        destruct (or_else_cons (Slack.user_name info) x u) as [a [b ->]].
        destruct (or_else_cons (Slack.real_name info) a b) as [a' [b' ->]].
        destruct (or_else_cons (Slack.display_name info) a' b') as [a2 [b2 ->]].
        reflexivity.
      * intros [= <- <- <-] [H|H]; [discriminate|now elim H].
  - intros userId c1 name calls. unfold Slack.resolveUserName.
    destruct (cache_get userId (Slack.userCache c)) as [[|y cached]|].
    + intros H Hcalls Hinfo. rewrite Hinfo in H.
      injection H as <- <- _. now split.
    + intros [= _ _ <-] Hcalls. now elim Hcalls.
    + intros H Hcalls Hinfo. rewrite Hinfo in H.
      injection H as <- <- _. now split.
Qed.

End QueueFacts.

(* ================================================================== *)
(** * The adapters: the address of the daemon and what is delivered *)
(* ================================================================== *)

Module AdapterFacts.
Import JS JSFacts Types RegexMeaning RegexFacts Routing.

(** Stripping a run of one class at the end of a text: what is taken
    off is of the class, and what is left does not end in it. *)
Lemma strip_trailing (p : unit16 -> bool) (m : jsstring) :
  exists t,
    m = replace_first (Seq (plus p) Eol) [] m ++ t /\
    forallb p t = true /\
    forall v c, replace_first (Seq (plus p) Eol) [] m = v ++ [c] ->
           p c = false.
Proof.
  assert (Hall : forall i s, s <> [] -> forallb p s = true ->
            rmatch (Seq (plus p) Eol) i s (fun _ rest => Some rest) = Some []).
  { intros i s Hne Hs. destruct s as [|c s]; [contradiction|].
    cbn [forallb] in Hs. apply andb_true_iff in Hs as [Hc Hs].
    unfold plus. cbn [rmatch]. rewrite Hc.
    now apply UrlFacts.star_greedy_all. }
  unfold replace_first.
  destruct (exec (Seq (plus p) Eol) 0 m) as [[[b pm] a]|] eqn:E.
  - pose proof (exec_sound _ _ _ E) as [Hm [Hmatch Hno]].
    unfold plus in Hmatch. cbn [matched] in Hmatch.
    destruct Hmatch
      as [m1 [m2 [-> [[x [more [-> [[y [-> Hy]] Hmore]]]] [-> ->]]]]].
    rewrite !app_nil_r in *. exists ([y] ++ more). cbn [app] in *.
    split; [exact Hm|]. split; [cbn; now rewrite Hy, Hmore|].
    intros v c Hv. apply not_true_is_false. intros Hc.
    assert (Hn : rmatch (Seq (plus p) Eol) (0 + length v)
                   (skipn (length v) m) (fun _ rest => Some rest) = None).
    { apply Hno. rewrite Hv, length_app. cbn. lia. }
    rewrite Hm, Hv, <- app_assoc, skipn_app, skipn_all, Nat.sub_diag in Hn.
    cbn [skipn app] in Hn.
    rewrite Hall in Hn; [discriminate|discriminate|].
    cbn [forallb]. now rewrite Hc, Hy, Hmore.
  - exists []. rewrite app_nil_r. split; [reflexivity|].
    split; [reflexivity|].
    intros v c Hv. apply not_true_is_false. intros Hc.
    assert (Hn : rmatch (Seq (plus p) Eol) (0 + length v)
                   (skipn (length v) m) (fun _ rest => Some rest) = None).
    { apply (exec_none _ _ _ E). rewrite Hv, length_app. cbn. lia. }
    rewrite Hv, skipn_app, skipn_all, Nat.sub_diag in Hn. cbn [skipn app] in Hn.
    rewrite Hall in Hn; [discriminate|discriminate|].
    cbn [forallb]. now rewrite Hc.
Qed.

(** X12: the JSON-RPC address of the Signal adapter is the configured
    address without the slashes at its end, followed by
    [/api/v1/rpc]: the configured address is the part before that path
    and a run of slashes, and that part does not end in a slash. *)
Theorem rpc_url_is_normalised (signalCliUrl signalAccount : jsstring) :
  exists base slashes,
    Signal.rpcUrl (Signal.make signalCliUrl signalAccount)
    = base ++ lit "/api/v1/rpc" /\
    signalCliUrl = base ++ slashes /\
    (forall c, In c slashes -> c = 47%N) /\
    forall v c, base = v ++ [c] -> c <> 47%N.
Proof.
  destruct (strip_trailing (exactly 47%N) signalCliUrl) as [t [H1 [H2 H3]]].
  exists (replace_first Signal.TRAILING_SLASHES [] signalCliUrl), t.
  split; [reflexivity|]. split; [exact H1|]. split.
  - intros c Hc. rewrite forallb_forall in H2. apply H2 in Hc.
    unfold exactly in Hc. now apply N.eqb_eq in Hc.
  - intros v c Hv Hc. apply H3 in Hv. unfold exactly in Hv.
    rewrite Hc in Hv. discriminate.
Qed.

Section Delivery.

Variable slackTsToIso : jsstring -> option jsstring.
Variable toISOString : Z -> option jsstring.
Variable numberToString : Z -> jsstring.

(** X13: no adapter hands on a message of a chat that is not registered.
    A message the Slack listener hands to on-message is of a chat that
    is registered when the listener is done, comes after the metadata of
    that chat, carries that chat as its [chat_jid] and is never marked
    as the bot's own. A message [processInbound] hands on is of a chat
    that is registered and carries that chat as its [chat_jid]; the
    metadata callback is made whether the chat is registered or not. *)
Theorem delivery_needs_registration :
  (forall (w : Slack.api) (h : Slack.host) (c : Slack.SlackChannel)
          (msg : Slack.message_event) (jid : jsstring) (m : NewMessage),
      In (OnMessage jid m)
        (snd (fst (Slack.on_message_event slackTsToIso w h c msg))) ->
      registered
        (snd (fst (fst (Slack.on_message_event slackTsToIso w h c msg)))) jid
      = true /\
      chat_jid m = jid /\
      is_from_me m = false /\ is_bot_message m = false /\
      exists ts name isGroup rest,
        snd (fst (Slack.on_message_event slackTsToIso w h c msg))
        = OnChatMetadata jid ts name (lit "slack") isGroup :: rest) /\
  (forall (c : Signal.SignalChannel) (g : groups) (msg : Signal.inbound)
          (cbs : list callback),
      Signal.processInbound toISOString numberToString c g msg = Some cbs ->
      (exists ts name isGroup rest,
          cbs = OnChatMetadata (Signal.chat_of msg) ts name (lit "signal")
                  isGroup :: rest) /\
      forall jid m, In (OnMessage jid m) cbs ->
        registered g jid = true /\ chat_jid m = jid /\
        jid = Signal.chat_of msg).
Proof.
  split.
  - intros w h c msg jid m. unfold Slack.on_message_event.
    destruct (Slack.truthy (Slack.bot_id msg) || Slack.truthy (Slack.subtype msg));
      [intros []|].
    destruct (Slack.user msg) as [[|x u]|]; try (intros []).
    destruct (match Slack.botUserId c with
              | Some b => eqb (x :: u) b
              | None => false
              end); [intros []|].
    cbv zeta.
    set (isDm := eqb (Slack.channel_type msg) (lit "im")).
    destruct (Slack.resolveUserName w _ (x :: u)) as [[c2 name] calls].
    destruct (slackTsToIso (Slack.ts msg)) as [ts|]; [|intros []].
    set (chatJid := if isDm then _ else _).
    destruct (registered (Slack.registeredGroups h) chatJid) eqn:Hreg.
    + cbn [fst snd app]. rewrite Hreg.
      intros [H|[H|[]]]; [discriminate|].
      injection H as <- <-. cbn. rewrite Hreg. repeat split. eauto 8.
    + destruct (Slack.onNewContact h) as [ask|].
      * destruct (ask _ _ _ _) as [answer g1]. cbn [fst snd app].
        destruct answer.
        -- destruct (registered g1 chatJid) eqn:Hreg1.
           ++ intros [H|[H|[H|[]]]]; try discriminate.
              injection H as <- <-. cbn. rewrite Hreg1. repeat split.
              eauto 8.
           ++ intros [H|[H|[]]]; discriminate.
        -- rewrite Hreg. intros [H|[H|[]]]; discriminate.
      * cbn [fst snd app]. rewrite Hreg. intros [H|[]]. discriminate.
  - intros c g msg cbs. unfold Signal.processInbound. cbv zeta.
    fold (Signal.chat_of msg). generalize (Signal.chat_of msg). intros j.
    destruct (toISOString (Signal.in_timestamp msg)) as [ts|]; [|discriminate].
    intros [= <-]. split; [eauto 8|].
    intros jid m [H|H]; [discriminate|].
    destruct (registered g j) eqn:Hreg; [|contradiction].
    destruct H as [H|[]]. injection H as <- <-. cbn. now repeat split.
Qed.

End Delivery.

End AdapterFacts.

(* ================================================================== *)
(** * The voice endpoint: runs, effects and bodies *)
(* ================================================================== *)

Module VoiceRunFacts.
Import JS JSFacts VoiceApi VoiceRuns.

(** ** Trimming *)

Lemma trimStart_split (s : jsstring) :
  exists p, s = p ++ trimStart s /\ forallb is_ws p = true.
Proof.
  induction s as [|c s [p [Hs Hp]]]; cbn [trimStart].
  - exists []. now split.
  - destruct (is_ws c) eqn:E.
    + exists (c :: p). cbn. rewrite E, Hp. split; [now f_equal|reflexivity].
    + exists []. now split.
Qed.

Lemma trimStart_head (s : jsstring) (c : N) (t : jsstring) :
  trimStart s = c :: t -> is_ws c = false.
Proof.
  induction s as [|a s IH]; cbn [trimStart]; [discriminate|].
  destruct (is_ws a) eqn:E; [exact IH|].
  intros [= -> _]. exact E.
Qed.

(** A trimmed string has no white space at either end. *)
Lemma trim_ends (s : jsstring) :
  (forall c t, trim s = c :: t -> is_ws c = false) /\
  (forall t c, trim s = t ++ [c] -> is_ws c = false).
Proof.
  unfold trim, trimEnd.
  destruct (trimStart_split (rev (trimStart s))) as [p [Hs Hp]].
  set (z := trimStart (rev (trimStart s))) in *.
  split.
  - intros c t H.
    assert (Hy : trimStart s = rev z ++ rev p).
    { rewrite <- rev_app_distr, <- Hs. now rewrite rev_involutive. }
    rewrite H in Hy. cbn in Hy. now apply trimStart_head in Hy.
  - intros t c H.
    assert (Hz : z = c :: rev t).
    { rewrite <- (rev_involutive z), H, rev_app_distr. reflexivity. }
    now apply trimStart_head in Hz.
Qed.

(** ** The wait *)

Lemma note_session_keeps (o : ContainerOutput) (st : run_state) :
  resolved (note_session o st) = resolved st /\
  resolved_with (note_session o st) = resolved_with st /\
  firstResult (note_session o st) = firstResult st.
Proof. unfold note_session. now destruct (newSessionId o) as [[|c id]|]. Qed.

(** Once the wait is resolved, no event changes what it was resolved
    with. *)
Lemma on_event_settled (e : agent_event) (st : run_state) :
  resolved st = true ->
  resolved (on_event e st) = true /\
  resolved_with (on_event e st) = resolved_with st.
Proof.
  intros H. destruct e as [o|m]; cbn [on_event].
  - unfold on_output.
    destruct (note_session_keeps o st) as [Hr [Hw _]].
    destruct (status o).
    + rewrite Hr, H. destruct (raw_text (result o)); now rewrite Hr, Hw.
    + rewrite Hr, H. cbn. now rewrite Hw.
  - now rewrite H.
Qed.

Lemma fold_settled (evs : list agent_event) :
  forall st, resolved st = true ->
    resolved (fold_left (fun st e => on_event e st) evs st) = true /\
    resolved_with (fold_left (fun st e => on_event e st) evs st)
    = resolved_with st.
Proof.
  induction evs as [|e evs IH]; intros st H; cbn [fold_left]; [now split|].
  destruct (@on_event_settled e st H) as [H1 H2].
  destruct (IH _ H1) as [H3 H4]. split; [exact H3|]. now rewrite H4.
Qed.

Lemma on_timer_settled (st : run_state) :
  resolved st = true -> on_timer st = st.
Proof. intros H. unfold on_timer. now rewrite H. Qed.

(** A quiet event leaves the wait open. *)
Lemma quiet_keeps_open (e : agent_event) (st : run_state) :
  quiet e = true -> open st -> open (on_event e st).
Proof.
  intros Hq [Hr Hf]. destruct e as [o|m]; [|discriminate].
  cbn [on_event quiet] in *. unfold on_output.
  destruct (note_session_keeps o st) as [Hr' [_ Hf']].
  destruct (status o); [|discriminate].
  destruct (raw_text (result o)) as [raw|].
  - rewrite Hr', Hr. destruct (visible_text raw); [|discriminate].
    split; congruence.
  - split; congruence.
Qed.

Lemma fold_quiet (evs : list agent_event) :
  forall st, forallb quiet evs = true -> open st ->
    open (fold_left (fun st e => on_event e st) evs st).
Proof.
  induction evs as [|e evs IH]; intros st Hq Ho; cbn [fold_left]; [exact Ho|].
  cbn [forallb] in Hq. apply andb_true_iff in Hq as [Hq1 Hq2].
  apply IH; [exact Hq2|]. now apply quiet_keeps_open.
Qed.

(** The events up to the first that is not quiet. *)
Lemma first_loud (evs : list agent_event) :
  forallb quiet evs = true \/
  exists pre e post, evs = pre ++ e :: post /\ forallb quiet pre = true /\
                     quiet e = false.
Proof.
  induction evs as [|e evs [IH|[pre [e' [post [-> [Hp He]]]]]]].
  - now left.
  - destruct (quiet e) eqn:E.
    + left. cbn. now rewrite E.
    + right. exists [], e, evs. now repeat split.
  - destruct (quiet e) eqn:E.
    + right. exists (e :: pre), e', post. cbn. rewrite E, Hp. now repeat split.
    + right. exists [], e, (pre ++ e' :: post). now repeat split.
Qed.

(** An event that is not quiet resolves an open wait. *)
Lemma loud_resolves (e : agent_event) (st : run_state) :
  quiet e = false -> open st ->
  resolved (on_event e st) = true /\
  exists r, resolved_with (on_event e st) = Some r /\
    match res_result r with
    | Some t =>
        res_error r = None /\
        exists o raw, e = Streamed o /\ status o = success /\
                      raw_text (result o) = Some raw /\ visible_text raw = t /\
                      t <> []
    | None => True
    end.
Proof.
  intros Hq [Hr Hf]. destruct e as [o|m]; cbn [on_event quiet] in *.
  - unfold on_output.
    destruct (note_session_keeps o st) as [Hr' [_ Hf']].
    destruct (status o) eqn:Hs.
    + destruct (raw_text (result o)) as [raw|] eqn:Hraw; [|discriminate].
      rewrite Hr', Hr.
      destruct (visible_text raw) as [|c t] eqn:Hv; [discriminate|].
      cbn. split; [reflexivity|]. eexists. split; [reflexivity|]. cbn.
      split; [reflexivity|]. exists o, raw. repeat split; try assumption.
      discriminate.
    + rewrite Hr', Hr. cbn. split; [reflexivity|].
      eexists. split; [reflexivity|]. exact I.
  - rewrite Hr. cbn. split; [reflexivity|].
    eexists. split; [reflexivity|]. cbn. now rewrite Hf.
Qed.

Lemma initial_open (session : option jsstring) : open (initial session).
Proof. now split. Qed.

(** X14: the answer of a run is settled once. When the events so far have
    resolved the wait, whatever the agent does afterwards does not change
    the answer that [handleRun] returns. (The session ids of later
    outputs are still stored.) *)
Theorem answer_is_settled_once (w : run_world) (session : option jsstring)
  (body : RunRequestBody) (pre post : list agent_event) :
  resolved (fold_left (fun st e => on_event e st) pre (initial session))
  = true ->
  fst (handleRun (with_events w (pre ++ post)) session body)
  = fst (handleRun (with_events w pre) session body).
Proof.
  intros H. unfold handleRun, with_events.
  cbn [input snapshots_written start_failure events].
  destruct (input body) as [[|c text]|]; try reflexivity.
  destruct (snapshots_written w); [|reflexivity].
  destruct (start_failure w); [reflexivity|].
  rewrite fold_left_app.
  destruct (@fold_settled post _ H) as [H1 H2].
  rewrite (@on_timer_settled _ H1), (@on_timer_settled _ H), H2.
  reflexivity.
Qed.

(** X15: every new session id is stored. The callback stores each session
    id that is not empty, in the order the outputs come, from error
    outputs too and after the wait was resolved; the session id it keeps
    is the last of them, or the one it started with. *)
Theorem sessions_are_always_stored (evs : list agent_event)
  (session : option jsstring) :
  stored_sessions (waited evs session) = session_ids evs /\
  voiceSessionId (waited evs session)
  = match rev (session_ids evs) with
    | id :: _ => Some id
    | [] => session
    end.
Proof.
  unfold waited.
  assert (Ht : forall st, stored_sessions (on_timer st) = stored_sessions st /\
                          voiceSessionId (on_timer st) = voiceSessionId st).
  { intros st. unfold on_timer. now destruct (resolved st). }
  assert (Hn : forall o st,
    stored_sessions (on_output o st)
    = stored_sessions st ++ session_ids [Streamed o] /\
    voiceSessionId (on_output o st)
    = match rev (session_ids [Streamed o]) with
      | id :: _ => Some id
      | [] => voiceSessionId st
      end).
  { intros o st. unfold on_output, note_session. cbn [session_ids flat_map].
    destruct (newSessionId o) as [[|c id]|]; rewrite ?app_nil_r;
      destruct (status o); cbn;
      repeat match goal with
             | |- context [match ?x with _ => _ end] => destruct x; cbn
             end; rewrite ?app_nil_r; now split. }
  assert (H : forall st,
    stored_sessions (fold_left (fun st e => on_event e st) evs st)
    = stored_sessions st ++ session_ids evs /\
    voiceSessionId (fold_left (fun st e => on_event e st) evs st)
    = match rev (session_ids evs) with
      | id :: _ => Some id
      | [] => voiceSessionId st
      end).
  { induction evs as [|e evs IH]; intros st; cbn [fold_left].
    - cbn. now rewrite app_nil_r.
    - destruct (IH (on_event e st)) as [I1 I2]. rewrite I1, I2.
      replace (session_ids (e :: evs))
        with (session_ids [e] ++ session_ids evs)
        by (unfold session_ids; cbn [flat_map]; now rewrite app_nil_r).
      rewrite rev_app_distr.
      destruct e as [o|m]; cbn [on_event].
      + destruct (Hn o st) as [N1 N2]. rewrite N1, N2, <- app_assoc.
        split; [reflexivity|].
        destruct (rev (session_ids evs)); [|reflexivity].
        reflexivity.
      + assert (Hs : stored_sessions
                       (if resolved st then st else
                          {| voiceSessionId := voiceSessionId st;
                             stored_sessions := stored_sessions st;
                             firstResult := firstResult st;
                             agentError := agentError st;
                             resolved := true;
                             resolved_with :=
                               Some {| res_result := firstResult st;
                                       res_error := Some m |} |})
                     = stored_sessions st /\
                     voiceSessionId
                       (if resolved st then st else
                          {| voiceSessionId := voiceSessionId st;
                             stored_sessions := stored_sessions st;
                             firstResult := firstResult st;
                             agentError := agentError st;
                             resolved := true;
                             resolved_with :=
                               Some {| res_result := firstResult st;
                                       res_error := Some m |} |})
                     = voiceSessionId st) by now destruct (resolved st).
        destruct Hs as [-> ->]. cbn. rewrite app_nil_r. now split. }
  destruct (Ht (fold_left (fun st e => on_event e st) evs (initial session)))
    as [-> ->].
  destruct (H (initial session)) as [-> ->]. now split.
Qed.

(** The answer of a run that got as far as the wait. *)
Lemma handleRun_waits (w : run_world) (session : option jsstring)
  (body : RunRequestBody) (c : N) (text : jsstring) :
  input body = Some (c :: text) ->
  snapshots_written w = true ->
  start_failure w = None ->
  fst (handleRun w session body)
  = Some (let r := match resolved_with (waited (events w) session) with
                   | Some r => r
                   | None => {| res_result := None; res_error := None |}
                   end in
          {| run_success := negb (truthy (res_error r));
             run_text := res_result r;
             run_error := if truthy (res_error r) then res_error r
                          else None |}).
Proof.
  intros Hi Hs Hf. unfold handleRun. now rewrite Hi, Hs, Hf.
Qed.

(** What the wait was resolved with, by the first event that is not
    quiet. *)
Lemma waited_first_loud (pre post : list agent_event) (e : agent_event)
  (session : option jsstring) :
  forallb quiet pre = true -> quiet e = false ->
  resolved_with (waited (pre ++ e :: post) session)
  = resolved_with
      (on_event e (fold_left (fun st e => on_event e st) pre
                     (initial session))) /\
  open (fold_left (fun st e => on_event e st) pre (initial session)).
Proof.
  intros Hq He. unfold waited. rewrite fold_left_app. cbn [fold_left].
  pose proof (@fold_quiet pre _ Hq (initial_open session)) as Ho.
  destruct (@loud_resolves e _ He Ho) as [Hr _].
  destruct (@fold_settled post _ Hr) as [H1 H2].
  rewrite (@on_timer_settled _ H1), H2. now split.
Qed.

Lemma waited_quiet (evs : list agent_event) (session : option jsstring) :
  forallb quiet evs = true ->
  resolved_with (waited evs session)
  = Some {| res_result := None;
            res_error := Some (lit "Voice API timeout") |}.
Proof.
  intros Hq. unfold waited.
  destruct (@fold_quiet evs _ Hq (initial_open session)) as [Hr Hf].
  unfold on_timer. rewrite Hr. cbn. now rewrite Hf.
Qed.

(** X16: a run that is not answered by the deadline fails with the timeout
    error and no result. When every output the agent streams before the
    deadline is without a visible result, and it neither reports an error
    nor exits, the answer is a failure with the error
    [Voice API timeout] and a null result. *)
Theorem silence_times_out (w : run_world) (session : option jsstring)
  (body : RunRequestBody) (c : N) (text : jsstring) :
  input body = Some (c :: text) ->
  snapshots_written w = true ->
  start_failure w = None ->
  forallb quiet (events w) = true ->
  fst (handleRun w session body)
  = Some {| run_success := false; run_text := None;
            run_error := Some (lit "Voice API timeout") |}.
Proof.
  intros Hi Hs Hf Hq.
  rewrite (@handleRun_waits w session body c text Hi Hs Hf).
  now rewrite (@waited_quiet (events w) session Hq).
Qed.

(** X17: the first event that is not quiet decides the answer; the events
    after it and the timer do not matter. An error output gives a failure
    with its error text, or [Agent error], and no result; an output with
    visible text gives a success with that text; an exit of the agent
    gives a failure with the message of the exception and no result, and
    when that message is empty a success with no result. *)
Theorem first_event_decides (w : run_world) (session : option jsstring)
  (body : RunRequestBody) (c : N) (text : jsstring)
  (pre post : list agent_event) (e : agent_event) :
  input body = Some (c :: text) ->
  snapshots_written w = true ->
  start_failure w = None ->
  events w = pre ++ e :: post ->
  forallb quiet pre = true ->
  quiet e = false ->
  fst (handleRun w session body)
  = Some match e with
         | Streamed o =>
             match status o with
             | error =>
                 {| run_success := false; run_text := None;
                    run_error := Some (error_text (output_error o)) |}
             | success =>
                 {| run_success := true;
                    run_text := option_map visible_text (raw_text (result o));
                    run_error := None |}
             end
         | Rejected [] =>
             {| run_success := true; run_text := None; run_error := None |}
         | Rejected message =>
             {| run_success := false; run_text := None;
                run_error := Some message |}
         end.
Proof.
  intros Hi Hs Hf Hev Hq He.
  rewrite (@handleRun_waits w session body c text Hi Hs Hf), Hev.
  destruct (@waited_first_loud pre post e session Hq He) as [-> [Hr Hfr]].
  destruct e as [o|m]; cbn [on_event quiet] in *.
  - unfold on_output.
    destruct (note_session_keeps o
                (fold_left (fun st e => on_event e st) pre (initial session)))
      as [Hr' _].
    destruct (status o).
    + destruct (raw_text (result o)) as [raw|]; [|discriminate].
      rewrite Hr', Hr. cbn [option_map].
      destruct (visible_text raw) as [|x t]; [discriminate|]. reflexivity.
    + rewrite Hr', Hr. cbn [resolved_with res_error res_result].
      unfold error_text.
      now destruct (output_error o) as [[|x t]|].
  - rewrite Hr. cbn [resolved_with res_error res_result]. rewrite Hfr.
    now destruct m.
Qed.

(** X18: a failed run carries no partial result. Whenever the answer of
    [handleRun] has a result text, the run is a success without an error,
    and the text is what is visible of the first output that has any
    visible text: it is not empty and has no white space at either
    end. *)
Theorem result_only_on_success (w : run_world) (session : option jsstring)
  (body : RunRequestBody) (r : run_result) (t : jsstring) :
  fst (handleRun w session body) = Some r ->
  run_text r = Some t ->
  run_success r = true /\ run_error r = None /\ t <> [] /\
  (forall x t', t = x :: t' -> is_ws x = false) /\
  (forall t' x, t = t' ++ [x] -> is_ws x = false) /\
  exists pre o post raw,
    events w = pre ++ Streamed o :: post /\
    forallb quiet pre = true /\
    status o = success /\
    raw_text (result o) = Some raw /\
    t = visible_text raw.
Proof.
  unfold handleRun.
  destruct (input body) as [[|c text]|];
    try (intros [= <-]; discriminate).
  destruct (snapshots_written w); [|discriminate].
  destruct (start_failure w); [intros [= <-]; discriminate|].
  cbn [fst]. intros [= <-]. cbn [run_text run_success run_error].
  fold (waited (events w) session).
  destruct (first_loud (events w)) as [Hq|[pre [e [post [Hev [Hq He]]]]]].
  - rewrite (@waited_quiet (events w) session Hq). discriminate.
  - rewrite Hev.
    destruct (@waited_first_loud pre post e session Hq He) as [-> Ho].
    destruct (@loud_resolves e _ He Ho) as [_ [res [-> Hres]]].
    intros Ht. rewrite Ht in Hres.
    destruct Hres as [Herr [o [raw [-> [Hs [Hraw [Hv Hne]]]]]]].
    rewrite Herr. cbn [truthy negb].
    repeat split; try assumption.
    + intros x t' E. subst t. unfold visible_text in E.
      now apply (proj1 (trim_ends _)) in E.
    + intros t' x E. subst t. unfold visible_text in E.
      now apply (proj2 (trim_ends _)) in E.
    + exists pre, o, post, raw. now repeat split.
Qed.

(** ** The listener *)

(** X19: the host does something for a request only when it is a POST of
    [/api/run] that carries the configured token and a body with an input
    string that is not empty. When it starts an agent, the request is
    answered 200, the agent is the only one started, after the
    snapshots were written, and its prompt is the voice context, an empty
    line and the input. *)
Theorem effects_need_authorized_run (token : jsstring) (w : run_world)
  (session : option jsstring) (req : request) :
  (snd (serve token w session req) <> [] ->
   is_run req = true /\
   bearer_token (auth_header req) = token /\
   exists b c text, body req = BodyParsed b /\ input b = Some (c :: text)) /\
  (starts_agent (serve token w session req) = true ->
   status_of (serve token w session req) = Some 200%N /\
   exists b c text,
     body req = BodyParsed b /\ input b = Some (c :: text) /\
     snd (serve token w session req)
     = [WriteSnapshots;
        RunContainerAgent (voiceContext ++ [10; 10]%N ++ c :: text)
          (timeoutMs (timeout b))]).
Proof.
  unfold serve, starts_agent, status_of.
  destruct (target req) as [|p]; [split; [now intros []|discriminate]|].
  destruct (is_health req); [split; [now intros []|discriminate]|].
  destruct (eqb (bearer_token (auth_header req)) token) eqn:Ht;
    cbn [negb]; [|split; [now intros []|discriminate]].
  apply eqb_eq in Ht.
  destruct (is_run req); [|split; [now intros []|discriminate]].
  destruct (body req) as [|b] eqn:Hb; [split; [now intros []|discriminate]|].
  unfold handleRun.
  destruct (input b) as [[|c text]|] eqn:Hi;
    try (split; [now intros []|discriminate]).
  destruct (snapshots_written w); [|split; [now intros []|discriminate]].
  destruct (start_failure w).
  - split; [|discriminate]. intros _.
    split; [reflexivity|split; [exact Ht|now exists b, c, text]].
  - split.
    + intros _.
      split; [reflexivity|split; [exact Ht|now exists b, c, text]].
    + intros _. split; [reflexivity|]. now exists b, c, text.
Qed.

(** ** Reading the body *)

Section ReadBody.

Variable utf8 : list N -> jsstring.

Lemma read_from_body (evs : list stream_event) :
  forall chunks size text,
    (size <= MAX_BODY)%N ->
    read_from utf8 chunks size evs = Body text ->
    exists more rest,
      evs = map OnData more ++ OnEnd :: rest /\
      text = utf8 (concat (chunks ++ more)) /\
      (size + N.of_nat (length (concat more)) <= MAX_BODY)%N.
Proof.
  induction evs as [|e evs IH]; intros chunks size text Hs;
    cbn [read_from]; [discriminate|].
  destruct e as [chunk| |]; [| |discriminate].
  - destruct (N.ltb_spec MAX_BODY (size + N.of_nat (length chunk)))
      as [|Hle]; [discriminate|].
    intros H. destruct (IH _ _ _ Hle H) as [more [rest [-> [-> Hm]]]].
    exists (chunk :: more), rest. rewrite <- app_assoc.
    repeat split. cbn [concat]. rewrite length_app, Nat2N.inj_add. lia.
  - intros [= <-]. exists [], evs. rewrite app_nil_r.
    repeat split. cbn [concat length N.of_nat]. now rewrite N.add_0_r.
Qed.

Lemma read_from_large (more : list (list N)) :
  forall chunks size rest,
    (MAX_BODY < size + N.of_nat (length (concat more)))%N ->
    (size <= MAX_BODY)%N ->
    read_from utf8 chunks size (map OnData more ++ rest) = TooLarge.
Proof.
  induction more as [|chunk more IH]; intros chunks size rest Hbig Hs.
  - cbn [concat length N.of_nat] in Hbig. lia.
  - cbn [map app read_from].
    destruct (N.ltb_spec MAX_BODY (size + N.of_nat (length chunk)))
      as [|Hle]; [reflexivity|].
    apply IH; [|exact Hle].
    cbn [concat] in Hbig. rewrite length_app, Nat2N.inj_add in Hbig. lia.
Qed.

Lemma read_from_small (more : list (list N)) :
  forall chunks size rest,
    (size + N.of_nat (length (concat more)) <= MAX_BODY)%N ->
    read_from utf8 chunks size (map OnData more ++ OnEnd :: rest)
    = Body (utf8 (concat (chunks ++ more))).
Proof.
  induction more as [|chunk more IH]; intros chunks size rest Hs.
  - cbn. now rewrite app_nil_r.
  - cbn [map app read_from].
    cbn [concat] in Hs. rewrite length_app, Nat2N.inj_add in Hs.
    destruct (N.ltb_spec MAX_BODY (size + N.of_nat (length chunk)))
      as [Hlt|Hle]; [lia|].
    rewrite IH by lia. now rewrite <- app_assoc.
Qed.

(** X20: a request body of more than 1 MiB is refused. [readBody] gives a
    body exactly when the stream ends after chunks of at most 1048576
    bytes together, and the body is then the text of all of them in
    order; as soon as the chunks come to more than that, the promise is
    rejected, whatever the stream does afterwards. *)
Theorem body_is_capped (evs : list stream_event) :
  (forall text,
      readBody utf8 evs = Body text ->
      exists chunks rest,
        evs = map OnData chunks ++ OnEnd :: rest /\
        text = utf8 (concat chunks) /\
        (N.of_nat (length (concat chunks)) <= 1048576)%N) /\
  (forall chunks rest,
      evs = map OnData chunks ++ OnEnd :: rest ->
      (N.of_nat (length (concat chunks)) <= 1048576)%N ->
      readBody utf8 evs = Body (utf8 (concat chunks))) /\
  (forall chunks rest,
      evs = map OnData chunks ++ rest ->
      (1048576 < N.of_nat (length (concat chunks)))%N ->
      readBody utf8 evs = TooLarge).
Proof.
  unfold readBody. change 1048576%N with MAX_BODY.
  assert (H0 : (0 <= MAX_BODY)%N) by (unfold MAX_BODY; lia).
  split; [|split].
  - intros text H.
    destruct (@read_from_body evs [] 0%N text H0 H)
      as [more [rest [-> [-> Hm]]]].
    exists more, rest. repeat split. lia.
  - intros chunks rest -> Hs. now apply read_from_small.
  - intros chunks rest -> Hbig. apply read_from_large; [lia|exact H0].
Qed.

End ReadBody.

End VoiceRunFacts.

(* ================================================================== *)
(** * The Slack adapter: mentions of the bot *)
(* ================================================================== *)

Module MentionFacts.
Import JS JSFacts Types RegexFacts MentionSpec.

Local Abbreviation k0 := (fun (_ : nat) (rest : jsstring) => Some rest).

(** A pattern that begins with [<] is found nowhere in a text without
    one. *)
Lemma exec_no_angle (w : jsstring) (r : regex) (s : jsstring) :
  no_angle s = true ->
  forall i, exec (Seq (text (60%N :: w)) r) i s = None.
Proof.
  induction s as [|c s IH]; intros H i; rewrite exec_eq; cbn [text rmatch].
  - reflexivity.
  - cbn [no_angle forallb] in H. apply andb_true_iff in H as [Hc H].
    unfold exactly at 1. apply negb_true_iff in Hc. rewrite Hc.
    now rewrite (IH H).
Qed.

(** Where the pattern is not found, the global replace changes
    nothing. *)
Lemma replace_loop_none (r : regex) (rep s : jsstring) (fuel i : nat) :
  exec r i s = None -> replace_loop fuel r rep i s = s.
Proof. intros H. destruct fuel; cbn [replace_loop]; now rewrite ?H. Qed.

(** The greedy run of white space ends where [trimStart] ends it. *)
Lemma star_greedy_ws (s : jsstring) :
  forall i, star_greedy is_ws k0 i s = Some (trimStart s).
Proof.
  induction s as [|c s IH]; intros i; cbn [star_greedy trimStart];
    [reflexivity|].
  destruct (is_ws c); [|reflexivity]. now rewrite IH.
Qed.

Lemma trimStart_suffix (s : jsstring) :
  exists p, s = p ++ trimStart s.
Proof.
  destruct (VoiceRunFacts.trimStart_split s) as [p [H _]]. now exists p.
Qed.

Lemma trimStart_idem (s : jsstring) : trimStart (trimStart s) = trimStart s.
Proof.
  induction s as [|c s IH]; [reflexivity|]. cbn [trimStart].
  destruct (is_ws c) eqn:E; [exact IH|]. cbn [trimStart]. now rewrite E.
Qed.

Lemma no_angle_trimStart (s : jsstring) :
  no_angle s = true -> no_angle (trimStart s) = true.
Proof.
  intros H. destruct (trimStart_suffix s) as [p Hp].
  rewrite Hp in H. unfold no_angle in *. rewrite forallb_app in H.
  now apply andb_true_iff in H as [_ H].
Qed.

(** X21: what [stripBotMention] does to a mention. Without a bot user
    id the text is left as it is. With one, a text without [<] is only
    trimmed, and a text that is a mention of the bot followed by a text
    without [<] becomes that text, trimmed: the mention and the white
    space after it are taken out. *)
Theorem mention_is_stripped (c : Slack.SlackChannel) :
  (Slack.truthy (Slack.botUserId c) = false ->
   forall text, Slack.stripBotMention c text = text) /\
  (forall x u,
      Slack.botUserId c = Some (x :: u) ->
      (forall text, no_angle text = true ->
                    Slack.stripBotMention c text = trim text) /\
      (forall rest, no_angle rest = true ->
                    Slack.stripBotMention c (mention (x :: u) ++ rest)
                    = trim rest)).
Proof.
  split.
  - intros H text. unfold Slack.stripBotMention.
    destruct (Slack.botUserId c) as [[|x u]|]; try reflexivity. discriminate.
  - intros x u Hb. unfold Slack.stripBotMention. rewrite Hb.
    change (lit "<@" ++ x :: u ++ lit ">")
      with (60%N :: 64%N :: x :: u ++ lit ">").
    split.
    + intros text H. unfold replace_all.
      now rewrite replace_loop_none by now apply exec_no_angle.
    + intros rest H. unfold mention.
      change (lit "<@" ++ (x :: u) ++ lit ">")
        with (60%N :: 64%N :: x :: u ++ lit ">").
      set (m := 60%N :: 64%N :: x :: u ++ lit ">").
      unfold replace_all. cbn [replace_loop].
      rewrite exec_eq. cbn [rmatch].
      rewrite InternalFacts.rmatch_text, startsWith_app.
      rewrite skipn_app, skipn_all, Nat.sub_diag. cbn [skipn app].
      rewrite star_greedy_ws.
      destruct (trimStart_suffix rest) as [p Hp].
      assert (Hlen : length (m ++ rest) - length (trimStart rest)
                     = S (length (64%N :: x :: u ++ lit ">") + length p)).
      { rewrite Hp at 1. rewrite !length_app. subst m. cbn [length]. lia. }
      rewrite Hlen. subst m. cbn [app firstn].
      rewrite replace_loop_none
        by (apply exec_no_angle; now apply no_angle_trimStart).
      unfold trim. now rewrite trimStart_idem.
Qed.

End MentionFacts.

(* ================================================================== *)
(** * The meeting-prep script: batches *)
(* ================================================================== *)

Module MeetingPrepFacts.
Import MeetingPrep.

Lemma batches_from (A : Type) (n : nat) :
  forall (l : list A),
    length l <= n * 4 ->
    concat (map (fun i => firstn 4 (skipn i l))
              (map (fun k => k * 4) (seq 0 n))) = l.
Proof.
  induction n as [|n IH]; intros l Hl.
  - destruct l; [reflexivity|cbn in Hl; lia].
  - cbn [seq map concat]. rewrite <- seq_shift, !map_map.
    cbn [Nat.mul skipn].
    transitivity (firstn 4 l ++ skipn 4 l); [|apply firstn_skipn]. f_equal.
    transitivity (concat (map (fun i => firstn 4 (skipn i (skipn 4 l)))
                            (map (fun k => k * 4) (seq 0 n)))).
    + rewrite map_map. f_equal. apply map_ext. intros k.
      rewrite skipn_skipn. f_equal. f_equal. lia.
    + apply IH. rewrite length_skipn. lia.
Qed.

(** X22: the batches of the meeting-prep script are the meetings, cut
    into runs of four. Put one after the other they are the list of
    meetings again, none is empty, none has more than four meetings, and
    there are as many as a quarter of the meetings, rounded up. Without
    meetings the script calls nothing. *)
Theorem batches_partition_meetings (A : Type) (meetings : list A) :
  concat (batches meetings) = meetings /\
  (forall b, In b (batches meetings) -> 1 <= length b <= 4) /\
  length (batches meetings) = (length meetings + 3) / 4 /\
  (batch_lines meetings = None <-> meetings = []).
Proof.
  unfold batches, range0, BATCH_SIZE, py_slice.
  replace (length meetings + 4 - 1) with (length meetings + 3) by lia.
  split; [|split; [|split]].
  - erewrite map_ext; [apply batches_from|].
    + generalize (length meetings). intros n.
      pose proof (Nat.div_mod_eq (n + 3) 4).
      pose proof (Nat.mod_upper_bound (n + 3) 4 ltac:(discriminate)). lia.
    + intros i. cbv beta. now replace (i + 4 - i) with 4 by lia.
  - intros b Hb. apply in_map_iff in Hb as [i [<- Hi]].
    apply in_map_iff in Hi as [k [<- Hk]]. apply in_seq in Hk.
    rewrite length_firstn, length_skipn.
    revert Hk. generalize (length meetings). intros n Hk.
    pose proof (Nat.div_mod_eq (n + 3) 4).
    pose proof (Nat.mod_upper_bound (n + 3) 4 ltac:(discriminate)). lia.
  - now rewrite !length_map, length_seq.
  - unfold batch_lines. destruct meetings; split; try discriminate; reflexivity.
Qed.

End MeetingPrepFacts.

(* ================================================================== *)
(** * Worked examples *)
(* ================================================================== *)

Module Examples.
Import JS JSFacts Types Channel VoiceApi EmailIntake.
Import VoiceScenarios MailScenarios ChannelScenarios MoreScenarios.
Import UrlSpec Routing VoiceRuns MeetingPrep MentionSpec.

(** The URL of scenario S3 passes both filters. *)
Lemma extracted_urls_are_filtered_witness :
  MIN_URL_LENGTH <= length (lit "https://example.com/a") /\
  test (text_ci (lit "unsubscribe")) (lit "https://example.com/a") = false.
Proof.
  destruct (proj2 (UrlFacts.extracted_urls_are_filtered S3_body)
              (lit "https://example.com/a")) as [H1 H2].
  - vm_compute. left. reflexivity.
  - split; [exact H1|]. apply H2. vm_compute. tauto.
Defined.

(** The URL of scenario S3 has a scheme, is made of units of the class
    and ends in the letter [a]. *)
Lemma extracted_urls_are_well_formed_witness :
  has_scheme (lit "https://example.com/a") = true /\
  forallb url_unit (lit "https://example.com/a") = true /\
  punctuation 97%N = false.
Proof.
  destruct (@UrlFacts.extracted_urls_are_well_formed S3_body
              (lit "https://example.com/a")) as [H1 [H2 H3]].
  - vm_compute. left. reflexivity.
  - split; [exact H1|]. split; [exact H2|].
    apply (H3 (lit "https://example.com/") 97%N). reflexivity.
Defined.

(** A URL after the word [See] and before a comma is found. *)
Lemma first_url_is_extracted_witness :
  exists rest,
    extractUrls (lit "See " ++ lit "https://example.com/a" ++ lit ", and more")
    = lit "https://example.com/a" :: rest.
Proof.
  apply UrlFound.first_url_is_extracted.
  - vm_compute. reflexivity.
  - vm_compute. reflexivity.
  - vm_compute. reflexivity.
  - intros v c H.
    replace c with (last (lit "https://example.com/a") 0%N)
      by (rewrite H; apply last_last).
    vm_compute. reflexivity.
  - vm_compute. lia.
  - intros p Hp. unfold REJECT_PATTERNS in Hp. cbn [In] in Hp.
    repeat (destruct Hp as [<-|Hp]; [vm_compute; reflexivity|]).
    contradiction.
  - intros c post' H. vm_compute in H. injection H as <- _.
    vm_compute. reflexivity.
Defined.

(** In the batch with the outage, the second URL of the first message
    was found in a text the poll fetched. *)
Lemma poll_asks_only_for_the_listed_witness :
  has_scheme (lit "https://example.org/second") = true /\
  MIN_URL_LENGTH <= length (lit "https://example.org/second").
Proof.
  destruct (proj2 (proj2 (PollFacts.poll_asks_only_for_the_listed
                            (fun s => s) outage))
              (lit "https://example.org/second")) as [_ [H1 [H2 _]]].
  - vm_compute. tauto.
  - split; [exact H1|exact H2].
Defined.

(** The chat of a post in the channel [C1] is one the default Slack
    adapter owns. *)
Lemma inbound_chats_are_owned_witness :
  Slack.ownsJid Slack.ascii_toUpperCase connected_bot
    (lit "slack:channel:C1") = true.
Proof.
  apply (proj1 (RoutingFacts.inbound_chats_are_owned
                  Slack.ascii_toUpperCase iso_of_ts iso_1000 decimal_1000 0%Z)
           steady_slack one_channel connected_bot
           {| Slack.bot_id := None; Slack.subtype := None;
              Slack.user := Some (lit "U1");
              Slack.channel := lit "C1"; Slack.channel_type := lit "channel";
              Slack.text := Some (lit "hi");
              Slack.ts := lit "1700000000.000200" |}
           (OnChatMetadata (lit "slack:channel:C1")
              (lit "2023-11-14T22:13:20.000Z") None (lit "slack") true)).
  - vm_compute. tauto.
  - right. left. vm_compute. discriminate.
  - vm_compute. left. reflexivity.
Defined.

(** After the direct message of [U1], a reply to that chat goes to the
    conversation [D1], also when Slack would refuse to open one. *)
Lemma reply_channel_is_known_witness :
  snd (fst (Slack.resolveChannelId workspace
              (fst (fst (fst (Slack.on_message_event iso_of_ts steady_slack
                                one_contact connected_bot direct_post))))
              (lit "slack:U1"))) = Some (lit "D1") /\
  snd (Slack.resolveChannelId workspace
         (fst (fst (fst (Slack.on_message_event iso_of_ts steady_slack
                           one_contact connected_bot direct_post))))
         (lit "slack:U1")) = [].
Proof.
  rewrite (@RoutingFacts.reply_channel_is_known iso_of_ts steady_slack
             workspace one_contact connected_bot direct_post (lit "slack:U1")
             direct_post_delivered).
  - split; reflexivity.
  - vm_compute. tauto.
  - intros _. split; [vm_compute; discriminate|].
    intros u [= <-]. vm_compute. reflexivity.
  - vm_compute. tauto.
Defined.

(** A reply to a direct Signal message is addressed to its source. *)
Lemma signal_reply_goes_back_witness :
  Signal.send_request (lit "sig:+15550001") (lit "ok")
  = Signal.SendToRecipient (lit "+15550001") (lit "ok").
Proof.
  apply (@RoutingFacts.signal_reply_goes_back iso_1000 decimal_1000
           own_account own_chat direct_note
           [OnChatMetadata (lit "sig:+15550001")
              (lit "1970-01-01T00:00:01.000Z") (Some (lit "+15550001"))
              (lit "signal") false;
            OnMessage (lit "sig:+15550001")
              direct_note_delivered]
           (lit "sig:+15550001")
           direct_note_delivered
           (lit "ok")).
  - vm_compute. reflexivity.
  - right. left. reflexivity.
  - intros _. vm_compute. reflexivity.
Defined.

(** With a daemon that fails the first send of the drain, the first of
    three waiting messages is lost and the other two stay queued. *)
Lemma drain_failure_drops_item_witness :
  ended (connect flaky (SignalOf backlog)) = Returned /\
  pending (after (connect flaky (SignalOf backlog)))
  = [(lit "sig:+15550002", lit "B"); (lit "sig:+15550002", lit "C")].
Proof.
  destruct (@QueueFacts.drain_failure_drops_item flaky backlog 0
              {| Signal.q_jid := lit "sig:+15550002";
                 Signal.q_text := lit "A" |})
    as [H1 [_ [H3 _]]].
  - reflexivity.
  - reflexivity.
  - reflexivity.
  - intros j it Hj. lia.
  - reflexivity.
  - split; [exact H1|]. rewrite H3. reflexivity.
Defined.

(** The channel id found for [U1] is found again without a request. *)
Lemma slack_caches_answer_witness :
  Slack.resolveChannelId workspace
    (fst (fst (Slack.resolveChannelId steady_slack connected_bot
                 (lit "slack:U1"))))
    (lit "slack:U1")
  = (fst (fst (Slack.resolveChannelId steady_slack connected_bot
                 (lit "slack:U1"))),
     Some (lit "D1"), []).
Proof.
  apply (proj1 (QueueFacts.slack_caches_answer steady_slack workspace
                  connected_bot)
           (lit "slack:U1") _ (lit "D1")
           [Slack.ConversationsOpen (lit "U1")]).
  reflexivity.
Defined.

(** What follows the answer of scenario S6 does not change the run. *)
Lemma answer_is_settled_once_witness :
  fst (handleRun (with_events calm ([Streamed S6_output]
                                    ++ [Rejected (lit "exit 137")]))
         None hello)
  = fst (handleRun (with_events calm [Streamed S6_output]) None hello).
Proof.
  apply VoiceRunFacts.answer_is_settled_once. vm_compute. reflexivity.
Defined.

(** An agent that only streams a note for itself runs into the
    deadline. *)
Lemma silence_times_out_witness :
  fst (handleRun (with_events calm [Streamed only_note]) None hello)
  = Some {| run_success := false; run_text := None;
            run_error := Some (lit "Voice API timeout") |}.
Proof.
  apply (@VoiceRunFacts.silence_times_out
           (with_events calm [Streamed only_note]) None hello
           104%N (lit "ello")); vm_compute; reflexivity.
Defined.

(** The answer of scenario S6 decides the run, after the note and before
    the exit of the agent. *)
Lemma first_event_decides_witness :
  fst (handleRun (with_events calm note_then_answer) None hello)
  = Some {| run_success := true;
            run_text := Some (lit "Here is the answer.");
            run_error := None |}.
Proof.
  rewrite (@VoiceRunFacts.first_event_decides
             (with_events calm note_then_answer) None hello
             104%N (lit "ello") [Streamed only_note]
             [Rejected (lit "exit 137")] (Streamed S6_output));
    vm_compute; reflexivity.
Defined.

(** The result of that run is a success without an error. *)
Lemma result_only_on_success_witness :
  run_success {| run_success := true;
                 run_text := Some (lit "Here is the answer.");
                 run_error := None |} = true /\
  lit "Here is the answer." <> [].
Proof.
  destruct (@VoiceRunFacts.result_only_on_success
              (with_events calm note_then_answer) None hello
              {| run_success := true;
                 run_text := Some (lit "Here is the answer.");
                 run_error := None |}
              (lit "Here is the answer.")) as [H1 [_ [H3 _]]].
  - vm_compute. reflexivity.
  - reflexivity.
  - split; [exact H1|exact H3].
Defined.

(** Without a configured token, the run request without a header starts
    one agent with the default deadline. *)
Lemma effects_need_authorized_run_witness :
  status_of (serve (VOICE_API_TOKEN None None) calm None anonymous_run)
  = Some 200%N /\
  is_run anonymous_run = true.
Proof.
  destruct (VoiceRunFacts.effects_need_authorized_run
              (VOICE_API_TOKEN None None) calm None anonymous_run)
    as [H1 H2].
  split.
  - apply H2. vm_compute. reflexivity.
  - apply H1. vm_compute. discriminate.
Defined.

(** Two bytes and the end of the stream make a body. *)
Lemma body_is_capped_witness :
  readBody (fun bytes => bytes) [OnData [104; 105]%N; OnEnd]
  = Body [104; 105]%N.
Proof.
  apply (proj1 (proj2 (VoiceRunFacts.body_is_capped (fun bytes => bytes)
                         [OnData [104; 105]%N; OnEnd]))
           [[104; 105]%N] []).
  - reflexivity.
  - vm_compute. discriminate.
Defined.

(** Nine meetings make three batches, none of them empty. *)
Lemma batches_partition_meetings_witness :
  1 <= length (firstn 4 (skipn 8 (seq 0 9))) <= 4.
Proof.
  apply (proj1 (proj2 (MeetingPrepFacts.batches_partition_meetings (seq 0 9)))).
  vm_compute. tauto.
Defined.

(** Two slashes at the end of the configured address are taken off. *)
Lemma rpc_url_is_normalised_witness :
  exists base slashes,
    Signal.rpcUrl (Signal.make (lit "http://127.0.0.1:8080//") (lit "+1"))
    = base ++ lit "/api/v1/rpc" /\
    lit "http://127.0.0.1:8080//" = base ++ slashes /\
    (forall c, In c slashes -> c = 47%N) /\
    forall v c, base = v ++ [c] -> c <> 47%N.
Proof.
  apply (AdapterFacts.rpc_url_is_normalised (lit "http://127.0.0.1:8080//")
           (lit "+1")).
Defined.

(** The mention of the bot and the blank after it are taken out of a
    channel message. *)
Lemma mention_is_stripped_witness :
  Slack.stripBotMention connected_bot (lit "<@U0BOT> hello") = lit "hello".
Proof.
  change (Slack.stripBotMention connected_bot
            (mention (lit "U0BOT") ++ lit " hello") = trim (lit " hello")).
  apply (proj2 (proj2 (MentionFacts.mention_is_stripped connected_bot)
                  85%N (lit "0BOT") eq_refl)).
  reflexivity.
Defined.

(** The direct Signal message is handed on for the registered chat of
    its sender. *)
Lemma delivery_needs_registration_witness :
  registered own_chat (lit "sig:+15550001") = true.
Proof.
  destruct (proj2 (AdapterFacts.delivery_needs_registration iso_of_ts
                     iso_1000 decimal_1000)
              own_account own_chat direct_note
              (match Signal.processInbound iso_1000 decimal_1000 own_account
                       own_chat direct_note with
               | Some cbs => cbs
               | None => []
               end)) as [_ H].
  - vm_compute. reflexivity.
  - apply (H (lit "sig:+15550001")
             direct_note_delivered).
    vm_compute. tauto.
Defined.

End Examples.
